(** * fc-optimizer: the data pipeline of [src/services/api.ts] and [src/App.tsx]

    A shallow embedding of the fetch / normalize / aggregate / filter / rank
    pipeline of the dashboard, and the proofs of its specification.

    Conventions of the embedding.
    - A JavaScript [number] that holds an id, a rating or a counter is a [Z];
      the vote tallies and the scores computed from them are IEEE 754
      binary64 values, Rocq's primitive [float], which is the arithmetic
      JavaScript itself performs.
    - [Map<number, V>] is a [gmap Z V].  The [Map<string, AggregatedPlayer>]
      of the aggregator is iterated in insertion order, so it is an
      association list that keeps that order.
    - A promise that settles is an [Outcome]: the value it resolves to or the
      message of the [Error] it rejects with.
    - Module-level variables ([cachedData], [staticDataPromise], [sbcCache])
      are threaded explicitly as a [ModuleState]. *)

From Stdlib Require Import ZArith List Bool Ascii String Permutation Sorted Lia PrimFloat.
From stdpp Require Import base option list gmap strings pretty.

Import ListNotations.
Local Open Scope string_scope.
Local Open Scope list_scope.
Local Open Scope Z_scope.

(** ** JavaScript built-ins used by the sources *)

Module JS.

(** [`${n}`] and [String(n)] for an integral number: decimal digits with a
    leading minus sign for negatives (below 1e21, where JavaScript switches to
    exponent notation). *)
Definition toString (n : Z) : string := pretty n.

(** [Array.prototype.join]. *)
Fixpoint join (sep : string) (l : list string) : string :=
  match l with
  | [] => ""
  | [x] => x
  | x :: rest => x +:+ sep +:+ join sep rest
  end.

(** [String.prototype.split] with a non-empty separator: the string is cut at
    every occurrence of [sep], scanning from the left; [skip] counts the
    characters of a matched separator still to be dropped. *)
Fixpoint split_go (sep : string) (s : string) (cur : string) (skip : nat)
  : list string :=
  match s with
  | EmptyString => [cur]
  | String c s' =>
      match skip with
      | S k => split_go sep s' cur k
      | O =>
          if String.prefix sep (String c s')
          then cur :: split_go sep s' "" (Nat.pred (String.length sep))
          else split_go sep s' (cur +:+ String c "") 0
      end
  end.

Definition split (sep : string) (s : string) : list string :=
  split_go sep s "" 0.

(** Truthiness of a string: every string but the empty one. *)
Definition truthy (s : string) : bool :=
  match s with EmptyString => false | _ => true end.

(** [s || d] on strings. *)
Definition or_else (s d : string) : string := if truthy s then s else d.

(** [o || d] where [o] may be [undefined]. *)
Definition opt_or_else (o : option string) (d : string) : string :=
  match o with Some s => or_else s d | None => d end.

(** [Array.prototype.includes] on an array of strings. *)
Definition includes (l : list string) (x : string) : bool :=
  existsb (String.eqb x) l.

(** [Array.prototype.sort] with a comparator.  The standard requires the sort
    to be stable; for a comparator that is a consistent ordering every stable
    sort returns the same array, here computed by insertion from the right.
    [le0 x y] is the test [cmp(x, y) <= 0]: [x] stays in front of [y]. *)
Section Sort.
Context {A : Type} (le0 : A → A → bool).

Fixpoint insert_sorted (x : A) (l : list A) : list A :=
  match l with
  | [] => [x]
  | y :: l' => if le0 x y then x :: y :: l' else y :: insert_sorted x l'
  end.

Fixpoint sort (l : list A) : list A :=
  match l with
  | [] => []
  | x :: l' => insert_sorted x (sort l')
  end.

End Sort.

(** [parseInt(s, 10)]: leading blanks are skipped, then an optional sign and
    the longest run of decimal digits are read; [None] stands for [NaN]. *)
Definition digit_of (c : ascii) : option Z :=
  let n := Z.of_nat (nat_of_ascii c) in
  if (48 <=? n) && (n <=? 57) then Some (n - 48) else None.

Fixpoint skip_blanks (s : string) : string :=
  match s with
  | String c s' => if Ascii.is_space c then skip_blanks s' else s
  | EmptyString => s
  end.

Fixpoint read_digits (s : string) (acc : option Z) : option Z :=
  match s with
  | String c s' =>
      match digit_of c with
      | Some d => read_digits s' (Some (10 * default 0 acc + d))
      | None => acc
      end
  | EmptyString => acc
  end.

Definition parseInt (s : string) : option Z :=
  match skip_blanks s with
  | String "-" s' => Z.opp <$> read_digits s' None
  | String "+" s' => read_digits s' None
  | s' => read_digits s' None
  end.

End JS.

(** ** [src/types/player.ts] *)

Inductive PlayerType := Transfer | Storage | Duplicated.

Global Instance PlayerType_eq_dec : EqDecision PlayerType.
Proof. solve_decision. Defined.

Module RawPlayerData.
Record t := mk {
  id : Z;
  f : string;            (* first name *)
  l : string;            (* last name *)
  c : option string;     (* common name, optional *)
  r : Z;                 (* rating *)
  n : Z                  (* nation *)
}.
End RawPlayerData.

(** [possiblePositions] is declared [string[]], but every use in [api.ts]
    goes through [?.], so an item without the field is representable. *)
Module PlayerItem.
Record t := mk {
  assetId : Z;
  rating : Z;
  possiblePositions : option (list string);
  nation : Z;
  leagueId : Z;
  teamid : Z
}.
End PlayerItem.

Module AuctionInfo.
Record t := mk { itemData : PlayerItem.t }.
End AuctionInfo.

(** The three responses; [processPlayers] tests each array for presence. *)
Module TradePileResponse.
Record t := mk { auctionInfo : option (list AuctionInfo.t) }.
End TradePileResponse.

Module StorageResponse.
Record t := mk { itemData : option (list PlayerItem.t) }.
End StorageResponse.

Module DuplicatedResponse.
Record t := mk { itemData : option (list PlayerItem.t) }.
End DuplicatedResponse.

Module PlayersJsonResponse.
Record t := mk {
  LegendsPlayers : option (list RawPlayerData.t);
  Players : option (list RawPlayerData.t)
}.
End PlayersJsonResponse.

Module ProcessedPlayer.
Record t := mk {
  assetId : Z;
  name : string;
  rating : Z;
  position : string;
  nation : string;
  nationId : Z;
  nationImg : option string;
  league : string;
  leagueId : Z;
  leagueImg : option string;
  team : string;
  teamId : Z;
  teamImg : option string;
  type : PlayerType
}.
End ProcessedPlayer.

(** [AggregatedPlayer extends ProcessedPlayer]: [player] holds the inherited
    fields. *)
Module AggregatedPlayer.
Record t := mk {
  player : ProcessedPlayer.t;
  copies : Z;
  types : list PlayerType
}.
Definition rating (a : t) : Z := ProcessedPlayer.rating (player a).
Definition assetId (a : t) : Z := ProcessedPlayer.assetId (player a).
Definition position (a : t) : string := ProcessedPlayer.position (player a).
Definition nation (a : t) : string := ProcessedPlayer.nation (player a).
Definition league (a : t) : string := ProcessedPlayer.league (player a).
Definition team (a : t) : string := ProcessedPlayer.team (player a).
End AggregatedPlayer.

Module FilterState.
Record t := mk {
  ratingRange : Z * Z;
  positions : list string;
  nations : list string;
  leagues : list string;
  teams : list string;
  types : list PlayerType;
  multipleCopiesOnly : bool
}.
End FilterState.

(** ** [src/services/api.ts]: constants and reference data *)

Definition CORS_PROXY : string := "https://cors-anywhere-lorenzo.herokuapp.com/".
Definition EA_STATIC_URL : string :=
  "https://www.ea.com/ea-sports-fc/ultimate-team/web-app/content/26E4D4D6-8DBB-4A9A-BD99-9C47D3AA341D/2026/fut/items/web".
Definition EA_IMAGES_URL : string :=
  "https://www.ea.com/ea-sports-fc/ultimate-team/web-app/content/26E4D4D6-8DBB-4A9A-BD99-9C47D3AA341D/2026/fut/items/images/mobile".
Definition FUT_API_URL : string :=
  "https://utas.mob.v4.prd.futc-ext.gcp.ea.com/ut/game/fc26".
Definition FUTGG_API_URL : string := "https://www.fut.gg/api/fut/fc-core-data".
Definition FUTNEXT_API_URL : string := "https://enhancer-api.futnext.com".

Definition getClubImageUrl (clubId : Z) : string :=
  EA_IMAGES_URL +:+ "/clubs/dark/" +:+ JS.toString clubId +:+ ".png".

Definition getNationImageUrl (nationId : Z) : string :=
  EA_IMAGES_URL +:+ "/flags/light/" +:+ JS.toString nationId +:+ ".png".

Definition getLeagueImageUrl (leagueId : Z) : string :=
  EA_IMAGES_URL +:+ "/leagues/dark/" +:+ JS.toString leagueId +:+ ".png".

Module FutGGClub.
Record t := mk { eaId : Z; name : string; siblingClubEaId : option Z }.
End FutGGClub.

Module FutGGNation.
Record t := mk { eaId : Z; name : string }.
End FutGGNation.

Module FutGGLeague.
Record t := mk { eaId : Z; name : string }.
End FutGGLeague.

Module FutGGResponse.
Record t := mk {
  clubs : list FutGGClub.t;
  nations : list FutGGNation.t;
  leagues : list FutGGLeague.t
}.
End FutGGResponse.

Module EntityInfo.
Record t := mk { name : string; imgUrl : option string }.
End EntityInfo.

Module CachedData.
Record t := mk {
  players : gmap Z RawPlayerData.t;
  teams : gmap Z EntityInfo.t;
  leagues : gmap Z EntityInfo.t;
  nations : gmap Z EntityInfo.t
}.
End CachedData.

(** A settled promise: the value it resolved to, or the message of the
    [Error] it rejected with. *)
Inductive Outcome (T : Type) : Type :=
| Resolved (value : T)
| Rejected (message : string).
Arguments Resolved {T} value.
Arguments Rejected {T} message.

(** What a call does to the outside world, in order. *)
Inductive Event :=
| Fetch (url : string)      (* [fetch(CORS_PROXY + url, ...)] *)
| Sleep (ms : Z).           (* [setTimeout(resolve, ms)] awaited *)

(** [corsRequest(url, options)]: the request goes to the relay; the reply, or
    the [Error] thrown for a transport failure or a non-2xx status, is the
    [reply] the network gives. *)
Definition corsRequest {T} (url : string) (reply : Outcome T)
  : Outcome T * list Event :=
  (reply, [Fetch (CORS_PROXY +:+ url)]).

(** The body of [fetchFutGGData] after the response arrived. *)
Definition teams_of (clubs : list FutGGClub.t) : gmap Z EntityInfo.t :=
  fold_left
    (fun teams club =>
       let teams1 :=
         <[FutGGClub.eaId club :=
             EntityInfo.mk (FutGGClub.name club)
               (Some (getClubImageUrl (FutGGClub.eaId club)))]> teams in
       match FutGGClub.siblingClubEaId club with
       | Some sibling =>
           if sibling =? 0 then teams1
           else <[sibling :=
                    EntityInfo.mk (FutGGClub.name club)
                      (Some (getClubImageUrl sibling))]> teams1
       | None => teams1
       end)
    clubs ∅.

Definition nations_of (l : list FutGGNation.t) : gmap Z EntityInfo.t :=
  fold_left
    (fun nations nation =>
       <[FutGGNation.eaId nation :=
           EntityInfo.mk (FutGGNation.name nation)
             (Some (getNationImageUrl (FutGGNation.eaId nation)))]> nations)
    l ∅.

Definition leagues_of (l : list FutGGLeague.t) : gmap Z EntityInfo.t :=
  fold_left
    (fun leagues league =>
       <[FutGGLeague.eaId league :=
           EntityInfo.mk (FutGGLeague.name league)
             (Some (getLeagueImageUrl (FutGGLeague.eaId league)))]> leagues)
    l ∅.

Definition playersMap_of (r : PlayersJsonResponse.t) : gmap Z RawPlayerData.t :=
  let allPlayers :=
    default [] (PlayersJsonResponse.LegendsPlayers r)
    ++ default [] (PlayersJsonResponse.Players r) in
  fold_left (fun m player => <[RawPlayerData.id player := player]> m)
    allPlayers ∅.

(** ** [fetchWithRetry] *)

Definition DEFAULT_MAX_RETRIES : nat := 3.

(** The [for] loop of [fetchWithRetry].  [attempt] is the loop counter and
    [todo] the number of iterations left, [maxRetries + 1 - attempt];
    [reply k] is what the [k]-th [corsRequest] of this call meets. *)
Fixpoint retry_loop {T} (url name : string) (reply : nat → Outcome T)
    (maxRetries : nat) (todo attempt : nat) (lastError : option string)
  : Outcome T * list Event :=
  match todo with
  | O =>
      (Rejected
         (default ("Failed to fetch " +:+ name +:+ " after "
                   +:+ JS.toString (Z.of_nat maxRetries) +:+ " retries")
            lastError), [])
  | S todo' =>
      match corsRequest url (reply attempt) with
      | (Resolved result, ev) => (Resolved result, ev)
      | (Rejected error, ev) =>
          let wait :=
            if (attempt <? maxRetries)%nat
            then [Sleep (1000 * Z.of_nat attempt)] else [] in
          let '(res, rest) :=
            retry_loop url name reply maxRetries todo' (S attempt) (Some error) in
          (res, ev ++ wait ++ rest)
      end
  end.

Definition fetchWithRetry {T} (url name : string) (reply : nat → Outcome T)
    (maxRetries : nat) : Outcome T * list Event :=
  retry_loop url name reply maxRetries maxRetries 1%nat None.

Definition fetchTradePile (reply : nat → Outcome TradePileResponse.t) :=
  fetchWithRetry (FUT_API_URL +:+ "/tradepile") "Trade pile" reply
    DEFAULT_MAX_RETRIES.

Definition fetchStorage (reply : nat → Outcome StorageResponse.t) :=
  fetchWithRetry (FUT_API_URL +:+ "/storagepile?skuMode=FUT") "Storage" reply
    DEFAULT_MAX_RETRIES.

Definition fetchDuplicated (reply : nat → Outcome DuplicatedResponse.t) :=
  fetchWithRetry (FUT_API_URL +:+ "/purchased/items") "Duplicated items" reply
    DEFAULT_MAX_RETRIES.

(** ** SBC types *)

Module SBCSet.
Record t := mk {
  setId : Z;
  name : string;
  description : string;
  challengesCount : Z;
  challengesCompletedCount : Z;
  categoryId : Z;
  repeatable : bool;
  repeats : Z;
  timesCompleted : Z
}.
End SBCSet.

(** [fetchSBCSets] checks [categories] and every [sets] with
    [x && Array.isArray(x)]: [None] is a value that fails the check. *)
Module SBCCategory.
Record t := mk { categoryId : Z; name : string; sets : option (list SBCSet.t) }.
End SBCCategory.

Module SBCSetsResponse.
Record t := mk { categories : option (list SBCCategory.t) }.
End SBCSetsResponse.

Module SBCVote.
Record t := mk { id : Z; likes : float; dislikes : float }.
End SBCVote.

(** One element of the vote service's array, as [fetchSBCVotes] casts it. *)
Module VoteData.
Record t := mk { dataId : string; likes : float; disLikes : float }.
End VoteData.

Module SBCWithDetails.
Record t := mk {
  setId : Z;
  name : string;
  challengesCount : Z;
  likes : float;
  dislikes : float;
  likePercent : float;
  rankScore : float
}.
End SBCWithDetails.

Module SBCCache.
Record t := mk { data : list SBCWithDetails.t; timestamp : Z }.
End SBCCache.

Definition SBC_CACHE_DURATION : Z := 5 * 60 * 1000.

(** ** Module state of [api.ts] *)

Record ModuleState := mkState {
  cachedData : option CachedData.t;
  staticDataPromise : option (Outcome CachedData.t);
  sbcCache : option SBCCache.t
}.

Definition initial_state : ModuleState := mkState None None None.

Definition clearCache (st : ModuleState) : ModuleState := mkState None None None.

(** ** [fetchStaticData] *)

(** What the two reference endpoints answer; [now] is the [Date.now()] of the
    cache-busting query, and [futgg_rejects_first] says which rejection
    [Promise.all] sees first when both requests fail. *)
Record StaticWorld := {
  static_now : Z;
  players_json : Outcome PlayersJsonResponse.t;
  futgg : Outcome FutGGResponse.t;
  futgg_rejects_first : bool
}.

Definition FUTGG_QUERY : string :=
  "/?evolution_names=false&clubs=true&nations=true&leagues=true&rarities=false&rarity_squads=false&evolutions_lite=false&evolutions=false&active_evolutions=false&rarity_groups=false&roles=false&base_roles=false&play_styles=false&build_up_styles=false&defensive_approaches=false".

Definition fetchFutGGData (reply : Outcome FutGGResponse.t)
  : Outcome (gmap Z EntityInfo.t * gmap Z EntityInfo.t * gmap Z EntityInfo.t)
    * list Event :=
  match corsRequest (FUTGG_API_URL +:+ FUTGG_QUERY) reply with
  | (Resolved response, ev) =>
      (Resolved (teams_of (FutGGResponse.clubs response),
                 leagues_of (FutGGResponse.leagues response),
                 nations_of (FutGGResponse.nations response)), ev)
  | (Rejected e, ev) => (Rejected e, ev)
  end.

Definition fetchStaticData (w : StaticWorld) (st : ModuleState)
  : Outcome CachedData.t * ModuleState * list Event :=
  match cachedData st with
  | Some d => (Resolved d, st, [])
  | None =>
      match staticDataPromise st with
      | Some p => (p, st, [])
      | None =>
          let '(playersResponse, ev1) :=
            corsRequest
              (EA_STATIC_URL +:+ "/players.json?_=" +:+ JS.toString (static_now w))
              (players_json w) in
          let '(futggData, ev2) := fetchFutGGData (futgg w) in
          let settled :=
            match playersResponse, futggData with
            | Resolved pr, Resolved (teams, leagues, nations) =>
                Resolved (CachedData.mk (playersMap_of pr) teams leagues nations)
            | Rejected e, Resolved _ => Rejected e
            | Resolved _, Rejected e => Rejected e
            | Rejected e1, Rejected e2 =>
                Rejected (if futgg_rejects_first w then e2 else e1)
            end in
          let cached :=
            match settled with Resolved d => Some d | Rejected _ => None end in
          (settled, mkState cached (Some settled) (sbcCache st), ev1 ++ ev2)
      end
  end.

(** ** [processPlayers] *)

Module FetchResult.
Record t := mk { players : list ProcessedPlayer.t; warnings : list string }.
End FetchResult.

Inductive Source := TradePile | StoragePile | DuplicatedItems.

Global Instance Source_eq_dec : EqDecision Source.
Proof. solve_decision. Defined.

(** What the three item endpoints answer to the session [sid] at each
    attempt, and the order in which the three guarded fetches settle, which
    is the order in which their [catch] handlers push a warning. *)
Record ItemsWorld := {
  tradepile : string → nat → Outcome TradePileResponse.t;
  storagepile : string → nat → Outcome StorageResponse.t;
  purchased : string → nat → Outcome DuplicatedResponse.t;
  settle_order : list Source
}.

Section Normalize.
Variable staticData : CachedData.t.

Definition getTeamName (teamId : Z) : string :=
  JS.opt_or_else (EntityInfo.name <$> CachedData.teams staticData !! teamId) "Unknown".

Definition getLeagueName (leagueId : Z) : string :=
  JS.opt_or_else (EntityInfo.name <$> CachedData.leagues staticData !! leagueId) "Unknown".

Definition getNationName (nationId : Z) : string :=
  JS.opt_or_else (EntityInfo.name <$> CachedData.nations staticData !! nationId) "Unknown".

Definition getTeamImg (teamId : Z) : option string :=
  CachedData.teams staticData !! teamId ≫= EntityInfo.imgUrl.

Definition getLeagueImg (leagueId : Z) : option string :=
  CachedData.leagues staticData !! leagueId ≫= EntityInfo.imgUrl.

Definition getNationImg (nationId : Z) : option string :=
  CachedData.nations staticData !! nationId ≫= EntityInfo.imgUrl.

Definition getPlayerName (assetId : Z) : string :=
  match CachedData.players staticData !! assetId with
  | None => "Unknown"
  | Some player =>
      JS.opt_or_else (RawPlayerData.c player)
        (RawPlayerData.f player +:+ " " +:+ RawPlayerData.l player)
  end.

(** The object literal pushed by each of the three loops; only [type]
    differs between them. *)
Definition processItem (type : PlayerType) (item : PlayerItem.t)
  : ProcessedPlayer.t :=
  {| ProcessedPlayer.assetId := PlayerItem.assetId item;
     ProcessedPlayer.name := getPlayerName (PlayerItem.assetId item);
     ProcessedPlayer.rating := PlayerItem.rating item;
     ProcessedPlayer.position :=
       JS.opt_or_else (JS.join " / " <$> PlayerItem.possiblePositions item)
         "Unknown";
     ProcessedPlayer.nation := getNationName (PlayerItem.nation item);
     ProcessedPlayer.nationId := PlayerItem.nation item;
     ProcessedPlayer.nationImg := getNationImg (PlayerItem.nation item);
     ProcessedPlayer.league := getLeagueName (PlayerItem.leagueId item);
     ProcessedPlayer.leagueId := PlayerItem.leagueId item;
     ProcessedPlayer.leagueImg := getLeagueImg (PlayerItem.leagueId item);
     ProcessedPlayer.team := getTeamName (PlayerItem.teamid item);
     ProcessedPlayer.teamId := PlayerItem.teamid item;
     ProcessedPlayer.teamImg := getTeamImg (PlayerItem.teamid item);
     ProcessedPlayer.type := type |}.

(** The part of [processPlayers] after [await fetchStaticData()]. *)
Definition processPlayers_with (w : ItemsWorld) (sid : string) : FetchResult.t :=
  let tradePileResult := fst (fetchTradePile (tradepile w sid)) in
  let storageResult := fst (fetchStorage (storagepile w sid)) in
  let duplicatedResult := fst (fetchDuplicated (purchased w sid)) in
  let warnings :=
    flat_map
      (fun src =>
         match src with
         | TradePile =>
             match tradePileResult with
             | Rejected msg => ["Trade pile failed: " +:+ msg]
             | Resolved _ => []
             end
         | StoragePile =>
             match storageResult with
             | Rejected msg => ["Storage failed after 3 retries: " +:+ msg]
             | Resolved _ => []
             end
         | DuplicatedItems =>
             match duplicatedResult with
             | Rejected msg => ["Duplicated items failed: " +:+ msg]
             | Resolved _ => []
             end
         end)
      (settle_order w) in
  let tradePile :=
    match tradePileResult with
    | Resolved r => r
    | Rejected _ => TradePileResponse.mk (Some [])
    end in
  let storage :=
    match storageResult with
    | Resolved r => r
    | Rejected _ => StorageResponse.mk (Some [])
    end in
  let duplicated :=
    match duplicatedResult with
    | Resolved r => r
    | Rejected _ => DuplicatedResponse.mk (Some [])
    end in
  let fromTradePile :=
    match TradePileResponse.auctionInfo tradePile with
    | Some auctions =>
        map (fun auction => processItem Transfer (AuctionInfo.itemData auction))
          auctions
    | None => []
    end in
  let fromStorage :=
    match StorageResponse.itemData storage with
    | Some items => map (processItem Storage) items
    | None => []
    end in
  let fromDuplicated :=
    match DuplicatedResponse.itemData duplicated with
    | Some items => map (processItem Duplicated) items
    | None => []
    end in
  FetchResult.mk (fromTradePile ++ fromStorage ++ fromDuplicated) warnings.

End Normalize.

Definition processPlayers (sw : StaticWorld) (w : ItemsWorld) (sid : string)
    (st : ModuleState) : Outcome FetchResult.t * ModuleState :=
  match fetchStaticData sw st with
  | (Resolved staticData, st', _) =>
      (Resolved (processPlayers_with staticData w sid), st')
  | (Rejected e, st', _) => (Rejected e, st')
  end.

(** ** The SBC ranking pipeline *)

Definition fetchSBCSets (reply : Outcome SBCSetsResponse.t)
  : Outcome (list SBCSet.t) * list Event :=
  match corsRequest (FUT_API_URL +:+ "/sbs/sets") reply with
  | (Resolved response, ev) =>
      (Resolved
         match SBCSetsResponse.categories response with
         | Some categories =>
             flat_map (fun category => default [] (SBCCategory.sets category))
               categories
         | None => []
         end, ev)
  | (Rejected e, ev) => (Rejected e, ev)
  end.

(** [x || 0] on a number of the vote service: [0], [-0] and [NaN] (and a
    missing field, which is as falsy) give [0]. *)
Definition float_or_zero (x : float) : float :=
  if (x =? 0)%float || PrimFloat.is_nan x then 0%float else x.

(** [n || 0] on an integral number. *)
Definition Z_or_zero (n : Z) : Z := if n =? 0 then 0 else n.

(** [fetchSBCVotes]: [reply] is [None] when the body is not an array.  The
    function never rejects: a failed request yields the empty map. *)
Definition fetchSBCVotes (ids : list Z) (reply : Outcome (option (list VoteData.t)))
  : gmap Z SBCVote.t * list Event :=
  match ids with
  | [] => (∅, [])
  | _ =>
      let idsString := JS.join "_" (map JS.toString ids) in
      match corsRequest
              (FUTNEXT_API_URL +:+ "/vote/votes?ids=" +:+ idsString +:+ "&type=sbcSet")
              reply with
      | (Resolved response, ev) =>
          (fold_left
             (fun votesMap voteData =>
                match JS.parseInt (VoteData.dataId voteData) with
                | Some id =>
                    <[id := SBCVote.mk id
                              (float_or_zero (VoteData.likes voteData))
                              (float_or_zero (VoteData.disLikes voteData))]> votesMap
                | None => votesMap
                end)
             (default [] response) ∅, ev)
      | (Rejected _, ev) => (∅, ev)
      end
  end.

Definition challengesRemaining (set : SBCSet.t) : Z :=
  SBCSet.challengesCount set - SBCSet.challengesCompletedCount set.

(** The test that leads to [continue] in the loop over [allSets]. *)
Definition skipped (set : SBCSet.t) : bool :=
  if SBCSet.repeatable set
  then (SBCSet.repeats set <=? SBCSet.timesCompleted set)
       && (challengesRemaining set =? 0)
  else challengesRemaining set =? 0.

(** [{ ...set, challengesCount: challengesRemaining }]. *)
Definition with_remaining (set : SBCSet.t) : SBCSet.t :=
  {| SBCSet.setId := SBCSet.setId set;
     SBCSet.name := SBCSet.name set;
     SBCSet.description := SBCSet.description set;
     SBCSet.challengesCount := challengesRemaining set;
     SBCSet.challengesCompletedCount := SBCSet.challengesCompletedCount set;
     SBCSet.categoryId := SBCSet.categoryId set;
     SBCSet.repeatable := SBCSet.repeatable set;
     SBCSet.repeats := SBCSet.repeats set;
     SBCSet.timesCompleted := SBCSet.timesCompleted set |}.

(** The loop that fills [sets]. *)
Definition incomplete_sets (allSets : list SBCSet.t) : list SBCSet.t :=
  fold_left
    (fun sets set => if skipped set then sets else sets ++ [with_remaining set])
    allSets [].

#[warnings="-inexact-float"]
Definition z : float := 1.96%float.

Definition rankScore_of (likes dislikes : float) : float :=
  let totalVotes := (likes + dislikes)%float in
  let phat := if (0 <? totalVotes)%float then (likes / totalVotes)%float else 0%float in
  if (0 <? totalVotes)%float
  then ((phat + z * z / (2 * totalVotes)
         - z * PrimFloat.sqrt ((phat * (1 - phat) + z * z / (4 * totalVotes)) / totalVotes))
        / (1 + z * z / totalVotes))%float
  else 0%float.

Definition likePercent_of (likes dislikes : float) : float :=
  let totalVotes := (likes + dislikes)%float in
  if (0 <? totalVotes)%float then (likes / totalVotes * 100)%float else 0%float.

(** The callback of [sets.map(...)]. *)
Definition details (votes : gmap Z SBCVote.t) (set : SBCSet.t) : SBCWithDetails.t :=
  let vote := votes !! SBCSet.setId set in
  let likes := float_or_zero (default 0%float (SBCVote.likes <$> vote)) in
  let dislikes := float_or_zero (default 0%float (SBCVote.dislikes <$> vote)) in
  {| SBCWithDetails.setId := SBCSet.setId set;
     SBCWithDetails.name := SBCSet.name set;
     SBCWithDetails.challengesCount := Z_or_zero (SBCSet.challengesCount set);
     SBCWithDetails.likes := likes;
     SBCWithDetails.dislikes := dislikes;
     SBCWithDetails.likePercent := likePercent_of likes dislikes;
     SBCWithDetails.rankScore := rankScore_of likes dislikes |}.

(** [(a, b) => b.rankScore - a.rankScore] is at most zero. *)
Definition by_rankScore (a b : SBCWithDetails.t) : bool :=
  (SBCWithDetails.rankScore b - SBCWithDetails.rankScore a <=? 0)%float.

(** What one call of the pipeline meets: the two readings of [Date.now()]
    (at the cache test and when the result is stored) and the replies of the
    set catalogue and of the vote service. *)
Record SBCWorld := {
  now_at_check : Z;
  sbs_sets : string → Outcome SBCSetsResponse.t;
  vote_service : list Z → Outcome (option (list VoteData.t));
  now_at_store : Z
}.

(** [sbcCache && Date.now() - sbcCache.timestamp < SBC_CACHE_DURATION]. *)
Definition cache_fresh (now : Z) (cache : option SBCCache.t) : option (list SBCWithDetails.t) :=
  match cache with
  | Some c =>
      if now - SBCCache.timestamp c <? SBC_CACHE_DURATION
      then Some (SBCCache.data c) else None
  | None => None
  end.

Definition fetchAllSBCsWithDetails (w : SBCWorld) (sid : string) (st : ModuleState)
  : Outcome (list SBCWithDetails.t) * ModuleState * list Event :=
  match cache_fresh (now_at_check w) (sbcCache st) with
  | Some data => (Resolved data, st, [])
  | None =>
      match fetchSBCSets (sbs_sets w sid) with
      | (Rejected e, ev) => (Rejected e, st, ev)
      | (Resolved allSets, ev) =>
          let sets := incomplete_sets allSets in
          if (length sets =? 0)%nat then (Resolved [], st, ev)
          else
            let setIds := map SBCSet.setId sets in
            let '(votes, ev') := fetchSBCVotes setIds (vote_service w setIds) in
            let result := JS.sort by_rankScore (map (details votes) sets) in
            (Resolved result,
             mkState (cachedData st) (staticDataPromise st)
               (Some (SBCCache.mk result (now_at_store w))),
             ev ++ ev')
      end
  end.

(** ** [src/App.tsx]: the aggregator *)

(** A [Map<string, V>]: the entries in insertion order, keys distinct. *)
Module StrMap.
Section Ops.
Context {V : Type}.

Fixpoint get (m : list (string * V)) (key : string) : option V :=
  match m with
  | [] => None
  | (k, v) :: m' => if String.eqb k key then Some v else get m' key
  end.

(** [set]: a present key keeps its place, a new key goes last. *)
Fixpoint set (m : list (string * V)) (key : string) (v : V) : list (string * V) :=
  match m with
  | [] => [(key, v)]
  | (k, v') :: m' =>
      if String.eqb k key then (k, v) :: m' else (k, v') :: set m' key v
  end.

(** Mutation of the object stored under [key]. *)
Fixpoint update (m : list (string * V)) (key : string) (f : V → V) : list (string * V) :=
  match m with
  | [] => []
  | (k, v) :: m' =>
      if String.eqb k key then (k, f v) :: m' else (k, v) :: update m' key f
  end.

Definition values (m : list (string * V)) : list V := map snd m.

End Ops.
End StrMap.

Definition key_of (player : ProcessedPlayer.t) : string :=
  JS.toString (ProcessedPlayer.assetId player) +:+ "-"
  +:+ JS.toString (ProcessedPlayer.rating player).

Definition includes_type (l : list PlayerType) (t : PlayerType) : bool :=
  bool_decide (t ∈ l).

(** The two statements of the [if (existing)] branch. *)
Definition add_copy (type : PlayerType) (existing : AggregatedPlayer.t)
  : AggregatedPlayer.t :=
  {| AggregatedPlayer.player := AggregatedPlayer.player existing;
     AggregatedPlayer.copies := AggregatedPlayer.copies existing + 1;
     AggregatedPlayer.types :=
       if includes_type (AggregatedPlayer.types existing) type
       then AggregatedPlayer.types existing
       else AggregatedPlayer.types existing ++ [type] |}.

(** One iteration of [for (const player of players)]. *)
Definition aggregate_step (playerMap : list (string * AggregatedPlayer.t))
    (player : ProcessedPlayer.t) : list (string * AggregatedPlayer.t) :=
  let key := key_of player in
  match StrMap.get playerMap key with
  | Some _ => StrMap.update playerMap key (add_copy (ProcessedPlayer.type player))
  | None =>
      StrMap.set playerMap key
        (AggregatedPlayer.mk player 1 [ProcessedPlayer.type player])
  end.

Definition aggregatedPlayers (players : list ProcessedPlayer.t)
  : list AggregatedPlayer.t :=
  StrMap.values (fold_left aggregate_step players []).

(** ** [src/App.tsx]: the filter *)

(** The callback of [aggregatedPlayers.filter(...)], test by test. *)
Definition passes (filters : FilterState.t) (player : AggregatedPlayer.t) : bool :=
  if (AggregatedPlayer.rating player <? fst (FilterState.ratingRange filters))
     || (snd (FilterState.ratingRange filters) <? AggregatedPlayer.rating player)
  then false
  else if (0 <? length (FilterState.positions filters))%nat
          && negb (existsb
                     (fun pos =>
                        JS.includes (JS.split " / " (AggregatedPlayer.position player)) pos)
                     (FilterState.positions filters))
  then false
  else if (0 <? length (FilterState.nations filters))%nat
          && negb (JS.includes (FilterState.nations filters) (AggregatedPlayer.nation player))
  then false
  else if (0 <? length (FilterState.leagues filters))%nat
          && negb (JS.includes (FilterState.leagues filters) (AggregatedPlayer.league player))
  then false
  else if (0 <? length (FilterState.teams filters))%nat
          && negb (JS.includes (FilterState.teams filters) (AggregatedPlayer.team player))
  then false
  else if (0 <? length (FilterState.types filters))%nat
          && negb (existsb (includes_type (FilterState.types filters))
                     (AggregatedPlayer.types player))
  then false
  else if FilterState.multipleCopiesOnly filters
          && (AggregatedPlayer.copies player <? 2)
  then false
  else true.

(** [(a, b) => b.rating - a.rating] is at most zero. *)
Definition by_rating (a b : AggregatedPlayer.t) : bool :=
  AggregatedPlayer.rating b - AggregatedPlayer.rating a <=? 0.

(** Arrays live in a store and are named by their address: [filter]
    allocates a new array, [sort] rearranges the array it is called on. *)
Abbreviation Store := (list (list AggregatedPlayer.t)).

Definition Array_filter (pred : AggregatedPlayer.t → bool) (a : nat) (σ : Store)
  : nat * Store :=
  (length σ, σ ++ [List.filter pred (default [] (σ !! a))]).

Definition Array_sort (le0 : AggregatedPlayer.t → AggregatedPlayer.t → bool)
    (a : nat) (σ : Store) : nat * Store :=
  (a, <[a := JS.sort le0 (default [] (σ !! a))]> σ).

Definition filteredPlayers (filters : FilterState.t) (aggregatedPlayers : nat)
    (σ : Store) : nat * Store :=
  let '(kept, σ1) := Array_filter (passes filters) aggregatedPlayers σ in
  Array_sort by_rating kept σ1.

(** ** Notions used to state the specification *)

(** The distinct elements of a list, each at the place of its first
    occurrence. *)
Fixpoint first_seen {A} `{EqDecision A} (l : list A) : list A :=
  match l with
  | [] => []
  | x :: l' => x :: List.filter (fun y => negb (bool_decide (y = x))) (first_seen l')
  end.

(** The identity of a card: the pair (asset id, rating). *)
Definition identity (p : ProcessedPlayer.t) : Z * Z :=
  (ProcessedPlayer.assetId p, ProcessedPlayer.rating p).

Definition same_identity (i : Z * Z) (p : ProcessedPlayer.t) : bool :=
  bool_decide (identity p = i).

(** Auxiliary notions of the proofs. *)

(** A run of decimal digits. *)
Fixpoint all_digits (s : string) : Prop :=
  match s with
  | EmptyString => True
  | String c s' => is_Some (JS.digit_of c) ∧ all_digits s'
  end.

Definition ids (m : list (string * AggregatedPlayer.t)) : list (Z * Z) :=
  map (fun kv => identity (AggregatedPlayer.player (snd kv))) m.

(** What an entry of the map records about the players seen so far. *)
Definition entry_ok (seen : list ProcessedPlayer.t) (e : AggregatedPlayer.t) : Prop :=
  let same := List.filter (same_identity (identity (AggregatedPlayer.player e))) seen in
  head same = Some (AggregatedPlayer.player e)
  ∧ AggregatedPlayer.copies e = Z.of_nat (length same)
  ∧ AggregatedPlayer.types e = first_seen (map ProcessedPlayer.type same).

Definition aggregate_inv (seen : list ProcessedPlayer.t)
    (m : list (string * AggregatedPlayer.t)) : Prop :=
  ids m = first_seen (map identity seen)
  ∧ Forall (fun kv => fst kv = key_of (AggregatedPlayer.player (snd kv))) m
  ∧ Forall (fun kv => entry_ok seen (snd kv)) m.


(** The filter's acceptance condition, as the specification words it. *)
Definition Passes (filters : FilterState.t) (e : AggregatedPlayer.t) : Prop :=
  (fst (FilterState.ratingRange filters) ≤ AggregatedPlayer.rating e
   ∧ AggregatedPlayer.rating e ≤ snd (FilterState.ratingRange filters))
  ∧ (FilterState.positions filters = []
     ∨ ∃ pos, pos ∈ JS.split " / " (AggregatedPlayer.position e)
              ∧ pos ∈ FilterState.positions filters)
  ∧ (FilterState.nations filters = []
     ∨ AggregatedPlayer.nation e ∈ FilterState.nations filters)
  ∧ (FilterState.leagues filters = []
     ∨ AggregatedPlayer.league e ∈ FilterState.leagues filters)
  ∧ (FilterState.teams filters = []
     ∨ AggregatedPlayer.team e ∈ FilterState.teams filters)
  ∧ (FilterState.types filters = []
     ∨ ∃ t, t ∈ AggregatedPlayer.types e ∧ t ∈ FilterState.types filters)
  ∧ (FilterState.multipleCopiesOnly filters = true → 2 ≤ AggregatedPlayer.copies e).

(** No list criterion, no multiple-copies flag. *)
Definition no_criteria (filters : FilterState.t) : Prop :=
  FilterState.positions filters = [] ∧ FilterState.nations filters = []
  ∧ FilterState.leagues filters = [] ∧ FilterState.teams filters = []
  ∧ FilterState.types filters = [] ∧ FilterState.multipleCopiesOnly filters = false.

Definition in_range (filters : FilterState.t) (e : AggregatedPlayer.t) : Prop :=
  fst (FilterState.ratingRange filters) ≤ AggregatedPlayer.rating e
  ∧ AggregatedPlayer.rating e ≤ snd (FilterState.ratingRange filters).

(** Descending by rating. *)
Definition descending (l : list AggregatedPlayer.t) : Prop :=
  StronglySorted
    (fun x y => AggregatedPlayer.rating y ≤ AggregatedPlayer.rating x) l.

(** The entries of a list that have rating [r], in their order. *)
Definition rated (r : Z) (l : list AggregatedPlayer.t) : list AggregatedPlayer.t :=
  List.filter (fun e => AggregatedPlayer.rating e =? r) l.

(** A set that has nothing left to do, as the specification words it. *)
Definition fully_completed (set : SBCSet.t) : Prop :=
  (SBCSet.repeatable set = true
   ∧ SBCSet.repeats set ≤ SBCSet.timesCompleted set
   ∧ SBCSet.challengesCount set - SBCSet.challengesCompletedCount set = 0)
  ∨ (SBCSet.repeatable set = false
     ∧ SBCSet.challengesCount set - SBCSet.challengesCompletedCount set = 0).

(** The votes the pipeline uses for a list of surviving sets. *)
Definition votes_for (w : SBCWorld) (sets : list SBCSet.t) : gmap Z SBCVote.t :=
  fst (fetchSBCVotes (map SBCSet.setId sets) (vote_service w (map SBCSet.setId sets))).

(** The request for the set catalogue, as it leaves the browser. *)
Definition sets_request : Event := Fetch (CORS_PROXY +:+ FUT_API_URL +:+ "/sbs/sets").

(** Sample data. *)

Definition sample_player (assetId rating : Z) (position : string) (type : PlayerType)
  : ProcessedPlayer.t :=
  {| ProcessedPlayer.assetId := assetId;
     ProcessedPlayer.name := "Player " +:+ JS.toString assetId;
     ProcessedPlayer.rating := rating;
     ProcessedPlayer.position := position;
     ProcessedPlayer.nation := "Italy";
     ProcessedPlayer.nationId := 27;
     ProcessedPlayer.nationImg := None;
     ProcessedPlayer.league := "Serie A";
     ProcessedPlayer.leagueId := 31;
     ProcessedPlayer.leagueImg := None;
     ProcessedPlayer.team := "Unknown";
     ProcessedPlayer.teamId := 0;
     ProcessedPlayer.teamImg := None;
     ProcessedPlayer.type := type |}.

Definition sample_players : list ProcessedPlayer.t :=
  [ sample_player 101 84 "ST / CF" Transfer;
    sample_player 202 90 "GK" Storage;
    sample_player 101 84 "ST / CF" Duplicated;
    sample_player 101 86 "ST" Storage;
    sample_player 101 84 "ST / CF" Transfer;
    sample_player 303 90 "CB / RB" Duplicated ].

Definition sample_filters : FilterState.t :=
  {| FilterState.ratingRange := (47, 99);
     FilterState.positions := ["ST"; "GK"];
     FilterState.nations := [];
     FilterState.leagues := ["Serie A"];
     FilterState.teams := [];
     FilterState.types := [Storage; Duplicated];
     FilterState.multipleCopiesOnly := false |}.

Definition sample_set (setId : Z) (repeatable : bool) (repeats timesCompleted : Z)
    (challengesCount challengesCompletedCount : Z) : SBCSet.t :=
  {| SBCSet.setId := setId;
     SBCSet.name := "Set " +:+ JS.toString setId;
     SBCSet.description := "";
     SBCSet.challengesCount := challengesCount;
     SBCSet.challengesCompletedCount := challengesCompletedCount;
     SBCSet.categoryId := 1;
     SBCSet.repeatable := repeatable;
     SBCSet.repeats := repeats;
     SBCSet.timesCompleted := timesCompleted |}.

Definition sample_catalogue (sets : list SBCSet.t) : Outcome SBCSetsResponse.t :=
  Resolved (SBCSetsResponse.mk (Some [SBCCategory.mk 1 "Upgrades" (Some sets)])).

Definition sample_votes : Outcome (option (list VoteData.t)) :=
  Resolved (Some [ VoteData.mk "5" 5 0; VoteData.mk "10" 10 0;
                   VoteData.mk "7" 0 0 ]).

Definition sample_world (now : Z) (sets : list SBCSet.t) : SBCWorld :=
  {| now_at_check := now;
     sbs_sets := fun _ => sample_catalogue sets;
     vote_service := fun _ => sample_votes;
     now_at_store := now + 800 |}.

(** A set with the given id, and the votes the service reports for it. *)
Definition voted (id : Z) (likes dislikes : float) : gmap Z SBCVote.t :=
  {[ id := SBCVote.mk id likes dislikes ]}.

(** The count [n] as a binary64 value (exact below 2^53). *)
Fixpoint float_of_nat (n : nat) : float :=
  match n with
  | O => 0%float
  | S k => (float_of_nat k + 1)%float
  end.

(** Attempts number [first], [first + 1], ... ([count] of them) at [url],
    with a pause of [1000 * j] ms after attempt [j] whenever another attempt
    follows. *)
Fixpoint spaced_attempts (url : string) (first count : nat) : list Event :=
  match count with
  | O => []
  | S O => [Fetch (CORS_PROXY +:+ url)]
  | S (S _ as count') =>
      Fetch (CORS_PROXY +:+ url) :: Sleep (1000 * Z.of_nat first)
      :: spaced_attempts url (S first) count'
  end.

Definition is_rejected {T} (o : Outcome T) : Prop := ∃ e, o = Rejected e.

Definition all_sources : list Source := [TradePile; StoragePile; DuplicatedItems].

Definition category (src : Source) : PlayerType :=
  match src with
  | TradePile => Transfer
  | StoragePile => Storage
  | DuplicatedItems => Duplicated
  end.

Definition label (src : Source) : string :=
  match src with
  | TradePile => "Trade pile"
  | StoragePile => "Storage"
  | DuplicatedItems => "Duplicated items"
  end.

(** The [k]-th attempt at a source is rejected with message [e]. *)
Definition attempt_rejected (w : ItemsWorld) (sid : string) (src : Source)
    (k : nat) (e : string) : Prop :=
  match src with
  | TradePile => tradepile w sid k = Rejected e
  | StoragePile => storagepile w sid k = Rejected e
  | DuplicatedItems => purchased w sid k = Rejected e
  end.

(** The retrying fetch of a source, seen as the list of items it delivers. *)
Definition fetched (w : ItemsWorld) (sid : string) (src : Source)
  : Outcome (list PlayerItem.t) :=
  match src with
  | TradePile =>
      match fst (fetchTradePile (tradepile w sid)) with
      | Resolved r =>
          Resolved (map AuctionInfo.itemData
                      (default [] (TradePileResponse.auctionInfo r)))
      | Rejected e => Rejected e
      end
  | StoragePile =>
      match fst (fetchStorage (storagepile w sid)) with
      | Resolved r => Resolved (default [] (StorageResponse.itemData r))
      | Rejected e => Rejected e
      end
  | DuplicatedItems =>
      match fst (fetchDuplicated (purchased w sid)) with
      | Resolved r => Resolved (default [] (DuplicatedResponse.itemData r))
      | Rejected e => Rejected e
      end
  end.

(** The records a source contributes. *)
Definition records_of (staticData : CachedData.t) (w : ItemsWorld) (sid : string)
    (src : Source) : list ProcessedPlayer.t :=
  match fetched w sid src with
  | Resolved items => map (processItem staticData (category src)) items
  | Rejected _ => []
  end.

Definition sample_item (assetId rating : Z) (positions : option (list string))
  : PlayerItem.t :=
  {| PlayerItem.assetId := assetId;
     PlayerItem.rating := rating;
     PlayerItem.possiblePositions := positions;
     PlayerItem.nation := 27;
     PlayerItem.leagueId := 31;
     PlayerItem.teamid := 45 |}.

Definition sample_static : CachedData.t :=
  {| CachedData.players :=
       {[ 101 := RawPlayerData.mk 101 "Paolo" "Rossi" None 84 27;
          202 := RawPlayerData.mk 202 "Edson" "Arantes" (Some "Pele") 98 54;
          303 := RawPlayerData.mk 303 "Ada" "Bo" (Some "") 70 27 ]};
     CachedData.teams := teams_of [FutGGClub.mk 45 "Juventus" (Some 110045)];
     CachedData.leagues := leagues_of [FutGGLeague.mk 31 "Serie A"];
     CachedData.nations := nations_of [FutGGNation.mk 27 "Italy"] |}.

(** Storage is down; the trade pile answers at the second attempt. *)
Definition sample_items_world : ItemsWorld :=
  {| tradepile := fun _ k =>
       if (k <? 2)%nat then Rejected "API Error: 500 Internal Server Error"
       else Resolved (TradePileResponse.mk
                        (Some [AuctionInfo.mk (sample_item 101 84 (Some ["ST"; "CF"]))]));
     storagepile := fun _ k =>
       Rejected ("API Error: 503 try " +:+ JS.toString (Z.of_nat k));
     purchased := fun _ _ =>
       Resolved (DuplicatedResponse.mk (Some [sample_item 999 70 (Some [])]));
     settle_order := [DuplicatedItems; TradePile; StoragePile] |}.

Definition sample_static_world : StaticWorld :=
  {| static_now := 1700000000000;
     players_json := Resolved (PlayersJsonResponse.mk None (Some []));
     futgg := Resolved (FutGGResponse.mk [] [] []);
     futgg_rejects_first := false |}.

(** The text pushed by the [catch] handler of a source. *)
Definition warning_text (src : Source) (msg : string) : string :=
  label src
  +:+ match src with
      | StoragePile => " failed after 3 retries: "
      | _ => " failed: "
      end
  +:+ msg.

(** The warning a source contributes once its guarded fetch has settled. *)
Definition warning_of (w : ItemsWorld) (sid : string) (src : Source) : list string :=
  match fetched w sid src with
  | Rejected msg => [warning_text src msg]
  | Resolved _ => []
  end.

(** A string without a blank. *)
Fixpoint no_blank (s : string) : Prop :=
  match s with
  | EmptyString => True
  | String c s' => c ≠ " "%char ∧ no_blank s'
  end.

(** ** [src/services/api.ts]: the challenges of a set *)

Module SBCChallengeEligibility.
Record t := mk {
  type : string;
  eligibilitySlot : Z;
  eligibilityKey : Z;
  eligibilityValue : Z
}.
End SBCChallengeEligibility.

(** [elgReq] is read through [?.], so a challenge without it is
    representable. *)
Module SBCChallenge.
Record t := mk {
  challengeId : Z;
  name : string;
  formation : string;
  description : string;
  status : string;
  elgReq : option (list SBCChallengeEligibility.t)
}.
End SBCChallenge.

Module SBCChallengeDetail.
Record t := mk {
  challengeId : Z;
  name : string;
  formation : string;
  teamRating : option Z        (* [number | null] *)
}.
End SBCChallengeDetail.

Module SBCChallengesResponse.
Record t := mk { challenges : option (list SBCChallenge.t) }.
End SBCChallengesResponse.

Definition fetchSBCChallenges (setId : Z) (reply : Outcome SBCChallengesResponse.t)
  : Outcome (list SBCChallenge.t) * list Event :=
  match corsRequest
          (FUT_API_URL +:+ "/sbs/setId/" +:+ JS.toString setId +:+ "/challenges")
          reply with
  | (Resolved response, ev) =>
      (Resolved (default [] (SBCChallengesResponse.challenges response)), ev)
  | (Rejected e, ev) => (Rejected e, ev)
  end.

(** The callback of [challenges.map(...)]. *)
Definition challenge_detail (challenge : SBCChallenge.t) : SBCChallengeDetail.t :=
  let teamRatingReq :=
    SBCChallenge.elgReq challenge
    ≫= List.find (fun req =>
                    String.eqb (SBCChallengeEligibility.type req) "TEAM_RATING_1_TO_100") in
  {| SBCChallengeDetail.challengeId := SBCChallenge.challengeId challenge;
     SBCChallengeDetail.name := SBCChallenge.name challenge;
     SBCChallengeDetail.formation := SBCChallenge.formation challenge;
     SBCChallengeDetail.teamRating :=
       SBCChallengeEligibility.eligibilityValue <$> teamRatingReq |}.

Definition fetchSBCSetChallengeDetails (setId : Z)
    (reply : Outcome SBCChallengesResponse.t)
  : Outcome (list SBCChallengeDetail.t) * list Event :=
  match fetchSBCChallenges setId reply with
  | (Resolved challenges, ev) => (Resolved (map challenge_detail challenges), ev)
  | (Rejected e, ev) => (Rejected e, ev)
  end.

(** Notions used to state the further properties. *)

(** The ids under which a club is registered. *)
Definition registered_under (club : FutGGClub.t) (id : Z) : Prop :=
  FutGGClub.eaId club = id
  ∨ (FutGGClub.siblingClubEaId club = Some id ∧ id ≠ 0).

Global Instance registered_under_dec club id : Decision (registered_under club id).
Proof. unfold registered_under. apply _. Defined.

Definition is_team_rating (req : SBCChallengeEligibility.t) : Prop :=
  SBCChallengeEligibility.type req = "TEAM_RATING_1_TO_100".

(** ** [src/App.tsx]: constants of the filter panel *)

Definition ALL_POSITIONS : list string :=
  ["GK"; "CB"; "LB"; "RB"; "CDM"; "CM"; "CAM"; "LM"; "RM"; "LW"; "RW"; "ST"].

Definition PLAYER_TYPES : list PlayerType := [Transfer; Storage; Duplicated].

(** The initial value of [filters], also set by "Clear filters". *)
Definition initial_filters : FilterState.t :=
  {| FilterState.ratingRange := (47, 99);
     FilterState.positions := [];
     FilterState.nations := [];
     FilterState.leagues := [];
     FilterState.teams := [];
     FilterState.types := [];
     FilterState.multipleCopiesOnly := false |}.

(** Whether the retrying fetch of a source ended in a rejection. *)
Definition source_failed (w : ItemsWorld) (sid : string) (src : Source) : bool :=
  match fetched w sid src with
  | Rejected _ => true
  | Resolved _ => false
  end.

(** The items a source delivered, none when it failed. *)
Definition items_of (w : ItemsWorld) (sid : string) (src : Source) : list PlayerItem.t :=
  match fetched w sid src with
  | Resolved items => items
  | Rejected _ => []
  end.

(** ** [src/App.tsx]: the summary counters *)

Definition uniquePlayersCount (filteredPlayers : list AggregatedPlayer.t) : Z :=
  Z.of_nat (length filteredPlayers).

Definition totalCardsCount (filteredPlayers : list AggregatedPlayer.t) : Z :=
  fold_left (fun sum p => sum + AggregatedPlayer.copies p) filteredPlayers 0.

Definition duplicatesCount (filteredPlayers : list AggregatedPlayer.t) : Z :=
  fold_left (fun sum p => sum + (AggregatedPlayer.copies p - 1))
    (List.filter (fun p => 1 <? AggregatedPlayer.copies p) filteredPlayers) 0.

(** ** [src/App.tsx]: [TypeDistributionChart] and [RatingDistributionChart] *)

(** The [counts] object, one field per category. *)
Module TypeCounts.
Record t := mk { transfer : Z; storage : Z; duplicated : Z }.
End TypeCounts.

(** [counts[type] += n]. *)
Definition add_count (counts : TypeCounts.t) (type : PlayerType) (n : Z) : TypeCounts.t :=
  match type with
  | Transfer =>
      TypeCounts.mk (TypeCounts.transfer counts + n) (TypeCounts.storage counts)
        (TypeCounts.duplicated counts)
  | Storage =>
      TypeCounts.mk (TypeCounts.transfer counts) (TypeCounts.storage counts + n)
        (TypeCounts.duplicated counts)
  | Duplicated =>
      TypeCounts.mk (TypeCounts.transfer counts) (TypeCounts.storage counts)
        (TypeCounts.duplicated counts + n)
  end.

(** [counts[type]]. *)
Definition count_of (counts : TypeCounts.t) (type : PlayerType) : Z :=
  match type with
  | Transfer => TypeCounts.transfer counts
  | Storage => TypeCounts.storage counts
  | Duplicated => TypeCounts.duplicated counts
  end.

(** The two nested [forEach] of the type chart. *)
Definition typeCounts (players : list AggregatedPlayer.t) : TypeCounts.t :=
  fold_left
    (fun counts p =>
       fold_left (fun counts type => add_count counts type (AggregatedPlayer.copies p))
         (AggregatedPlayer.types p) counts)
    players (TypeCounts.mk 0 0 0).

(** The [min] and [max] of the three rating ranges, in the order of the
    source: "87+", "84-86" and the range up to 83. *)
Definition rating_ranges : list (Z * Z) := [(87, 99); (84, 86); (0, 83)].

(** The [count] of every range. *)
Definition ratingCounts (players : list AggregatedPlayer.t) : list Z :=
  map (fun range =>
         Z.of_nat
           (length
              (List.filter
                 (fun p => (fst range <=? AggregatedPlayer.rating p)
                           && (AggregatedPlayer.rating p <=? snd range))
                 players)))
    rating_ranges.

(** [distribution.reduce((sum, r) => sum + r.count, 0)]. *)
Definition counts_total (counts : list Z) : Z :=
  fold_left (fun sum count => sum + count) counts 0.

(** Sums, to state the properties of the counters. *)
Definition Zsum (l : list Z) : Z := fold_right Z.add 0 l.

Definition has_type (type : PlayerType) (p : ProcessedPlayer.t) : bool :=
  bool_decide (ProcessedPlayer.type p = type).

(** The content of the array [filteredPlayers] for a list of records and a
    filter state: the charts, the counters and the statistics read it. *)
Definition displayed (filters : FilterState.t) (players : list ProcessedPlayer.t)
  : list AggregatedPlayer.t :=
  JS.sort by_rating (List.filter (passes filters) (aggregatedPlayers players)).

(** ** [src/App.tsx]: [topStats] *)

Module TopItem.
Record t := mk { name : string; count : Z; imgUrl : option string }.
End TopItem.

(** The objects held by [clubCounts], [nationCounts] and [leagueCounts]. *)
Module CountData.
Record t := mk { count : Z; imgUrl : option string }.
End CountData.

(** The three top lists are built by the same statements, for the team, the
    nation and the league of a player: [name_of] and [img_of] are the two
    fields read. *)
Section TopStats.
Variable name_of : AggregatedPlayer.t → string.
Variable img_of : AggregatedPlayer.t → option string.

(** [const data = counts.get(name) || { count: 0, imgUrl }; data.count += 1;
    counts.set(name, data)]. *)
Definition count_step (counts : list (string * CountData.t))
    (player : AggregatedPlayer.t) : list (string * CountData.t) :=
  let data :=
    default (CountData.mk 0 (img_of player)) (StrMap.get counts (name_of player)) in
  StrMap.set counts (name_of player)
    (CountData.mk (CountData.count data + 1) (CountData.imgUrl data)).

(** [(a, b) => b.count - a.count] is at most zero. *)
Definition sortByCount (a b : TopItem.t) : bool :=
  TopItem.count b - TopItem.count a <=? 0.

Definition top_items (filteredPlayers : list AggregatedPlayer.t) : list TopItem.t :=
  JS.sort sortByCount
    (map (fun entry =>
            TopItem.mk (fst entry) (CountData.count (snd entry))
              (CountData.imgUrl (snd entry)))
       (fold_left count_step filteredPlayers [])).

End TopStats.

Definition topClubs : list AggregatedPlayer.t → list TopItem.t :=
  top_items AggregatedPlayer.team
    (fun player => ProcessedPlayer.teamImg (AggregatedPlayer.player player)).

Definition topNations : list AggregatedPlayer.t → list TopItem.t :=
  top_items AggregatedPlayer.nation
    (fun player => ProcessedPlayer.nationImg (AggregatedPlayer.player player)).

Definition topLeagues : list AggregatedPlayer.t → list TopItem.t :=
  top_items AggregatedPlayer.league
    (fun player => ProcessedPlayer.leagueImg (AggregatedPlayer.player player)).

(** [maxCount={topStats.topClubs[0]?.count || 1}]. *)
Definition maxCount (top : list TopItem.t) : Z :=
  match top with
  | first :: _ => if TopItem.count first =? 0 then 1 else TopItem.count first
  | [] => 1
  end.

(** The players with a given name, in their order. *)
Definition named (name_of : AggregatedPlayer.t → string) (name : string)
    (l : list AggregatedPlayer.t) : list AggregatedPlayer.t :=
  List.filter (fun p => String.eqb (name_of p) name) l.

(** What an entry of a counting map records about the players seen. *)
Definition count_ok (name_of : AggregatedPlayer.t → string)
    (img_of : AggregatedPlayer.t → option string)
    (seen : list AggregatedPlayer.t) (name : string) (count : Z)
    (imgUrl : option string) : Prop :=
  count = Z.of_nat (length (named name_of name seen))
  ∧ ∃ first, head (named name_of name seen) = Some first ∧ imgUrl = img_of first.

(** ** [src/App.tsx]: pagination of [PaginatedTopList] and [SBCList] *)

(** [Array.prototype.slice(start, end)] for two natural indices. *)
Definition slice {A} (l : list A) (start end_ : nat) : list A :=
  firstn (end_ - start) (skipn start l).

(** [Math.ceil(n / pageSize)] for a length [n] and a positive page size. *)
Definition totalPages (n pageSize : nat) : nat :=
  if (n mod pageSize =? 0)%nat then (n / pageSize)%nat else S (n / pageSize).

(** [items.slice(page * pageSize, (page + 1) * pageSize)]: the page size is 5
    in [PaginatedTopList] and 10 in [SBCList]. *)
Definition currentItems {A} (items : list A) (page pageSize : nat) : list A :=
  slice items (page * pageSize) ((page + 1) * pageSize).

(** ** [src/App.tsx]: [filterOptions] *)

Module EntityOption.
Record t := mk { value : string; label : string; imgUrl : option string }.
End EntityOption.

(** [Map.prototype.has]. *)
Definition Map_has {V} (m : list (string * V)) (key : string) : bool :=
  match StrMap.get m key with Some _ => true | None => false end.

(** The three option lists are built by the same statements.  The order of
    the options is decided by [String.prototype.localeCompare], which
    belongs to the platform: it is a parameter here. *)
Section FilterOptions.
Variable localeCompare : string → string → Z.
Variable name_of : AggregatedPlayer.t → string.
Variable img_of : AggregatedPlayer.t → option string.

Definition option_step (m : list (string * EntityOption.t))
    (player : AggregatedPlayer.t) : list (string * EntityOption.t) :=
  if Map_has m (name_of player) then m
  else StrMap.set m (name_of player)
         (EntityOption.mk (name_of player) (name_of player) (img_of player)).

(** [(a, b) => a.label.localeCompare(b.label)] is at most zero. *)
Definition byLabel (a b : EntityOption.t) : bool :=
  localeCompare (EntityOption.label a) (EntityOption.label b) <=? 0.

Definition entity_options (aggregatedPlayers : list AggregatedPlayer.t)
  : list EntityOption.t :=
  JS.sort byLabel (StrMap.values (fold_left option_step aggregatedPlayers [])).

End FilterOptions.

(** ** Measures of a trace *)

Definition total_sleep (ev : list Event) : Z :=
  Zsum (map (fun e => match e with Sleep ms => ms | Fetch _ => 0 end) ev).

Definition requests (ev : list Event) : nat :=
  length (List.filter (fun e => match e with Fetch _ => true | Sleep _ => false end) ev).

Definition nationOptions (localeCompare : string → string → Z)
  : list AggregatedPlayer.t → list EntityOption.t :=
  entity_options localeCompare AggregatedPlayer.nation
    (fun player => ProcessedPlayer.nationImg (AggregatedPlayer.player player)).

Definition leagueOptions (localeCompare : string → string → Z)
  : list AggregatedPlayer.t → list EntityOption.t :=
  entity_options localeCompare AggregatedPlayer.league
    (fun player => ProcessedPlayer.leagueImg (AggregatedPlayer.player player)).

Definition teamOptions (localeCompare : string → string → Z)
  : list AggregatedPlayer.t → list EntityOption.t :=
  entity_options localeCompare AggregatedPlayer.team
    (fun player => ProcessedPlayer.teamImg (AggregatedPlayer.player player)).

(** What an option records about the entries it was built from. *)
Definition option_ok (name_of : AggregatedPlayer.t → string)
    (img_of : AggregatedPlayer.t → option string)
    (seen : list AggregatedPlayer.t) (o : EntityOption.t) : Prop :=
  EntityOption.label o = EntityOption.value o
  ∧ ∃ first, head (named name_of (EntityOption.value o) seen) = Some first
             ∧ EntityOption.imgUrl o = img_of first.
(** * Proofs *)

(** ** Lists *)

Section FirstSeen.
Context {A : Type} `{EqDecision A}.
Implicit Types (l : list A) (x : A).

Lemma first_seen_elem_of l x : x ∈ first_seen l ↔ x ∈ l.
Proof.
  rewrite !list_elem_of_In.
  induction l as [|a l IH]; simpl; [tauto|].
  rewrite filter_In, IH.
  destruct (decide (x = a)) as [->|Hne]; [tauto|].
  rewrite bool_decide_eq_false_2 by done. simpl. intuition congruence.
Qed.

Lemma elem_of_List_filter (f : A → bool) l x :
  x ∈ List.filter f l ↔ x ∈ l ∧ f x = true.
Proof. rewrite !list_elem_of_In. apply filter_In. Qed.

Lemma NoDup_List_filter (f : A → bool) l : NoDup l → NoDup (List.filter f l).
Proof.
  induction 1 as [|a l Hnotin Hnd IH]; simpl; [constructor|].
  destruct (f a); [constructor|]; auto.
  rewrite elem_of_List_filter. tauto.
Qed.

Lemma first_seen_NoDup l : NoDup (first_seen l).
Proof.
  induction l as [|a l IH]; simpl; constructor.
  - rewrite elem_of_List_filter, bool_decide_eq_true_2 by done. simpl.
    intros [_ ?]; done.
  - by apply NoDup_List_filter.
Qed.

Lemma first_seen_snoc l x :
  first_seen (l ++ [x]) = if decide (x ∈ l) then first_seen l else first_seen l ++ [x].
Proof.
  induction l as [|a l IH]; simpl.
  - done.
  - rewrite IH. destruct (decide (x ∈ l)) as [Hin|Hnin].
    + rewrite decide_True; [done|]. by right.
    + rewrite List.filter_app. simpl.
      destruct (decide (x = a)) as [->|Hne].
      * rewrite bool_decide_eq_true_2 by done. simpl. rewrite app_nil_r.
        rewrite decide_True; [done|]. by left.
      * rewrite bool_decide_eq_false_2 by done. simpl.
        rewrite decide_False; [done|]. rewrite elem_of_cons. tauto.
Qed.

End FirstSeen.

(** Every list without repetition over the three categories is short. *)
Lemma PlayerType_NoDup_length (l : list PlayerType) : NoDup l → (length l ≤ 3)%nat.
Proof.
  intros Hnd. apply NoDup_ListNoDup in Hnd.
  apply (NoDup_incl_length (l' := [Transfer; Storage; Duplicated]) Hnd).
  intros [] _; simpl; tauto.
Qed.

(** ** Decimal rendering of numbers and the aggregation key *)

Lemma pretty_N_char_digit (x : N) : is_Some (JS.digit_of (pretty_N_char x)).
Proof. unfold pretty_N_char. repeat case_match; vm_compute; eauto. Qed.

Lemma pretty_N_go_digits (x : N) (s : string) :
  all_digits s → all_digits (pretty_N_go x s).
Proof.
  revert s. induction (N.lt_wf_0 x) as [x _ IH]; intros s Hs.
  destruct (decide (x = 0%N)) as [->|Hx]; [by rewrite pretty_N_go_0|].
  rewrite pretty_N_go_step by lia. apply IH.
  - apply N.div_lt; lia.
  - split; [apply pretty_N_char_digit|done].
Qed.

Lemma pretty_N_go_nonempty (x : N) (s : string) :
  s ≠ "" → pretty_N_go x s ≠ "".
Proof.
  revert s. induction (N.lt_wf_0 x) as [x _ IH]; intros s Hs.
  destruct (decide (x = 0%N)) as [->|Hx]; [by rewrite pretty_N_go_0|].
  rewrite pretty_N_go_step by lia. apply IH; [apply N.div_lt; lia|done].
Qed.

Lemma pretty_pos_digits (p : positive) :
  all_digits (pretty (N.pos p)) ∧ pretty (N.pos p) ≠ "".
Proof.
  unfold pretty, pretty_N. rewrite decide_False by done. split.
  - by apply pretty_N_go_digits.
  - rewrite pretty_N_go_step by lia. by apply pretty_N_go_nonempty.
Qed.

(** A rendered integer is a non-empty run of digits after an optional
    minus sign. *)
Lemma toString_shape (n : Z) :
  ∃ digits, all_digits digits ∧ digits ≠ ""
    ∧ (JS.toString n = digits ∨ JS.toString n = String "-" digits).
Proof.
  unfold JS.toString, pretty, pretty_Z. destruct n as [|p|p].
  - exists "0". repeat split; [vm_compute; eauto|done|by left].
  - exists (pretty (N.pos p)). destruct (pretty_pos_digits p). auto.
  - exists (pretty (N.pos p)). destruct (pretty_pos_digits p). auto.
Qed.

Lemma digits_dash_inj (d1 d2 r1 r2 : string) :
  all_digits d1 → all_digits d2 →
  d1 +:+ String "-" r1 = d2 +:+ String "-" r2 → d1 = d2 ∧ r1 = r2.
Proof.
  revert d2. induction d1 as [|c d1 IH]; intros [|c' d2]; simpl.
  - intros _ _ [= ->]; done.
  - intros _ [[? Hc] _] [= <- _]. vm_compute in Hc. done.
  - intros [[? Hc] _] _ [= -> _]. vm_compute in Hc. done.
  - intros [_ H1] [_ H2] [= -> Heq]. destruct (IH _ H1 H2 Heq) as [-> ->]; done.
Qed.

Lemma signed_dash_inj (a b a' b' : Z) :
  JS.toString a +:+ "-" +:+ JS.toString b
  = JS.toString a' +:+ "-" +:+ JS.toString b' →
  a = a' ∧ b = b'.
Proof.
  intros Heq.
  destruct (toString_shape a) as (d & Hd & Hne & Ha).
  destruct (toString_shape a') as (d' & Hd' & Hne' & Ha').
  assert (JS.toString a = JS.toString a' ∧ JS.toString b = JS.toString b')
    as [Hx Hy].
  { destruct d as [|c d]; [done|]. destruct d' as [|c' d']; [done|].
    assert (c ≠ "-"%char) as Hc.
    { intros ->. destruct Hd as [[? Hc] _]. vm_compute in Hc. done. }
    assert (c' ≠ "-"%char) as Hc'.
    { intros ->. destruct Hd' as [[? Hc'] _]. vm_compute in Hc'. done. }
    destruct Ha as [Ha|Ha], Ha' as [Ha'|Ha']; rewrite Ha, Ha' in Heq |- *;
      simpl in Heq.
    - destruct (digits_dash_inj (String c d) (String c' d') _ _ Hd Hd' Heq)
        as [-> ?]; done.
    - injection Heq as -> _. done.
    - injection Heq as <- _. done.
    - injection Heq as -> Heq.
      destruct (digits_dash_inj d d' _ _ (proj2 Hd) (proj2 Hd') Heq)
        as [-> ?]; done. }
  split; eapply (inj pretty); done.
Qed.

(** Two records have the same map key exactly when they have the same asset
    id and the same rating. *)
Lemma key_of_inj (p q : ProcessedPlayer.t) :
  key_of p = key_of q ↔ identity p = identity q.
Proof.
  unfold key_of, identity. split.
  - intros H. apply signed_dash_inj in H as [-> ->]. done.
  - intros [= -> ->]. done.
Qed.

(** ** The aggregator *)

Section StrMapFacts.
Context {V : Type}.
Implicit Types (m : list (string * V)) (k : string) (v : V).

Lemma StrMap_get_None m k : k ∉ map fst m → StrMap.get m k = None.
Proof.
  induction m as [|[k' v'] m IH]; simpl; [done|].
  rewrite not_elem_of_cons. intros [Hne Hnotin].
  destruct (String.eqb_spec k' k) as [->|_]; [done|]. by apply IH.
Qed.

Lemma StrMap_get_is_Some m k : k ∈ map fst m → is_Some (StrMap.get m k).
Proof.
  induction m as [|[k' v'] m IH]; simpl.
  - intros H. by apply elem_of_nil in H.
  - rewrite elem_of_cons. intros [->|Hin].
    + rewrite String.eqb_refl. eauto.
    + destruct (String.eqb k' k); eauto.
Qed.

Lemma StrMap_set_fresh m k v : k ∉ map fst m → StrMap.set m k v = m ++ [(k, v)].
Proof.
  induction m as [|[k' v'] m IH]; simpl; [done|].
  rewrite not_elem_of_cons. intros [Hne Hnotin].
  destruct (String.eqb_spec k' k) as [->|_]; [done|]. by rewrite IH.
Qed.

Lemma StrMap_update_NoDup m k (f : V → V) :
  NoDup (map fst m) →
  StrMap.update m k f
  = map (fun kv => if String.eqb (fst kv) k then (fst kv, f (snd kv)) else kv) m.
Proof.
  induction m as [|[k' v'] m IH]; simpl; [done|].
  rewrite NoDup_cons. intros [Hnotin Hnd].
  destruct (String.eqb_spec k' k) as [->|Hne]; [|by rewrite IH].
  f_equal. clear IH Hnd. induction m as [|[k'' v''] m IH]; simpl; [done|].
  simpl in Hnotin. apply not_elem_of_cons in Hnotin as [Hne Hnotin].
  destruct (String.eqb_spec k'' k) as [->|_]; [done|]. by rewrite <- IH.
Qed.

End StrMapFacts.

Lemma keys_ids (m : list (string * AggregatedPlayer.t)) (p : ProcessedPlayer.t) :
  Forall (fun kv => fst kv = key_of (AggregatedPlayer.player (snd kv))) m →
  key_of p ∈ map fst m ↔ identity p ∈ ids m.
Proof.
  intros Hk. unfold ids. rewrite !list_elem_of_In, !in_map_iff.
  rewrite Forall_forall in Hk. split.
  - intros ([k e] & Hfst & Hin). exists (k, e). split; [|done].
    apply list_elem_of_In, Hk in Hin. simpl in *. subst k.
    symmetry. by apply key_of_inj.
  - intros ([k e] & Hid & Hin). exists (k, e). split; [|done].
    apply list_elem_of_In, Hk in Hin. simpl in *. subst k.
    symmetry. by apply key_of_inj.
Qed.

Lemma NoDup_keys (m : list (string * AggregatedPlayer.t)) :
  Forall (fun kv => fst kv = key_of (AggregatedPlayer.player (snd kv))) m →
  NoDup (ids m) → NoDup (map fst m).
Proof.
  induction 1 as [|[k e] m Hk Hks IH]; simpl; [constructor|].
  rewrite !NoDup_cons. intros [Hnotin Hnd]. split; [|auto].
  simpl in Hk. subst k. by rewrite keys_ids.
Qed.

Lemma filter_same_snoc (i : Z * Z) (seen : list ProcessedPlayer.t) (p : ProcessedPlayer.t) :
  List.filter (same_identity i) (seen ++ [p])
  = List.filter (same_identity i) seen ++ (if decide (identity p = i) then [p] else []).
Proof.
  rewrite List.filter_app. simpl. unfold same_identity at 2.
  destruct (decide (identity p = i)).
  - by rewrite bool_decide_eq_true_2.
  - by rewrite bool_decide_eq_false_2.
Qed.

Lemma filter_same_nil (i : Z * Z) (seen : list ProcessedPlayer.t) :
  i ∉ map identity seen → List.filter (same_identity i) seen = [].
Proof.
  induction seen as [|q seen IH]; simpl; [done|].
  rewrite not_elem_of_cons. intros [Hne Hnotin].
  unfold same_identity at 1. rewrite bool_decide_eq_false_2 by congruence. auto.
Qed.

Lemma entry_ok_other seen p e :
  identity p ≠ identity (AggregatedPlayer.player e) →
  entry_ok seen e → entry_ok (seen ++ [p]) e.
Proof.
  unfold entry_ok. intros Hne H. rewrite filter_same_snoc.
  rewrite decide_False by done. by rewrite app_nil_r.
Qed.

Lemma entry_ok_add_copy seen p e :
  identity p = identity (AggregatedPlayer.player e) →
  entry_ok seen e → entry_ok (seen ++ [p]) (add_copy (ProcessedPlayer.type p) e).
Proof.
  unfold entry_ok. simpl. intros Hid (Hhd & Hcopies & Htypes).
  rewrite filter_same_snoc, decide_True by done.
  set (same := List.filter _ seen) in *. repeat split.
  - destruct same; [done|]. done.
  - rewrite Hcopies, length_app. simpl. lia.
  - rewrite map_app. simpl. rewrite first_seen_snoc, Htypes.
    unfold includes_type.
    destruct (decide (ProcessedPlayer.type p ∈ map ProcessedPlayer.type same)) as [Hin|Hnotin].
    + rewrite bool_decide_eq_true_2; [done|]. by apply first_seen_elem_of.
    + rewrite bool_decide_eq_false_2; [done|]. by rewrite first_seen_elem_of.
Qed.

Lemma entry_ok_new seen p :
  identity p ∉ map identity seen →
  entry_ok (seen ++ [p]) (AggregatedPlayer.mk p 1 [ProcessedPlayer.type p]).
Proof.
  unfold entry_ok. simpl. intros Hnotin.
  rewrite filter_same_snoc, decide_True by done.
  rewrite filter_same_nil by done. done.
Qed.

Lemma aggregate_step_inv seen m p :
  aggregate_inv seen m → aggregate_inv (seen ++ [p]) (aggregate_step m p).
Proof.
  intros (Hids & Hkeys & Hok). unfold aggregate_step.
  assert (NoDup (ids m)) as Hnd by (rewrite Hids; apply first_seen_NoDup).
  destruct (decide (identity p ∈ ids m)) as [Hin|Hnotin].
  - (* the key is already in the map *)
    destruct (StrMap_get_is_Some m (key_of p)) as [e ->]; [by apply keys_ids|].
    rewrite StrMap_update_NoDup by by apply NoDup_keys.
    assert (identity p ∈ map identity seen) as Hseen
      by (by rewrite <- (first_seen_elem_of (map identity seen)), <- Hids).
    split; [|split].
    + rewrite map_app. simpl. rewrite first_seen_snoc, decide_True by done.
      rewrite <- Hids. unfold ids. rewrite map_map. apply map_ext.
      intros [k e']; simpl. by destruct (String.eqb k (key_of p)).
    + rewrite Forall_map. eapply Forall_impl; [exact Hkeys|].
      intros [k e']; simpl. by destruct (String.eqb k (key_of p)).
    + rewrite Forall_map.
      rewrite Forall_forall in Hkeys, Hok |- *. intros [k e'] Hin'.
      specialize (Hkeys _ Hin'). specialize (Hok _ Hin'). simpl in *. subst k.
      destruct (String.eqb_spec (key_of (AggregatedPlayer.player e')) (key_of p))
        as [Heq|Hne]; simpl.
      * apply entry_ok_add_copy; [|done]. symmetry. by apply key_of_inj.
      * apply entry_ok_other; [|done]. intros Heq. apply Hne.
        symmetry. by apply key_of_inj.
  - (* a new key *)
    rewrite StrMap_get_None by (by rewrite keys_ids).
    rewrite StrMap_set_fresh by (by rewrite keys_ids).
    assert (identity p ∉ map identity seen) as Hseen
      by (by rewrite <- (first_seen_elem_of (map identity seen)), <- Hids).
    split; [|split].
    + unfold ids. rewrite !map_app. simpl.
      rewrite first_seen_snoc, decide_False by done. by rewrite <- Hids.
    + apply Forall_app. split; [done|]. by constructor.
    + apply Forall_app. split.
      * rewrite Forall_forall in Hok |- *. intros [k e'] Hin'.
        specialize (Hok _ Hin'). simpl in *.
        apply entry_ok_other; [|done]. intros Heq. apply Hnotin.
        unfold ids. rewrite Heq.
        apply list_elem_of_In, in_map_iff. exists (k, e'). split; [done|].
        by apply list_elem_of_In.
      * constructor; [|done]. by apply entry_ok_new.
Qed.

Lemma aggregate_fold_inv (players : list ProcessedPlayer.t) :
  aggregate_inv players (fold_left aggregate_step players []).
Proof.
  induction players as [|p players IH] using rev_ind.
  - repeat split; constructor.
  - rewrite fold_left_app. simpl. by apply aggregate_step_inv.
Qed.

Lemma NoDup_count_one {A} `{EqDecision A} (l : list A) (x : A) :
  NoDup l → x ∈ l → length (List.filter (fun y => bool_decide (y = x)) l) = 1%nat.
Proof.
  induction 1 as [|a l Hnotin Hnd IH]; intros Hin.
  - by apply elem_of_nil in Hin.
  - simpl. destruct (decide (a = x)) as [->|Hne].
    + rewrite bool_decide_eq_true_2 by done. simpl. f_equal.
      apply length_zero_iff_nil. clear -Hnotin.
      induction l as [|b l IH]; simpl; [done|].
      apply not_elem_of_cons in Hnotin as [Hne Hnotin].
      rewrite bool_decide_eq_false_2 by congruence. auto.
    + rewrite bool_decide_eq_false_2 by done. apply IH.
      apply elem_of_cons in Hin as [->|]; done.
Qed.

(** C1.  Aggregation yields exactly one entry per distinct (asset id, rating)
    pair, in first-seen order of the pairs; the entry's [copies] is the
    number of input records with its pair, its [types] lists the categories
    of those records once each in order of first appearance (hence at most
    three), and its inherited fields are those of the first such record. *)
Theorem aggregatedPlayers_one_entry_per_key (players : list ProcessedPlayer.t) :
  let out := aggregatedPlayers players in
  let id_of := fun e => identity (AggregatedPlayer.player e) in
  map id_of out = first_seen (map identity players)
  ∧ NoDup (map id_of out)
  ∧ (∀ p, p ∈ players →
       length (List.filter (fun e => bool_decide (id_of e = identity p)) out) = 1%nat)
  ∧ Forall
      (fun e =>
         let same := List.filter (same_identity (id_of e)) players in
         AggregatedPlayer.copies e = Z.of_nat (length same)
         ∧ AggregatedPlayer.types e = first_seen (map ProcessedPlayer.type same)
         ∧ NoDup (AggregatedPlayer.types e)
         ∧ (length (AggregatedPlayer.types e) ≤ 3)%nat
         ∧ head same = Some (AggregatedPlayer.player e))
      out.
Proof.
  intros out id_of.
  destruct (aggregate_fold_inv players) as (Hids & _ & Hok).
  assert (map id_of out = first_seen (map identity players)) as Hout.
  { rewrite <- Hids. unfold out, aggregatedPlayers, StrMap.values, ids.
    by rewrite map_map. }
  assert (NoDup (map id_of out)) as Hnd by (rewrite Hout; apply first_seen_NoDup).
  split; [done|]. split; [done|]. split.
  - intros p Hp.
    assert (identity p ∈ map id_of out) as Hin.
    { rewrite Hout, first_seen_elem_of.
      apply list_elem_of_In, in_map. by apply list_elem_of_In. }
    pose proof (NoDup_count_one _ _ Hnd Hin) as Hone.
    rewrite <- Hone. clear. induction out as [|e out IH]; simpl; [done|].
    destruct (bool_decide (id_of e = identity p)); simpl; by rewrite IH.
  - unfold out, aggregatedPlayers, StrMap.values. rewrite Forall_map.
    eapply Forall_impl; [exact Hok|].
    intros [k e] (Hhd & Hcopies & Htypes). simpl in *.
    assert (NoDup (AggregatedPlayer.types e)) as Hndt
      by (rewrite Htypes; apply first_seen_NoDup).
    repeat split; try done. by apply PlayerType_NoDup_length.
Qed.

(** ** Sorting *)

Section SortFacts.
Context {A : Type} (le0 : A → A → bool).
Implicit Types (l : list A) (x : A).

Lemma insert_sorted_perm x l : Permutation (JS.insert_sorted le0 x l) (x :: l).
Proof.
  induction l as [|y l IH]; simpl; [done|].
  destruct (le0 x y); [done|].
  rewrite IH. apply perm_swap.
Qed.

Lemma sort_perm l : Permutation (JS.sort le0 l) l.
Proof.
  induction l as [|x l IH]; simpl; [done|].
  rewrite insert_sorted_perm. by constructor.
Qed.

(** The comparator orders by a key, larger keys first. *)
Context (key : A → Z).
Hypothesis le0_key : ∀ a b, le0 a b = (key b <=? key a).

Let desc := StronglySorted (fun a b => key b ≤ key a).
Let keyed (r : Z) := List.filter (fun a => key a =? r).

Lemma insert_sorted_desc x l : desc l → desc (JS.insert_sorted le0 x l).
Proof.
  induction 1 as [|y l Hl IH Hy]; simpl.
  - repeat constructor.
  - rewrite le0_key. destruct (Z.leb_spec (key y) (key x)) as [Hle|Hlt].
    + constructor; [by constructor|]. constructor; [done|].
      eapply Forall_impl; [exact Hy|]. simpl. lia.
    + constructor; [done|].
      eapply Permutation_Forall; [symmetry; apply insert_sorted_perm|].
      constructor; [lia|done].
Qed.

Lemma sort_desc l : desc (JS.sort le0 l).
Proof.
  induction l as [|x l IH]; simpl; [constructor|]. by apply insert_sorted_desc.
Qed.

Lemma insert_sorted_stable r x l :
  keyed r (JS.insert_sorted le0 x l) = keyed r (x :: l).
Proof.
  induction l as [|y l IH]; simpl; [done|].
  rewrite le0_key. destruct (Z.leb_spec (key y) (key x)) as [Hle|Hlt]; [done|].
  simpl. fold (keyed r). rewrite IH. simpl.
  destruct (Z.eqb_spec (key y) r), (Z.eqb_spec (key x) r); try done. lia.
Qed.

Lemma sort_stable r l : keyed r (JS.sort le0 l) = keyed r l.
Proof.
  induction l as [|x l IH]; simpl; [done|].
  rewrite insert_sorted_stable. simpl. fold (keyed r). by rewrite IH.
Qed.

(** A descending list is determined by, for each key, the list of its
    elements with that key: the stable sort of a list is unique. *)
Lemma desc_stable_unique l1 l2 :
  desc l1 → desc l2 → (∀ r, keyed r l1 = keyed r l2) → l1 = l2.
Proof.
  intros H1. revert l2. induction H1 as [|x l1 Hl1 IH Hx]; intros l2 H2 Heq.
  - destruct l2 as [|y l2]; [done|].
    specialize (Heq (key y)). simpl in Heq. by rewrite Z.eqb_refl in Heq.
  - destruct H2 as [|y l2 Hl2 Hy].
    { specialize (Heq (key x)). simpl in Heq. by rewrite Z.eqb_refl in Heq. }
    assert (key x = key y) as Hk.
    { apply Z.le_antisymm.
      - pose proof (Heq (key x)) as H. simpl in H. rewrite Z.eqb_refl in H.
        destruct (Z.eqb_spec (key y) (key x)) as [->|Hne]; [done|].
        assert (In x (keyed (key x) l2)) as Hin by (rewrite <- H; by left).
        apply filter_In in Hin as [Hin _].
        rewrite Forall_forall in Hy. apply Hy. by apply list_elem_of_In.
      - pose proof (Heq (key y)) as H. simpl in H. rewrite Z.eqb_refl in H.
        destruct (Z.eqb_spec (key x) (key y)) as [->|Hne]; [done|].
        assert (In y (keyed (key y) l1)) as Hin by (rewrite H; by left).
        apply filter_In in Hin as [Hin _].
        rewrite Forall_forall in Hx. apply Hx. by apply list_elem_of_In. }
    assert (x = y) as ->.
    { specialize (Heq (key x)). simpl in Heq.
      rewrite <- Hk, Z.eqb_refl in Heq. congruence. }
    f_equal. apply IH; [done|]. intros r. specialize (Heq r). simpl in Heq.
    destruct (key y =? r); congruence.
Qed.

End SortFacts.

(** ** The filter *)

Lemma includes_elem_of (l : list string) (x : string) :
  JS.includes l x = true ↔ x ∈ l.
Proof.
  unfold JS.includes. rewrite existsb_exists, list_elem_of_In. split.
  - intros (y & Hin & Heq). apply String.eqb_eq in Heq. by subst.
  - intros Hin. exists x. by rewrite String.eqb_refl.
Qed.

Lemma nonempty_length {A} (l : list A) : (0 <? length l)%nat = false ↔ l = [].
Proof. destruct l; simpl; split; done. Qed.

Lemma guard_false {A} (l : list A) (b : bool) :
  (0 <? length l)%nat && negb b = false ↔ l = [] ∨ b = true.
Proof.
  rewrite andb_false_iff, nonempty_length, negb_false_iff. tauto.
Qed.

Lemma some_position (allowed : list string) (position : string) :
  existsb (fun pos => JS.includes (JS.split " / " position) pos) allowed = true
  ↔ ∃ pos, pos ∈ JS.split " / " position ∧ pos ∈ allowed.
Proof.
  rewrite existsb_exists. split.
  - intros (pos & Hin & Hinc). exists pos.
    by rewrite <- includes_elem_of, list_elem_of_In.
  - intros (pos & Hsplit & Hin). exists pos.
    by rewrite <- list_elem_of_In, includes_elem_of.
Qed.

Lemma some_type (allowed : list PlayerType) (types : list PlayerType) :
  existsb (includes_type allowed) types = true
  ↔ ∃ t, t ∈ types ∧ t ∈ allowed.
Proof.
  rewrite existsb_exists. unfold includes_type. split.
  - intros (t & Hin & Hdec). exists t.
    apply bool_decide_eq_true in Hdec. by rewrite list_elem_of_In.
  - intros (t & Hin & Hall). exists t.
    by rewrite <- list_elem_of_In, bool_decide_eq_true.
Qed.

(** The callback accepts exactly the entries that satisfy the conjunction. *)
Lemma passes_Passes (filters : FilterState.t) (e : AggregatedPlayer.t) :
  passes filters e = true ↔ Passes filters e.
Proof.
  unfold passes, Passes.
  rewrite <- some_position, <- some_type, <- !includes_elem_of.
  rewrite <- !guard_false.
  destruct (_ || _) eqn:Hrange.
  { split; [done|]. intros [[Hlo Hhi] _].
    apply orb_true_iff in Hrange as [Hr|Hr]; apply Z.ltb_lt in Hr; lia. }
  apply orb_false_iff in Hrange as [Hlo Hhi].
  apply Z.ltb_ge in Hlo, Hhi.
  repeat match goal with
         | |- context [if ?c then false else _] =>
             let H := fresh "H" in destruct c eqn:H
         end; try (split; [done|]; intros (_ & ? & ? & ? & ? & ? & ?); congruence).
  - split; [done|]. intros (_ & _ & _ & _ & _ & _ & Hc).
    apply andb_true_iff in H4 as [Hm Hlt]. apply Z.ltb_lt in Hlt.
    specialize (Hc Hm). lia.
  - split; [intros _|done]. repeat split; try done.
    intros Hm. rewrite Hm in H4. simpl in H4. by apply Z.ltb_ge in H4.
Qed.

Lemma by_rating_key (a b : AggregatedPlayer.t) :
  by_rating a b = (AggregatedPlayer.rating b <=? AggregatedPlayer.rating a).
Proof.
  unfold by_rating.
  destruct (Z.leb_spec (AggregatedPlayer.rating b - AggregatedPlayer.rating a) 0),
    (Z.leb_spec (AggregatedPlayer.rating b) (AggregatedPlayer.rating a)); lia.
Qed.

Lemma filter_all {A} (f : A → bool) (l : list A) :
  Forall (fun x => f x = true) l → List.filter f l = l.
Proof. induction 1 as [|x l Hx _ IH]; simpl; [done|]. by rewrite Hx, IH. Qed.

Lemma filteredPlayers_eq (filters : FilterState.t) (a : nat) (σ : Store) :
  filteredPlayers filters a σ
  = (length σ,
     σ ++ [JS.sort by_rating (List.filter (passes filters) (default [] (σ !! a)))]).
Proof.
  unfold filteredPlayers, Array_filter, Array_sort. f_equal.
  rewrite lookup_app_r, Nat.sub_diag by done. simpl.
  replace (length σ) with (length σ + 0)%nat at 1 by lia.
  by rewrite insert_app_r.
Qed.

(** C3.  The filter keeps exactly the entries that satisfy the conjunction of
    the criteria, returns them in a new array sorted by descending rating
    with the relative order of equal ratings kept, and leaves the input
    array (and every other array of the store) as it was; without criteria
    and with every rating in range the result is the stable descending sort
    of the input. *)
Theorem filteredPlayers_conjunction_sorted (filters : FilterState.t)
    (σ σ' : Store) (a r : nat) (input : list AggregatedPlayer.t) :
  σ !! a = Some input →
  filteredPlayers filters a σ = (r, σ') →
  ∃ out,
    σ' !! r = Some out
    ∧ r ≠ a ∧ σ' !! a = Some input ∧ (∀ b, (b < length σ)%nat → σ' !! b = σ !! b)
    ∧ (∀ e, passes filters e = true ↔ Passes filters e)
    ∧ Permutation out (List.filter (passes filters) input)
    ∧ (∀ e, e ∈ out ↔ e ∈ input ∧ Passes filters e)
    ∧ descending out
    ∧ (∀ q, rated q out = rated q (List.filter (passes filters) input))
    ∧ (no_criteria filters → Forall (in_range filters) input →
       Permutation out input
       ∧ (∀ q, rated q out = rated q input)
       ∧ ∀ l, descending l → (∀ q, rated q l = rated q input) → l = out).
Proof.
  intros Ha. rewrite filteredPlayers_eq, Ha. simpl. intros [= <- <-].
  pose proof (lookup_lt_Some _ _ _ Ha) as Hlt.
  set (kept := List.filter (passes filters) input).
  exists (JS.sort by_rating kept).
  split; [by rewrite lookup_app_r, Nat.sub_diag|].
  split; [lia|].
  split; [by rewrite lookup_app_l|].
  split; [intros b Hb; by rewrite lookup_app_l|].
  split; [apply passes_Passes|].
  split; [apply sort_perm|].
  split.
  { intros e. rewrite (sort_perm by_rating kept).
    unfold kept. by rewrite elem_of_List_filter, passes_Passes. }
  split; [apply (sort_desc _ _ by_rating_key)|].
  split; [intros q; apply (sort_stable _ _ by_rating_key)|].
  intros (Hpos & Hnat & Hlea & Htea & Htyp & Hmul) Hrange.
  assert (kept = input) as ->.
  { apply filter_all. eapply Forall_impl; [exact Hrange|].
    intros e [Hlo Hhi]. apply passes_Passes.
    split; [done|]. rewrite Hpos, Hnat, Hlea, Htea, Htyp, Hmul.
    repeat split; auto. done. }
  split; [apply sort_perm|].
  split; [intros q; apply (sort_stable _ _ by_rating_key)|].
  intros l Hdesc Hst.
  apply (desc_stable_unique AggregatedPlayer.rating); [done| |].
  - apply (sort_desc _ _ by_rating_key).
  - intros q. fold (rated q l). rewrite Hst. symmetry.
    apply (sort_stable _ _ by_rating_key).
Qed.

Lemma filteredPlayers_conjunction_sorted_witness :
  ∃ out,
    snd (filteredPlayers sample_filters 0 [aggregatedPlayers sample_players]) !! 1%nat
    = Some out
    ∧ descending out.
Proof.
  destruct (filteredPlayers_conjunction_sorted sample_filters
              [aggregatedPlayers sample_players]
              (snd (filteredPlayers sample_filters 0 [aggregatedPlayers sample_players]))
              0 1 (aggregatedPlayers sample_players) eq_refl eq_refl)
    as (out & Hout & _ & _ & _ & _ & _ & _ & Hdesc & _).
  exists out. split; [exact Hout|exact Hdesc].
Defined.

Example aggregate_sample :
  map (fun e => (AggregatedPlayer.assetId e, AggregatedPlayer.rating e,
                 AggregatedPlayer.copies e, AggregatedPlayer.types e))
    (aggregatedPlayers sample_players)
  = [ (101, 84, 3, [Transfer; Duplicated]);
      (202, 90, 1, [Storage]);
      (101, 86, 1, [Storage]);
      (303, 90, 1, [Duplicated]) ].
Proof. vm_compute. reflexivity. Qed.

Example filter_sample :
  map (fun e => (AggregatedPlayer.assetId e, AggregatedPlayer.rating e))
    (default [] (snd (filteredPlayers sample_filters 0
                        [aggregatedPlayers sample_players]) !! 1%nat))
  = [ (202, 90); (101, 86); (101, 84) ].
Proof. vm_compute. reflexivity. Qed.

(** ** The SBC ranking pipeline *)

Lemma incomplete_sets_filter (allSets : list SBCSet.t) :
  incomplete_sets allSets
  = map with_remaining (List.filter (fun set => negb (skipped set)) allSets).
Proof.
  unfold incomplete_sets.
  enough (∀ acc,
    fold_left
      (fun sets set => if skipped set then sets else sets ++ [with_remaining set])
      allSets acc
    = acc ++ map with_remaining (List.filter (fun set => negb (skipped set)) allSets))
    as H by apply (H []).
  induction allSets as [|set allSets IH]; intros acc; simpl.
  - by rewrite app_nil_r.
  - rewrite IH. destruct (skipped set); simpl; [done|]. by rewrite <- app_assoc.
Qed.

Lemma skipped_fully_completed (set : SBCSet.t) :
  skipped set = true ↔ fully_completed set.
Proof.
  unfold skipped, fully_completed, challengesRemaining.
  destruct (SBCSet.repeatable set).
  - rewrite andb_true_iff, Z.leb_le, Z.eqb_eq. intuition congruence.
  - rewrite Z.eqb_eq. intuition congruence.
Qed.

Lemma Z_or_zero_id (n : Z) : Z_or_zero n = n.
Proof. unfold Z_or_zero. destruct (Z.eqb_spec n 0); congruence. Qed.

Lemma cache_fresh_Some now cache data :
  cache_fresh now cache = Some data ↔
  ∃ c, cache = Some c ∧ SBCCache.data c = data
       ∧ now - SBCCache.timestamp c < SBC_CACHE_DURATION.
Proof.
  unfold cache_fresh. destruct cache as [c|].
  - destruct (Z.ltb_spec (now - SBCCache.timestamp c) SBC_CACHE_DURATION).
    + split; [intros [= <-]; eauto|]. intros (c' & [= <-] & <- & _). done.
    + split; [done|]. intros (c' & [= <-] & _ & ?). lia.
  - split; [done|]. intros (c' & ? & _). done.
Qed.

(** A call that finds a fresh cache entry: no request, the stored array, the
    state untouched. *)
Lemma fetchAllSBCsWithDetails_hit w sid st c :
  sbcCache st = Some c →
  now_at_check w - SBCCache.timestamp c < SBC_CACHE_DURATION →
  fetchAllSBCsWithDetails w sid st = (Resolved (SBCCache.data c), st, []).
Proof.
  intros Hc Hnow. unfold fetchAllSBCsWithDetails.
  replace (cache_fresh (now_at_check w) (sbcCache st)) with (Some (SBCCache.data c));
    [done|].
  symmetry. apply cache_fresh_Some. eauto.
Qed.

(** A call that finds no fresh entry and receives the catalogue. *)
Lemma fetchAllSBCsWithDetails_miss w sid st allSets :
  cache_fresh (now_at_check w) (sbcCache st) = None →
  fst (fetchSBCSets (sbs_sets w sid)) = Resolved allSets →
  let sets := incomplete_sets allSets in
  let result := JS.sort by_rankScore (map (details (votes_for w sets)) sets) in
  ∃ ev,
    fetchAllSBCsWithDetails w sid st
    = (if decide (sets = []) then (Resolved [], st, sets_request :: ev)
       else (Resolved result,
             mkState (cachedData st) (staticDataPromise st)
               (Some (SBCCache.mk result (now_at_store w))),
             sets_request :: ev)).
Proof.
  intros Hmiss Hsets sets result. unfold fetchAllSBCsWithDetails. rewrite Hmiss.
  unfold fetchSBCSets, corsRequest in *.
  destruct (sbs_sets w sid) as [response|e]; simpl in Hsets; [|done].
  injection Hsets as Hsets. rewrite Hsets. fold sets.
  destruct (decide (sets = [])) as [Hs|Hne].
  - rewrite Hs. exists []. done.
  - replace ((length sets =? 0)%nat) with false by (by destruct sets).
    unfold result, votes_for.
    destruct (fetchSBCVotes _ _) as [votes ev']. simpl.
    exists ev'. done.
Qed.

(** C5.  On a call that computes, a fetched set is dropped exactly when it is
    repeatable with its repeat budget used up and no challenge left, or not
    repeatable with no challenge left; the sets that survive are reported
    with the number of challenges that remain as their challenge count.  The
    set with timesCompleted = repeats = 2 and 5 of 5 challenges done is
    dropped, the same set with timesCompleted = 1 is kept. *)
Theorem completed_sets_excluded (w : SBCWorld) (sid : string) (st : ModuleState)
    (allSets : list SBCSet.t) :
  cache_fresh (now_at_check w) (sbcCache st) = None →
  fst (fetchSBCSets (sbs_sets w sid)) = Resolved allSets →
  ∃ result st' ev,
    fetchAllSBCsWithDetails w sid st = (Resolved result, st', ev)
    ∧ Permutation
        (map (fun d => (SBCWithDetails.setId d, SBCWithDetails.name d,
                        SBCWithDetails.challengesCount d)) result)
        (map (fun set => (SBCSet.setId set, SBCSet.name set,
                          SBCSet.challengesCount set
                          - SBCSet.challengesCompletedCount set))
           (List.filter (fun set => negb (skipped set)) allSets))
    ∧ (∀ set, skipped set = true ↔ fully_completed set)
    ∧ incomplete_sets allSets
      = map with_remaining (List.filter (fun set => negb (skipped set)) allSets)
    ∧ (∀ set, SBCSet.repeatable set = true → SBCSet.repeats set = 2 →
              SBCSet.challengesCount set = 5 →
              SBCSet.challengesCompletedCount set = 5 →
              (SBCSet.timesCompleted set = 2 → skipped set = true)
              ∧ (SBCSet.timesCompleted set = 1 → skipped set = false)).
Proof.
  intros Hmiss Hsets.
  destruct (fetchAllSBCsWithDetails_miss w sid st allSets Hmiss Hsets) as [ev Hcall].
  simpl in Hcall. pose proof (incomplete_sets_filter allSets) as Hflt.
  assert (∀ votes sets,
    map (fun d => (SBCWithDetails.setId d, SBCWithDetails.name d,
                   SBCWithDetails.challengesCount d))
      (map (details votes) (map with_remaining sets))
    = map (fun set => (SBCSet.setId set, SBCSet.name set,
                       SBCSet.challengesCount set
                       - SBCSet.challengesCompletedCount set)) sets) as Hproj.
  { intros votes sets. rewrite !map_map. apply map_ext. intros set. simpl.
    by rewrite Z_or_zero_id. }
  assert (∀ set, SBCSet.repeatable set = true → SBCSet.repeats set = 2 →
            SBCSet.challengesCount set = 5 →
            SBCSet.challengesCompletedCount set = 5 →
            (SBCSet.timesCompleted set = 2 → skipped set = true)
            ∧ (SBCSet.timesCompleted set = 1 → skipped set = false)) as Hex.
  { intros set Hrep Hreps Hcount Hdone. unfold skipped, challengesRemaining.
    rewrite Hrep, Hreps, Hcount, Hdone. split; intros ->; reflexivity. }
  destruct (decide (incomplete_sets allSets = [])) as [Hempty|Hne].
  - exists [], st, (sets_request :: ev). split; [done|]. split.
    + rewrite Hflt in Hempty. apply map_eq_nil in Hempty. by rewrite Hempty.
    + auto using skipped_fully_completed.
  - eexists _, _, _. split; [exact Hcall|]. split.
    + rewrite sort_perm. rewrite Hflt at 2. by rewrite Hproj.
    + auto using skipped_fully_completed.
Qed.

Lemma completed_sets_excluded_witness :
  ∃ result st' ev,
    fetchAllSBCsWithDetails
      (sample_world 0 [sample_set 5 true 2 2 5 5; sample_set 10 true 2 1 5 5;
                       sample_set 7 false 0 0 3 1])
      "sid" initial_state
    = (Resolved result, st', ev)
    ∧ map SBCWithDetails.setId result = [10; 7].
Proof.
  destruct (completed_sets_excluded
              (sample_world 0 [sample_set 5 true 2 2 5 5; sample_set 10 true 2 1 5 5;
                               sample_set 7 false 0 0 3 1])
              "sid" initial_state
              [sample_set 5 true 2 2 5 5; sample_set 10 true 2 1 5 5;
               sample_set 7 false 0 0 3 1] eq_refl eq_refl)
    as (result & st' & ev & Hcall & _).
  exists result, st', ev. split; [exact Hcall|].
  vm_compute in Hcall. injection Hcall as <- _ _. reflexivity.
Defined.

(** C6, as the code has it.  A call that computes a non-empty ranking stores
    it with the time read when it finishes; from then on every call whose
    time reading is less than five minutes past that timestamp, whatever its
    session token, issues no request, returns the stored array and leaves the
    state as it is (so the same holds for the call after it). *)
Theorem cache_reuse_within_window (w1 w2 : SBCWorld) (sid sid' : string)
    (st st1 : ModuleState) (result : list SBCWithDetails.t) (ev : list Event) :
  cache_fresh (now_at_check w1) (sbcCache st) = None →
  fetchAllSBCsWithDetails w1 sid st = (Resolved result, st1, ev) →
  result ≠ [] →
  now_at_check w2 - now_at_store w1 < SBC_CACHE_DURATION →
  sbcCache st1 = Some (SBCCache.mk result (now_at_store w1))
  ∧ fetchAllSBCsWithDetails w2 sid' st1 = (Resolved result, st1, []).
Proof.
  intros Hmiss Hcall Hne Hnow.
  assert (sbcCache st1 = Some (SBCCache.mk result (now_at_store w1))) as Hstored.
  { destruct (fetchSBCSets (sbs_sets w1 sid)) as [[allSets|e] ev0] eqn:Hsets.
    - destruct (fetchAllSBCsWithDetails_miss w1 sid st allSets Hmiss) as [ev' Hc].
      { by rewrite Hsets. }
      simpl in Hc. rewrite Hcall in Hc.
      destruct (decide (incomplete_sets allSets = [])).
      + injection Hc as -> _ _. done.
      + injection Hc as -> -> _. done.
    - unfold fetchAllSBCsWithDetails in Hcall. rewrite Hmiss, Hsets in Hcall. done. }
  split; [done|].
  apply (fetchAllSBCsWithDetails_hit w2 sid' st1 _ Hstored). done.
Qed.

Lemma cache_reuse_within_window_witness :
  let sets := [sample_set 5 false 0 0 3 1; sample_set 10 false 0 0 2 0] in
  let '(r1, st1, _) := fetchAllSBCsWithDetails (sample_world 0 sets) "sid" initial_state in
  ∃ result, r1 = Resolved result
    ∧ map SBCWithDetails.setId result = [10; 5]
    ∧ fetchAllSBCsWithDetails (sample_world 299999 []) "other" st1
      = (Resolved result, st1, []).
Proof.
  vm_compute fetchAllSBCsWithDetails at 1.
  eexists. split; [reflexivity|]. split; [reflexivity|].
  refine (proj2 (cache_reuse_within_window
                   (sample_world 0 [sample_set 5 false 0 0 3 1; sample_set 10 false 0 0 2 0])
                   (sample_world 299999 []) "sid" "other" initial_state _ _ _
                   eq_refl _ _ _)).
  - vm_compute. reflexivity.
  - discriminate.
  - vm_compute. reflexivity.
Defined.

(** C6, as the specification states it, fails: a computation whose surviving
    list is empty succeeds with the empty array but stores nothing, and the
    next call, one second later, fetches the catalogue again. *)
Lemma cache_reuse_counterexample :
  let sets := [sample_set 5 true 2 2 5 5] in
  let '(r1, st1, ev1) := fetchAllSBCsWithDetails (sample_world 0 sets) "sid" initial_state in
  let '(r2, st2, ev2) := fetchAllSBCsWithDetails (sample_world 1800 sets) "sid" st1 in
  r1 = Resolved []
  ∧ ev1 = [sets_request]
  ∧ sbcCache st1 = None
  ∧ 1800 - now_at_store (sample_world 0 sets) < SBC_CACHE_DURATION
  ∧ r2 = Resolved []
  ∧ ev2 = [sets_request].
Proof. vm_compute. repeat split; reflexivity. Qed.

(** C10.  When every fetched set is dropped, the call resolves to the empty
    array and the state, the SBC cache in it, is what it was; a later call
    then finds no fresh entry either and starts by requesting the set
    catalogue again. *)
Theorem empty_ranking_not_cached (w1 w2 : SBCWorld) (sid sid' : string)
    (st : ModuleState) (allSets : list SBCSet.t) :
  cache_fresh (now_at_check w1) (sbcCache st) = None →
  fst (fetchSBCSets (sbs_sets w1 sid)) = Resolved allSets →
  Forall (fun set => skipped set = true) allSets →
  now_at_check w1 ≤ now_at_check w2 →
  (∃ ev1, fetchAllSBCsWithDetails w1 sid st = (Resolved [], st, sets_request :: ev1))
  ∧ cache_fresh (now_at_check w2) (sbcCache st) = None
  ∧ ∃ r2 st2 ev2,
      fetchAllSBCsWithDetails w2 sid' st = (r2, st2, sets_request :: ev2).
Proof.
  intros Hmiss Hsets Hall Hlater.
  assert (incomplete_sets allSets = []) as Hempty.
  { rewrite incomplete_sets_filter.
    replace (List.filter (fun set => negb (skipped set)) allSets) with (@nil SBCSet.t);
      [done|].
    symmetry. clear Hsets. induction Hall as [|set l Hset _ IH]; simpl; [done|].
    by rewrite Hset. }
  assert (cache_fresh (now_at_check w2) (sbcCache st) = None) as Hmiss2.
  { unfold cache_fresh in *. destruct (sbcCache st) as [c|]; [|done].
    destruct (Z.ltb_spec (now_at_check w1 - SBCCache.timestamp c) SBC_CACHE_DURATION);
      [done|].
    destruct (Z.ltb_spec (now_at_check w2 - SBCCache.timestamp c) SBC_CACHE_DURATION);
      [lia|done]. }
  split; [|split; [done|]].
  - destruct (fetchAllSBCsWithDetails_miss w1 sid st allSets Hmiss Hsets) as [ev Hc].
    simpl in Hc. rewrite decide_True in Hc by done. eauto.
  - unfold fetchAllSBCsWithDetails. rewrite Hmiss2.
    unfold fetchSBCSets, corsRequest.
    destruct (sbs_sets w2 sid') as [response|e].
    + destruct (length _ =? 0)%nat; [by eexists _, _, _|].
      destruct (fetchSBCVotes _ _) as [votes ev']. by eexists _, _, _.
    + by eexists _, _, _.
Qed.

Lemma empty_ranking_not_cached_witness :
  (∃ ev1,
      fetchAllSBCsWithDetails (sample_world 0 [sample_set 5 true 2 2 5 5]) "sid"
        initial_state
      = (Resolved [], initial_state, sets_request :: ev1))
  ∧ ∃ r2 st2 ev2,
      fetchAllSBCsWithDetails (sample_world 1800 [sample_set 5 true 2 2 5 5]) "sid"
        initial_state
      = (r2, st2, sets_request :: ev2).
Proof.
  destruct (empty_ranking_not_cached
              (sample_world 0 [sample_set 5 true 2 2 5 5])
              (sample_world 1800 [sample_set 5 true 2 2 5 5])
              "sid" "sid" initial_state [sample_set 5 true 2 2 5 5]
              eq_refl eq_refl)
    as (H1 & _ & H2).
  - repeat constructor.
  - vm_compute. discriminate.
  - split; [exact H1|exact H2].
Defined.

(** ** The rank score *)

Lemma details_rankScore (votes : gmap Z SBCVote.t) (set : SBCSet.t) (v : SBCVote.t) :
  votes !! SBCSet.setId set = Some v →
  SBCWithDetails.rankScore (details votes set)
  = rankScore_of (float_or_zero (SBCVote.likes v)) (float_or_zero (SBCVote.dislikes v)).
Proof. intros Hv. unfold details. simpl. by rewrite Hv. Qed.

(** Without a vote for the set the score is zero as well. *)
Lemma details_rankScore_no_vote (votes : gmap Z SBCVote.t) (set : SBCSet.t) :
  votes !! SBCSet.setId set = None →
  SBCWithDetails.rankScore (details votes set) = 0%float.
Proof. intros Hv. unfold details. simpl. rewrite Hv. reflexivity. Qed.

(** At full approval the score grows with each further like, evaluated for
    one to two thousand likes. *)
Lemma rankScore_full_approval_increasing :
  forallb
    (fun n => (rankScore_of (float_of_nat n) 0
               <? rankScore_of (float_of_nat (S n)) 0)%float)
    (seq 1 2000)
  = true.
Proof. vm_compute. reflexivity. Qed.

(** C4.  A set with no like and no dislike has rank score exactly 0; a set
    with 10 likes and no dislike has a rank score strictly between 0 and 1
    that strictly exceeds the rank score of a set with 5 likes and no
    dislike.  More generally, at full approval one more like strictly raises
    the score, for every count of likes from 1 to 2000. *)
Theorem rankScore_boundaries (set : SBCSet.t) :
  let score := fun likes dislikes =>
    SBCWithDetails.rankScore (details (voted (SBCSet.setId set) likes dislikes) set) in
  score 0%float 0%float = 0%float
  ∧ (0 <? score 10%float 0%float)%float = true
  ∧ (score 10%float 0%float <? 1)%float = true
  ∧ (score 5%float 0%float <? score 10%float 0%float)%float = true
  ∧ forallb
      (fun n => (rankScore_of (float_of_nat n) 0
                 <? rankScore_of (float_of_nat (S n)) 0)%float)
      (seq 1 2000)
    = true.
Proof.
  intros score.
  assert (∀ likes dislikes,
            score likes dislikes
            = rankScore_of (float_or_zero likes) (float_or_zero dislikes)) as Hscore.
  { intros likes dislikes. unfold score, voted.
    by rewrite (details_rankScore _ set _ (lookup_singleton_eq _ _)). }
  rewrite !Hscore.
  split; [vm_compute; reflexivity|].
  split; [vm_compute; reflexivity|].
  split; [vm_compute; reflexivity|].
  split; [vm_compute; reflexivity|].
  exact rankScore_full_approval_increasing.
Qed.

Example rankScore_values :
  (rankScore_of 0 0, rankScore_of 5 0, rankScore_of 10 0)
  = (0%float, 0x1.218a54af4c9fcp-1%float, 0x1.71e64147a4622p-1%float).
Proof. vm_compute. reflexivity. Qed.

(** ** Retrying fetches *)

Lemma spaced_attempts_S url first count :
  (1 ≤ count)%nat →
  spaced_attempts url first (S count)
  = Fetch (CORS_PROXY +:+ url) :: Sleep (1000 * Z.of_nat first)
    :: spaced_attempts url (S first) count.
Proof. destruct count; [lia|done]. Qed.

Lemma retry_loop_spec {T} (url name : string) (reply : nat → Outcome T)
    (maxRetries todo attempt : nat) (lastError : option string) :
  (attempt + todo = maxRetries + 1)%nat →
  ∃ k, (k ≤ todo)%nat
    ∧ snd (retry_loop url name reply maxRetries todo attempt lastError)
      = spaced_attempts url attempt k
    ∧ (∀ j, (attempt ≤ j < attempt + k - 1)%nat → is_rejected (reply j))
    ∧ match fst (retry_loop url name reply maxRetries todo attempt lastError) with
      | Resolved v => (1 ≤ k)%nat ∧ reply (attempt + k - 1)%nat = Resolved v
      | Rejected e =>
          k = todo
          ∧ (∀ j, (attempt ≤ j ≤ maxRetries)%nat → is_rejected (reply j))
          ∧ match todo with
            | O => e = default ("Failed to fetch " +:+ name +:+ " after "
                                +:+ JS.toString (Z.of_nat maxRetries) +:+ " retries")
                         lastError
            | S _ => reply maxRetries = Rejected e
            end
      end.
Proof.
  revert attempt lastError.
  induction todo as [|todo IH]; intros attempt lastError Hsum; simpl.
  - exists 0%nat. split; [done|]. split; [done|]. split; [intros; lia|].
    split; [done|]. split; [intros; lia|done].
  - destruct (reply attempt) as [v|error] eqn:Hreply; simpl.
    + exists 1%nat. split; [lia|]. split; [done|]. split; [intros; lia|].
      split; [lia|]. by replace (attempt + 1 - 1)%nat with attempt by lia.
    + destruct (IH (S attempt) (Some error)) as (k & Hk & Htrace & Hbefore & Hres);
        [lia|].
      destruct (retry_loop url name reply maxRetries todo (S attempt) (Some error))
        as [res rest] eqn:Hloop.
      cbn [fst snd] in *. exists (S k). split; [lia|]. split; [|split].
      * destruct (Nat.ltb_spec attempt maxRetries) as [Hlt|Hge]; cbn [app].
        -- rewrite spaced_attempts_S; [by rewrite Htrace|].
           destruct res as [v|e]; [by destruct Hres|].
           destruct Hres as [-> _]. lia.
        -- assert (todo = 0)%nat as -> by lia.
           assert (k = 0)%nat as -> by lia. simpl in Htrace. by rewrite Htrace.
      * intros j Hj. destruct (decide (j = attempt)) as [->|Hne]; [by eexists|].
        apply Hbefore. lia.
      * destruct res as [v|e].
        -- destruct Hres as [Hk1 Hv]. split; [lia|].
           by replace (attempt + S k - 1)%nat with (S attempt + k - 1)%nat by lia.
        -- destruct Hres as (-> & Hall & Hlast). split; [done|]. split.
           ++ intros j Hj. destruct (decide (j = attempt)) as [->|Hne]; [by eexists|].
              apply Hall. lia.
           ++ destruct todo as [|todo']; [|done].
              simpl in Hlast. subst e.
              by replace maxRetries with attempt by lia.
Qed.

(** C7.  [fetchWithRetry] makes [k] attempts, [k] at most [maxRetries] (3
    when the caller gives none): attempt [j + 1] is made only after attempt
    [j] threw and after a pause of [1000 * j] ms; the first attempt that
    returns ends the call with its result, whatever that result is; when all
    [maxRetries] attempts threw, the call throws what the last one threw. *)
Theorem fetchWithRetry_bounded_backoff {T} (url name : string)
    (reply : nat → Outcome T) (maxRetries : nat) :
  ∃ k, (k ≤ maxRetries)%nat
    ∧ snd (fetchWithRetry url name reply maxRetries) = spaced_attempts url 1 k
    ∧ (∀ j, (1 ≤ j < k)%nat → is_rejected (reply j))
    ∧ match fst (fetchWithRetry url name reply maxRetries) with
      | Resolved v => (1 ≤ k)%nat ∧ reply k = Resolved v
      | Rejected e =>
          k = maxRetries
          ∧ (∀ j, (1 ≤ j ≤ maxRetries)%nat → is_rejected (reply j))
          ∧ ((1 ≤ maxRetries)%nat → reply maxRetries = Rejected e)
      end
    ∧ (∀ r, fetchTradePile r
            = fetchWithRetry (FUT_API_URL +:+ "/tradepile") "Trade pile" r 3)
    ∧ (∀ r, fetchStorage r
            = fetchWithRetry (FUT_API_URL +:+ "/storagepile?skuMode=FUT") "Storage" r 3)
    ∧ (∀ r, fetchDuplicated r
            = fetchWithRetry (FUT_API_URL +:+ "/purchased/items") "Duplicated items" r 3).
Proof.
  unfold fetchWithRetry.
  destruct (retry_loop_spec url name reply maxRetries maxRetries 1 None)
    as (k & Hk & Htrace & Hbefore & Hres); [lia|].
  exists k. split; [done|]. split; [done|]. split; [|split; [|done]].
  - intros j Hj. apply Hbefore. lia.
  - destruct (fst (retry_loop url name reply maxRetries maxRetries 1 None)) as [v|e].
    + destruct Hres as [Hk1 Hv]. split; [done|].
      by replace (1 + k - 1)%nat with k in Hv by lia.
    + destruct Hres as (-> & Hall & Hlast). split; [done|]. split; [done|].
      intros Hpos. destruct maxRetries; [lia|done].
Qed.

Example retry_trace_sample :
  fetchStorage (storagepile sample_items_world "sid")
  = (Rejected "API Error: 503 try 3",
     [ Fetch (CORS_PROXY +:+ FUT_API_URL +:+ "/storagepile?skuMode=FUT"); Sleep 1000;
       Fetch (CORS_PROXY +:+ FUT_API_URL +:+ "/storagepile?skuMode=FUT"); Sleep 2000;
       Fetch (CORS_PROXY +:+ FUT_API_URL +:+ "/storagepile?skuMode=FUT") ]).
Proof. vm_compute. reflexivity. Qed.

Example retry_stops_at_success :
  snd (fetchTradePile (tradepile sample_items_world "sid"))
  = [ Fetch (CORS_PROXY +:+ FUT_API_URL +:+ "/tradepile"); Sleep 1000;
      Fetch (CORS_PROXY +:+ FUT_API_URL +:+ "/tradepile") ].
Proof. vm_compute. reflexivity. Qed.

(** ** The normalizer *)

Lemma processPlayers_with_players staticData w sid :
  FetchResult.players (processPlayers_with staticData w sid)
  = records_of staticData w sid TradePile
    ++ records_of staticData w sid StoragePile
    ++ records_of staticData w sid DuplicatedItems.
Proof.
  unfold processPlayers_with, records_of, fetched. simpl.
  f_equal; [|f_equal].
  - destruct (fetchTradePile (tradepile w sid)).1 as [[[auctions|]]|e]; simpl;
      by rewrite ?map_map.
  - by destruct (fetchStorage (storagepile w sid)).1 as [[[items|]]|e].
  - by destruct (fetchDuplicated (purchased w sid)).1 as [[[items|]]|e].
Qed.

Lemma processPlayers_with_warnings staticData w sid :
  FetchResult.warnings (processPlayers_with staticData w sid)
  = flat_map (warning_of w sid) (settle_order w).
Proof.
  unfold processPlayers_with. simpl. apply flat_map_ext.
  intros []; unfold warning_of, fetched.
  - by destruct (fetchTradePile (tradepile w sid)).1.
  - by destruct (fetchStorage (storagepile w sid)).1.
  - by destruct (fetchDuplicated (purchased w sid)).1.
Qed.

(** A request that is rejected at each of its three attempts is rejected with
    the message of the third. *)
Lemma fetchWithRetry_all_rejected {T} url name (reply : nat → Outcome T) :
  (∀ k, is_rejected (reply k)) →
  ∃ e, reply 3%nat = Rejected e
       ∧ fst (fetchWithRetry url name reply DEFAULT_MAX_RETRIES) = Rejected e.
Proof.
  intros Hall.
  destruct (Hall 1%nat) as [e1 H1], (Hall 2%nat) as [e2 H2], (Hall 3%nat) as [e3 H3].
  exists e3. split; [done|].
  unfold fetchWithRetry, DEFAULT_MAX_RETRIES. simpl. rewrite H1. simpl.
  rewrite H2. simpl. rewrite H3. done.
Qed.

Lemma fetched_all_rejected w sid src :
  (∀ k, ∃ e, attempt_rejected w sid src k e) →
  ∃ msg, attempt_rejected w sid src 3 msg ∧ fetched w sid src = Rejected msg.
Proof.
  intros Hall. destruct src; unfold fetched, attempt_rejected in *.
  - destruct (fetchWithRetry_all_rejected (FUT_API_URL +:+ "/tradepile") "Trade pile"
                (tradepile w sid) Hall) as (e & H3 & Hres).
    exists e. unfold fetchTradePile. by rewrite Hres.
  - destruct (fetchWithRetry_all_rejected (FUT_API_URL +:+ "/storagepile?skuMode=FUT")
                "Storage" (storagepile w sid) Hall) as (e & H3 & Hres).
    exists e. unfold fetchStorage. by rewrite Hres.
  - destruct (fetchWithRetry_all_rejected (FUT_API_URL +:+ "/purchased/items")
                "Duplicated items" (purchased w sid) Hall) as (e & H3 & Hres).
    exists e. unfold fetchDuplicated. by rewrite Hres.
Qed.

Lemma records_of_nil staticData w sid src items :
  fetched w sid src = Resolved items →
  records_of staticData w sid src = [] ↔ items = [].
Proof.
  intros H. unfold records_of. rewrite H. split.
  - apply map_eq_nil.
  - by intros ->.
Qed.

(** C2.  Once the reference data is there, if one item source is rejected at
    every attempt and the other two deliver, [processPlayers] resolves: its
    warnings are the single warning of the failed source, which starts with
    the source's label and carries the message of its last attempt, and its
    players are the records of the two other sources, in source order; the
    players are empty only when both of these deliver no item. *)
Theorem one_failed_source_isolated (sw : StaticWorld) (w : ItemsWorld)
    (sid : string) (st st0 : ModuleState) (ev0 : list Event)
    (staticData : CachedData.t) (failed : Source) :
  fetchStaticData sw st = (Resolved staticData, st0, ev0) →
  Permutation (settle_order w) all_sources →
  (∀ k, ∃ e, attempt_rejected w sid failed k e) →
  (∀ src, src ≠ failed → ∃ items, fetched w sid src = Resolved items) →
  ∃ result msg,
    processPlayers sw w sid st = (Resolved result, st0)
    ∧ attempt_rejected w sid failed 3 msg
    ∧ FetchResult.warnings result = [warning_text failed msg]
    ∧ length (FetchResult.warnings result) = 1%nat
    ∧ FetchResult.players result
      = flat_map (records_of staticData w sid)
          (List.filter (fun src => negb (bool_decide (src = failed))) all_sources)
    ∧ records_of staticData w sid failed = []
    ∧ (FetchResult.players result = []
       ↔ ∀ src, src ≠ failed → fetched w sid src = Resolved []).
Proof.
  intros Hstatic Hperm Hfail Hothers.
  destruct (fetched_all_rejected w sid failed Hfail) as (msg & H3 & Hrej).
  exists (processPlayers_with staticData w sid), msg.
  assert (records_of staticData w sid failed = []) as Hnone
    by (unfold records_of; by rewrite Hrej).
  assert (FetchResult.warnings (processPlayers_with staticData w sid)
          = [warning_text failed msg]) as Hwarn.
  { rewrite processPlayers_with_warnings.
    apply Permutation_singleton_r. rewrite Hperm.
    unfold all_sources. simpl. rewrite app_nil_r.
    destruct failed; unfold warning_of at 1 2 3.
    - rewrite Hrej.
      destruct (Hothers StoragePile) as [? ->]; [done|].
      destruct (Hothers DuplicatedItems) as [? ->]; done.
    - rewrite Hrej.
      destruct (Hothers TradePile) as [? ->]; [done|].
      destruct (Hothers DuplicatedItems) as [? ->]; done.
    - rewrite Hrej.
      destruct (Hothers TradePile) as [? ->]; [done|].
      destruct (Hothers StoragePile) as [? ->]; done. }
  split; [unfold processPlayers; by rewrite Hstatic|].
  split; [done|]. split; [done|]. split; [by rewrite Hwarn|].
  rewrite processPlayers_with_players.
  split; [|split; [done|]].
  - destruct failed; simpl; rewrite Hnone, ?app_nil_r; done.
  - split.
    + intros Hnil src Hsrc. destruct (Hothers src Hsrc) as [items Hitems].
      rewrite Hitems. f_equal.
      apply (records_of_nil staticData _ _ _ _ Hitems).
      apply app_eq_nil in Hnil as [Ht Hnil]. apply app_eq_nil in Hnil as [Hs Hd].
      by destruct src.
    + intros Hall.
      assert (∀ src, records_of staticData w sid src = []) as Hrec.
      { intros src. destruct (decide (src = failed)) as [->|Hne]; [done|].
        unfold records_of. by rewrite (Hall src Hne). }
      by rewrite !Hrec.
Qed.

Lemma one_failed_source_isolated_witness :
  ∃ result,
    fst (processPlayers sample_static_world sample_items_world "sid" initial_state)
    = Resolved result
    ∧ FetchResult.warnings result
      = ["Storage failed after 3 retries: API Error: 503 try 3"]
    ∧ map ProcessedPlayer.type (FetchResult.players result) = [Transfer; Duplicated].
Proof.
  destruct (one_failed_source_isolated sample_static_world sample_items_world "sid"
              initial_state
              (snd (fst (fetchStaticData sample_static_world initial_state)))
              (snd (fetchStaticData sample_static_world initial_state))
              (CachedData.mk ∅ ∅ ∅ ∅) StoragePile)
    as (result & msg & Hcall & Hmsg & Hwarn & _ & Hplayers & _).
  - reflexivity.
  - apply perm_trans with [TradePile; DuplicatedItems; StoragePile];
      [apply perm_swap|apply perm_skip, perm_swap].
  - intros k. eexists. reflexivity.
  - intros [] Hne; [eexists; reflexivity|done|eexists; reflexivity].
  - exists result. split; [by rewrite Hcall|]. split.
    + rewrite Hwarn. simpl in Hmsg. injection Hmsg as <-. reflexivity.
    + rewrite Hplayers. reflexivity.
Defined.

(** ** Unknown references and the display name *)

(** C8, as the code has it.  Normalization of an item is total.  A nation,
    league or team id that is not in the reference maps gives the name
    "Unknown" and no image; an asset id that is not in the catalogue gives
    the name "Unknown"; an asset id that is in the catalogue gives the common
    name when it is present and not the empty string, and otherwise the first
    name, a space and the last name. *)
Theorem unknown_references_degrade (staticData : CachedData.t)
    (type : PlayerType) (item : PlayerItem.t) :
  let p := processItem staticData type item in
  (CachedData.nations staticData !! PlayerItem.nation item = None →
   ProcessedPlayer.nation p = "Unknown" ∧ ProcessedPlayer.nationImg p = None)
  ∧ (CachedData.leagues staticData !! PlayerItem.leagueId item = None →
     ProcessedPlayer.league p = "Unknown" ∧ ProcessedPlayer.leagueImg p = None)
  ∧ (CachedData.teams staticData !! PlayerItem.teamid item = None →
     ProcessedPlayer.team p = "Unknown" ∧ ProcessedPlayer.teamImg p = None)
  ∧ (CachedData.players staticData !! PlayerItem.assetId item = None →
     ProcessedPlayer.name p = "Unknown")
  ∧ (∀ player,
       CachedData.players staticData !! PlayerItem.assetId item = Some player →
       ProcessedPlayer.name p
       = match RawPlayerData.c player with
         | Some common =>
             if decide (common = "")
             then RawPlayerData.f player +:+ " " +:+ RawPlayerData.l player
             else common
         | None => RawPlayerData.f player +:+ " " +:+ RawPlayerData.l player
         end).
Proof.
  simpl. unfold getNationName, getNationImg, getLeagueName, getLeagueImg,
    getTeamName, getTeamImg, getPlayerName.
  split; [intros ->; split; reflexivity|].
  split; [intros ->; split; reflexivity|].
  split; [intros ->; split; reflexivity|].
  split; [intros ->; reflexivity|].
  intros player ->. destruct (RawPlayerData.c player) as [[|c0 common]|]; done.
Qed.

(** C8, as the specification states it, fails on a catalogue entry whose
    common name is present and empty: the display name is built from the
    first and last name. *)
Lemma common_name_counterexample :
  let item := sample_item 303 70 None in
  ∃ player,
    CachedData.players sample_static !! PlayerItem.assetId item = Some player
    ∧ RawPlayerData.c player = Some ""
    ∧ ProcessedPlayer.name (processItem sample_static Transfer item) = "Ada Bo"
    ∧ Some (ProcessedPlayer.name (processItem sample_static Transfer item))
      ≠ RawPlayerData.c player.
Proof.
  eexists. split; [vm_compute; reflexivity|]. split; [reflexivity|].
  split; [vm_compute; reflexivity|]. vm_compute. discriminate.
Qed.

Example unknown_references_sample :
  let p := processItem sample_static Storage
             {| PlayerItem.assetId := 404; PlayerItem.rating := 61;
                PlayerItem.possiblePositions := Some ["CB"];
                PlayerItem.nation := 1; PlayerItem.leagueId := 2;
                PlayerItem.teamid := 110045 |} in
  (ProcessedPlayer.name p, ProcessedPlayer.nation p, ProcessedPlayer.nationImg p,
   ProcessedPlayer.league p, ProcessedPlayer.team p)
  = ("Unknown", "Unknown", None, "Unknown", "Juventus").
Proof. vm_compute. reflexivity. Qed.

(** ** The position string *)

Example split_samples :
  (JS.split " / " "ST / CF / LW", JS.split " / " "GK", JS.split " / " "",
   JS.split " / " "a /  / b / ", JS.split " / " "Unknown")
  = (["ST"; "CF"; "LW"], ["GK"], [""], ["a"; ""; "b"; ""], ["Unknown"]).
Proof. reflexivity. Qed.

Lemma append_cons (x : ascii) (a b : string) : String x a +:+ b = String x (a +:+ b).
Proof. reflexivity. Qed.

Lemma append_assoc (a b c : string) : (a +:+ b) +:+ c = a +:+ (b +:+ c).
Proof.
  induction a as [|x a IH]; [done|]. by rewrite !append_cons, IH.
Qed.

Lemma append_empty_r (a : string) : a +:+ "" = a.
Proof. induction a as [|x a IH]; [done|]. by rewrite append_cons, IH. Qed.

Lemma split_go_code (code rest cur : string) :
  no_blank code →
  JS.split_go " / " (code +:+ rest) cur 0 = JS.split_go " / " rest (cur +:+ code) 0.
Proof.
  revert cur. induction code as [|c code IH]; intros cur Hcode.
  - by rewrite append_empty_r.
  - destruct Hcode as [Hc Hcode]. rewrite append_cons.
    change (JS.split_go " / " (String c (code +:+ rest)) cur 0)
      with (if (if ascii_dec " " c then String.prefix "/ " (code +:+ rest) else false)
            then cur :: JS.split_go " / " (code +:+ rest) "" 2
            else JS.split_go " / " (code +:+ rest) (cur +:+ String c "") 0).
    destruct (ascii_dec " " c) as [<-|_]; [done|].
    rewrite IH by done. by rewrite append_assoc.
Qed.

Lemma split_go_separator (s cur : string) :
  JS.split_go " / " (" / " +:+ s) cur 0 = cur :: JS.split_go " / " s "" 0.
Proof. destruct s; reflexivity. Qed.

(** Splitting the joined codes gives the codes back, as long as no code
    contains a blank. *)
Lemma split_join (codes : list string) :
  codes ≠ [] → Forall no_blank codes →
  JS.split " / " (JS.join " / " codes) = codes.
Proof.
  intros Hne Hcodes. unfold JS.split.
  induction Hcodes as [|code codes Hcode Hcodes IH]; [done|].
  destruct codes as [|code' codes].
  - simpl. rewrite <- (append_empty_r code) at 1.
    by rewrite split_go_code.
  - change (JS.join " / " (code :: code' :: codes))
      with (code +:+ " / " +:+ JS.join " / " (code' :: codes)).
    rewrite split_go_code by done. rewrite split_go_separator.
    change ("" +:+ code) with code. by rewrite IH.
Qed.

Lemma join_empty (sep : string) (l : list string) :
  sep ≠ "" → JS.join sep l = "" ↔ l = [] ∨ l = [""].
Proof.
  intros Hsep. destruct l as [|x [|y l]]; simpl.
  - split; auto.
  - split; [intros ->; auto|]. by intros [|[= ->]].
  - split; [|by intros [|]].
    destruct x; simpl; [|done]. destruct sep; [done|]. done.
Qed.

(** C9, as the code has it.  The position string of a normalized record is
    the item's position codes joined with " / " when that string is not
    empty; when the list is absent, is empty, or joins to the empty string,
    the position string is "Unknown". *)
Theorem position_joined_or_unknown (staticData : CachedData.t)
    (type : PlayerType) (item : PlayerItem.t) :
  let position := ProcessedPlayer.position (processItem staticData type item) in
  (∀ codes, PlayerItem.possiblePositions item = Some codes →
            codes ≠ [] → codes ≠ [""] → position = JS.join " / " codes)
  ∧ (PlayerItem.possiblePositions item = None → position = "Unknown")
  ∧ (PlayerItem.possiblePositions item = Some [] → position = "Unknown")
  ∧ (PlayerItem.possiblePositions item = Some [""] → position = "Unknown").
Proof.
  simpl. split; [|split; [|split]]; try (intros ->; reflexivity).
  intros codes -> Hne Hne'. simpl. unfold JS.or_else.
  destruct (JS.join " / " codes) eqn:Hjoin; [|done].
  apply join_empty in Hjoin as [|]; done.
Qed.

(** C9, as the specification states it, fails on an item whose list of
    positions is empty: the codes join to the empty string, the record says
    "Unknown". *)
Lemma empty_positions_counterexample :
  let item := sample_item 999 70 (Some []) in
  ProcessedPlayer.position (processItem sample_static Duplicated item) = "Unknown"
  ∧ JS.join " / " [] = ""
  ∧ ProcessedPlayer.position (processItem sample_static Duplicated item)
    ≠ JS.join " / " (default [] (PlayerItem.possiblePositions item)).
Proof. vm_compute. repeat split; discriminate || reflexivity. Qed.

(** ** Vote identifiers *)

Example parseInt_samples :
  (JS.parseInt "42", JS.parseInt " -7", JS.parseInt "12abc", JS.parseInt "abc",
   JS.parseInt "", JS.parseInt "-")
  = (Some 42, Some (-7), Some 12, None, None, None).
Proof. reflexivity. Qed.

Example votes_sample :
  let votes := fst (fetchSBCVotes [5; 10; 7] sample_votes) in
  (SBCVote.likes <$> votes !! 5, SBCVote.likes <$> votes !! 10, votes !! 8)
  = (Some 5%float, Some 10%float, None).
Proof. vm_compute. reflexivity. Qed.

(** * Further properties of the code *)

(** ** The reference-data cache *)

(** X1.  Whatever the first call of [fetchStaticData] returns, the reference
    data or the error of the failed load, every later call returns the same,
    issues no request and leaves the module state as it is. *)
Theorem fetchStaticData_settles_once (sw sw' : StaticWorld) (st st1 : ModuleState)
    (o : Outcome CachedData.t) (ev : list Event) :
  fetchStaticData sw st = (o, st1, ev) →
  fetchStaticData sw' st1 = (o, st1, []).
Proof.
  unfold fetchStaticData.
  destruct (cachedData st) as [d|] eqn:Hcached.
  { intros [= <- <- _]. by rewrite Hcached. }
  destruct (staticDataPromise st) as [p|] eqn:Hpromise.
  { intros [= <- <- _]. by rewrite Hcached, Hpromise. }
  unfold fetchFutGGData, corsRequest.
  destruct (players_json sw) as [pr|e1], (futgg sw) as [fg|e2]; simpl;
    intros [= <- <- _]; reflexivity.
Qed.

Lemma fetchStaticData_settles_once_witness :
  let d := CachedData.mk ∅ ∅ ∅ ∅ in
  let st1 := mkState (Some d) (Some (Resolved d)) None in
  fetchStaticData sample_static_world initial_state
  = (Resolved d, st1,
     [ Fetch (CORS_PROXY +:+ EA_STATIC_URL +:+ "/players.json?_=1700000000000");
       Fetch (CORS_PROXY +:+ FUTGG_API_URL +:+ FUTGG_QUERY) ])
  ∧ fetchStaticData
      {| static_now := 1700000060000; players_json := Rejected "offline";
         futgg := Rejected "offline"; futgg_rejects_first := true |} st1
    = (Resolved d, st1, []).
Proof.
  intros d st1. split; [reflexivity|].
  exact (fetchStaticData_settles_once sample_static_world _ initial_state st1
           (Resolved d) _ eq_refl).
Defined.

Lemma fetchStaticData_rejected_state (sw : StaticWorld) (st st1 : ModuleState)
    (e : string) (ev : list Event) :
  fetchStaticData sw st = (Rejected e, st1, ev) →
  cachedData st1 = None ∧ staticDataPromise st1 = Some (Rejected e).
Proof.
  unfold fetchStaticData.
  destruct (cachedData st) as [d|] eqn:Hcached; [done|].
  destruct (staticDataPromise st) as [p|] eqn:Hpromise.
  { intros [= -> <- _]. done. }
  unfold fetchFutGGData, corsRequest.
  destruct (players_json sw) as [pr|e1], (futgg sw) as [fg|e2];
    simpl; intros [= <- <- _]; done.
Qed.

(** X2.  When the load of the reference data fails, [processPlayers] rejects
    with that error, and so does every later call, whatever the reference
    endpoints and the item sources answer then: the failed load is kept in
    [staticDataPromise] and is not tried again. *)
Theorem failed_static_load_blocks_processPlayers (sw sw' : StaticWorld)
    (w w' : ItemsWorld) (sid sid' : string) (st st1 : ModuleState) (e : string) :
  processPlayers sw w sid st = (Rejected e, st1) →
  processPlayers sw' w' sid' st1 = (Rejected e, st1)
  ∧ cachedData st1 = None
  ∧ staticDataPromise st1 = Some (Rejected e).
Proof.
  unfold processPlayers.
  destruct (fetchStaticData sw st) as [[o st0] ev] eqn:Hfirst.
  destruct o as [d|e0]; [done|]. intros [= -> ->].
  destruct (fetchStaticData_rejected_state _ _ _ _ _ Hfirst) as [Hcached Hpromise].
  split; [|done].
  unfold fetchStaticData. by rewrite Hcached, Hpromise.
Qed.

Lemma failed_static_load_blocks_processPlayers_witness :
  let down := {| static_now := 1700000000000; players_json := Rejected "API Error: 502 Bad Gateway";
                 futgg := Resolved (FutGGResponse.mk [] [] []);
                 futgg_rejects_first := false |} in
  let st1 := snd (processPlayers down sample_items_world "sid" initial_state) in
  fst (processPlayers sample_static_world sample_items_world "sid" st1)
  = Rejected "API Error: 502 Bad Gateway".
Proof.
  intros down st1.
  pose proof (failed_static_load_blocks_processPlayers down sample_static_world
                sample_items_world sample_items_world "sid" "sid" initial_state st1
                "API Error: 502 Bad Gateway" eq_refl) as [H _].
  by rewrite H.
Defined.

(** X3.  After [clearCache] nothing is remembered: the next call of
    [fetchStaticData] requests the catalogue and the club, nation and league
    lists again, and the next call of the SBC pipeline requests the set
    catalogue, however recent the ranking it had stored. *)
Theorem clearCache_forces_refetch (st : ModuleState) (sw : StaticWorld)
    (w : SBCWorld) (sid : string) :
  (∃ o st',
     fetchStaticData sw (clearCache st)
     = (o, st',
        [ Fetch (CORS_PROXY +:+ EA_STATIC_URL +:+ "/players.json?_="
                 +:+ JS.toString (static_now sw));
          Fetch (CORS_PROXY +:+ FUTGG_API_URL +:+ FUTGG_QUERY) ]))
  ∧ ∃ r st' ev,
      fetchAllSBCsWithDetails w sid (clearCache st) = (r, st', sets_request :: ev).
Proof.
  split.
  - unfold clearCache, fetchStaticData, fetchFutGGData, corsRequest. simpl.
    destruct (players_json sw) as [pr|e1], (futgg sw) as [fg|e2]; simpl;
      by eexists _, _.
  - unfold clearCache, fetchAllSBCsWithDetails, fetchSBCSets, corsRequest. simpl.
    destruct (sbs_sets w sid) as [response|e]; [|by eexists _, _, _].
    destruct (length _ =? 0)%nat; [by eexists _, _, _|].
    destruct (fetchSBCVotes _ _) as [votes ev']. by eexists _, _, _.
Qed.

(** ** The reference maps *)



Lemma fold_insert_last {A V} (key : A → Z) (val : A → V) (l : list A) (id : Z) :
  fold_left (fun m x => <[key x := val x]> m) l (∅ : gmap Z V) !! id
  = val <$> last (List.filter (fun x => key x =? id) l).
Proof.
  induction l as [|x l IH] using rev_ind; [done|].
  rewrite fold_left_app, List.filter_app. simpl.
  destruct (Z.eqb_spec (key x) id) as [<-|Hne].
  - by rewrite lookup_insert_eq, last_snoc.
  - by rewrite lookup_insert_ne, app_nil_r.
Qed.

Lemma last_filter_elem_of {A} (f : A → bool) (l : list A) (x : A) :
  last (List.filter f l) = Some x → x ∈ l ∧ f x = true.
Proof.
  intros H. apply elem_of_List_filter, last_Some_elem_of, H.
Qed.

Lemma fmap_last_filter_ext {A V} (key : A → Z) (f g : A → V) (l : list A) (id : Z) :
  (∀ x, key x = id → f x = g x) →
  f <$> last (List.filter (fun x => key x =? id) l)
  = g <$> last (List.filter (fun x => key x =? id) l).
Proof.
  intros Hext. destruct (last (List.filter (fun x => key x =? id) l)) as [x|] eqn:Hlast;
    [|done].
  apply last_filter_elem_of in Hlast as [_ Hid]. apply Z.eqb_eq in Hid.
  simpl. by rewrite Hext.
Qed.

(** X5.  The catalogue map resolves an id to the last record with that id in
    the legends followed by the regular players: later records overwrite
    earlier ones, so a legend never hides a regular player with the same id,
    and every record is stored under its own id. *)
Theorem playersMap_of_last_wins (r : PlayersJsonResponse.t) (id : Z) :
  let legends := default [] (PlayersJsonResponse.LegendsPlayers r) in
  let regulars := default [] (PlayersJsonResponse.Players r) in
  playersMap_of r !! id
  = last (List.filter (fun p => RawPlayerData.id p =? id) (legends ++ regulars))
  ∧ (∀ p, playersMap_of r !! id = Some p →
          RawPlayerData.id p = id ∧ (p ∈ legends ∨ p ∈ regulars))
  ∧ ((∃ p, p ∈ regulars ∧ RawPlayerData.id p = id) →
     ∃ q, playersMap_of r !! id = Some q ∧ q ∈ regulars)
  ∧ ((∀ p, p ∈ legends ++ regulars → RawPlayerData.id p ≠ id) →
     playersMap_of r !! id = None).
Proof.
  intros legends regulars.
  assert (playersMap_of r !! id
          = last (List.filter (fun p => RawPlayerData.id p =? id) (legends ++ regulars)))
    as Heq.
  { unfold playersMap_of. fold legends regulars.
    rewrite (fold_insert_last RawPlayerData.id (fun p => p)).
    by destruct (last _). }
  split; [done|]. rewrite Heq. split; [|split].
  - intros p Hp. apply last_filter_elem_of in Hp as [Hin Hid].
    split; [by apply Z.eqb_eq|]. by apply elem_of_app.
  - intros (p & Hp & Hid). rewrite List.filter_app.
    destruct (last (List.filter (fun p => RawPlayerData.id p =? id) regulars))
      as [q|] eqn:Hlast.
    + exists q. split; [|by apply last_filter_elem_of in Hlast as [? _]].
      apply last_Some in Hlast as [l' Hl']. rewrite Hl', app_assoc.
      apply last_snoc.
    + apply last_None in Hlast.
      assert (p ∈ List.filter (fun p => RawPlayerData.id p =? id) regulars) as Hin
        by (apply elem_of_List_filter; split; [done|by apply Z.eqb_eq]).
      rewrite Hlast in Hin. by apply elem_of_nil in Hin.
  - intros Hnone. apply last_None.
    destruct (List.filter _ _) as [|q l'] eqn:Hf; [done|].
    assert (q ∈ List.filter (fun p => RawPlayerData.id p =? id) (legends ++ regulars))
      as Hq by (rewrite Hf; by left).
    apply elem_of_List_filter in Hq as [Hin Hid]. apply Z.eqb_eq in Hid.
    by destruct (Hnone q Hin).
Qed.

(** X6.  The nations map and the leagues map resolve an id to the name of the
    last listed entry with that id, with the flag or league image addressed
    by the id; an id that no entry has is absent from the map. *)
Theorem nations_leagues_last_wins (nations : list FutGGNation.t)
    (leagues : list FutGGLeague.t) (id : Z) :
  nations_of nations !! id
  = (fun nation => EntityInfo.mk (FutGGNation.name nation) (Some (getNationImageUrl id)))
    <$> last (List.filter (fun nation => FutGGNation.eaId nation =? id) nations)
  ∧ leagues_of leagues !! id
    = (fun league => EntityInfo.mk (FutGGLeague.name league) (Some (getLeagueImageUrl id)))
      <$> last (List.filter (fun league => FutGGLeague.eaId league =? id) leagues)
  ∧ ((∀ nation, nation ∈ nations → FutGGNation.eaId nation ≠ id) →
     nations_of nations !! id = None)
  ∧ ((∀ league, league ∈ leagues → FutGGLeague.eaId league ≠ id) →
     leagues_of leagues !! id = None).
Proof.
  assert (nations_of nations !! id
          = (fun nation => EntityInfo.mk (FutGGNation.name nation)
                             (Some (getNationImageUrl id)))
            <$> last (List.filter (fun nation => FutGGNation.eaId nation =? id) nations))
    as Hn.
  { unfold nations_of.
    rewrite (fold_insert_last FutGGNation.eaId
               (fun nation => EntityInfo.mk (FutGGNation.name nation)
                                (Some (getNationImageUrl (FutGGNation.eaId nation))))).
    apply fmap_last_filter_ext. by intros nation ->. }
  assert (leagues_of leagues !! id
          = (fun league => EntityInfo.mk (FutGGLeague.name league)
                             (Some (getLeagueImageUrl id)))
            <$> last (List.filter (fun league => FutGGLeague.eaId league =? id) leagues))
    as Hl.
  { unfold leagues_of.
    rewrite (fold_insert_last FutGGLeague.eaId
               (fun league => EntityInfo.mk (FutGGLeague.name league)
                                (Some (getLeagueImageUrl (FutGGLeague.eaId league))))).
    apply fmap_last_filter_ext. by intros league ->. }
  split; [done|]. split; [done|]. rewrite Hn, Hl. split.
  - intros Hnone.
    destruct (last (List.filter (fun nation => FutGGNation.eaId nation =? id) nations))
      as [nation|] eqn:Hlast; [|done].
    apply last_filter_elem_of in Hlast as [Hin Hid]. apply Z.eqb_eq in Hid.
    by destruct (Hnone nation Hin).
  - intros Hnone.
    destruct (last (List.filter (fun league => FutGGLeague.eaId league =? id) leagues))
      as [league|] eqn:Hlast; [|done].
    apply last_filter_elem_of in Hlast as [Hin Hid]. apply Z.eqb_eq in Hid.
    by destruct (Hnone league Hin).
Qed.

(** ** Failures in the SBC pipeline *)

(** X7.  A rejected catalogue request rejects the pipeline call with the same
    error after that single request and leaves the module state untouched: a
    stale ranking is not served in its place, and the failure is not
    remembered, so a later call that reaches the catalogue computes. *)
Theorem catalogue_failure_not_remembered (w w' : SBCWorld) (sid sid' : string)
    (st : ModuleState) (e : string) (response : SBCSetsResponse.t) :
  cache_fresh (now_at_check w) (sbcCache st) = None →
  sbs_sets w sid = Rejected e →
  now_at_check w ≤ now_at_check w' →
  sbs_sets w' sid' = Resolved response →
  fetchAllSBCsWithDetails w sid st = (Rejected e, st, [sets_request])
  ∧ ∃ result st' ev,
      fetchAllSBCsWithDetails w' sid' st = (Resolved result, st', sets_request :: ev).
Proof.
  intros Hmiss Hrej Hlater Hok. split.
  - unfold fetchAllSBCsWithDetails, fetchSBCSets, corsRequest.
    by rewrite Hmiss, Hrej.
  - assert (cache_fresh (now_at_check w') (sbcCache st) = None) as Hmiss'.
    { unfold cache_fresh in *. destruct (sbcCache st) as [c|]; [|done].
      destruct (Z.ltb_spec (now_at_check w - SBCCache.timestamp c) SBC_CACHE_DURATION);
        [done|].
      destruct (Z.ltb_spec (now_at_check w' - SBCCache.timestamp c) SBC_CACHE_DURATION);
        [lia|done]. }
    unfold fetchAllSBCsWithDetails, fetchSBCSets, corsRequest.
    rewrite Hmiss', Hok.
    destruct (length _ =? 0)%nat; [by eexists _, _, _|].
    destruct (fetchSBCVotes _ _) as [votes ev']. by eexists _, _, _.
Qed.

Lemma catalogue_failure_not_remembered_witness :
  let down := {| now_at_check := 0; sbs_sets := fun _ => Rejected "API Error: 401 Unauthorized";
                 vote_service := fun _ => sample_votes; now_at_store := 5 |} in
  fetchAllSBCsWithDetails down "sid" initial_state
  = (Rejected "API Error: 401 Unauthorized", initial_state, [sets_request])
  ∧ ∃ result st' ev,
      fetchAllSBCsWithDetails (sample_world 60000 [sample_set 5 false 0 0 3 1]) "sid"
        initial_state
      = (Resolved result, st', sets_request :: ev).
Proof.
  intros down.
  exact (catalogue_failure_not_remembered down
           (sample_world 60000 [sample_set 5 false 0 0 3 1]) "sid" "sid" initial_state
           "API Error: 401 Unauthorized" _ eq_refl eq_refl
           ltac:(vm_compute; discriminate) eq_refl).
Defined.

Lemma sort_all_tied (l : list SBCWithDetails.t) :
  Forall (fun d => SBCWithDetails.rankScore d = 0%float) l →
  JS.sort by_rankScore l = l.
Proof.
  induction 1 as [|d l Hd Hl IH]; simpl; [done|].
  rewrite IH. destruct Hl as [|d' l' Hd' _]; simpl; [done|].
  unfold by_rankScore. by rewrite Hd, Hd'.
Qed.

Lemma fetchSBCVotes_no_data (ids : list Z) (reply : Outcome (option (list VoteData.t))) :
  (∃ e, reply = Rejected e) ∨ reply = Resolved None →
  fst (fetchSBCVotes ids reply) = ∅.
Proof.
  intros H. unfold fetchSBCVotes, corsRequest. destruct ids; [done|].
  by destruct H as [[e ->]| ->].
Qed.

(** X8.  When the vote service is unreachable, or answers something that is
    not an array, the pipeline still resolves: every surviving set is
    reported with no like, no dislike, like percentage 0 and rank score 0,
    in the order of the catalogue, and a non-empty result is cached like any
    other. *)
Theorem vote_failure_gives_zero_votes (w : SBCWorld) (sid : string)
    (st : ModuleState) (allSets : list SBCSet.t) :
  cache_fresh (now_at_check w) (sbcCache st) = None →
  fst (fetchSBCSets (sbs_sets w sid)) = Resolved allSets →
  (let ids := map SBCSet.setId (incomplete_sets allSets) in
   (∃ e, vote_service w ids = Rejected e) ∨ vote_service w ids = Resolved None) →
  ∃ result st' ev,
    fetchAllSBCsWithDetails w sid st = (Resolved result, st', sets_request :: ev)
    ∧ map (fun d => (SBCWithDetails.setId d, SBCWithDetails.name d,
                     SBCWithDetails.challengesCount d)) result
      = map (fun set => (SBCSet.setId set, SBCSet.name set, challengesRemaining set))
          (List.filter (fun set => negb (skipped set)) allSets)
    ∧ Forall (fun d => SBCWithDetails.likes d = 0%float
                       ∧ SBCWithDetails.dislikes d = 0%float
                       ∧ SBCWithDetails.likePercent d = 0%float
                       ∧ SBCWithDetails.rankScore d = 0%float) result
    ∧ (result ≠ [] → sbcCache st' = Some (SBCCache.mk result (now_at_store w))).
Proof.
  intros Hmiss Hsets Hvotes.
  destruct (fetchAllSBCsWithDetails_miss w sid st allSets Hmiss Hsets) as [ev Hcall].
  simpl in Hcall, Hvotes.
  assert (votes_for w (incomplete_sets allSets) = ∅) as Hnone
    by (by apply fetchSBCVotes_no_data).
  rewrite Hnone in Hcall.
  assert (Forall (fun d => SBCWithDetails.likes d = 0%float
                           ∧ SBCWithDetails.dislikes d = 0%float
                           ∧ SBCWithDetails.likePercent d = 0%float
                           ∧ SBCWithDetails.rankScore d = 0%float)
            (map (details ∅) (incomplete_sets allSets))) as Hzero.
  { apply Forall_map, Forall_forall. intros set _. unfold details. simpl.
    rewrite lookup_empty. repeat split; reflexivity. }
  rewrite sort_all_tied in Hcall
    by (eapply Forall_impl; [exact Hzero|]; by intros d (_ & _ & _ & ?)).
  assert (map (fun d => (SBCWithDetails.setId d, SBCWithDetails.name d,
                         SBCWithDetails.challengesCount d))
            (map (details ∅) (incomplete_sets allSets))
          = map (fun set => (SBCSet.setId set, SBCSet.name set, challengesRemaining set))
              (List.filter (fun set => negb (skipped set)) allSets)) as Hproj.
  { rewrite incomplete_sets_filter, !map_map. apply map_ext. intros set. simpl.
    by rewrite Z_or_zero_id. }
  destruct (decide (incomplete_sets allSets = [])) as [Hempty|Hne].
  - exists [], st, ev. split; [done|]. rewrite Hempty in Hproj.
    split; [done|]. split; [constructor|done].
  - eexists _, _, ev. split; [exact Hcall|]. split; [done|]. split; [done|]. done.
Qed.

Lemma vote_failure_gives_zero_votes_witness :
  let w := {| now_at_check := 0;
              sbs_sets := fun _ => sample_catalogue [sample_set 5 false 0 0 3 1;
                                                     sample_set 10 false 0 0 2 0];
              vote_service := fun _ => Rejected "API Error: 500 Internal Server Error";
              now_at_store := 7 |} in
  ∃ result st' ev,
    fetchAllSBCsWithDetails w "sid" initial_state
    = (Resolved result, st', sets_request :: ev)
    ∧ map SBCWithDetails.setId result = [5; 10].
Proof.
  intros w.
  destruct (vote_failure_gives_zero_votes w "sid" initial_state
              [sample_set 5 false 0 0 3 1; sample_set 10 false 0 0 2 0]
              eq_refl eq_refl) as (result & st' & ev & Hcall & Hproj & _).
  - left. by eexists.
  - exists result, st', ev. split; [exact Hcall|].
    apply (f_equal (map (fun t => fst (fst t)))) in Hproj.
    rewrite !map_map in Hproj. exact Hproj.
Defined.




(** ** The challenges of a set *)

Lemma find_first {A} (f : A → bool) (l : list A) (x : A) :
  List.find f l = Some x →
  ∃ before after, l = before ++ x :: after ∧ f x = true
                  ∧ Forall (fun y => f y = false) before.
Proof.
  induction l as [|y l IH]; simpl; [done|].
  destruct (f y) eqn:Hy.
  - intros [= ->]. exists [], l. repeat split; [done|constructor].
  - intros Hfind. destruct (IH Hfind) as (before & after & -> & Hx & Hbefore).
    exists (y :: before), after. repeat split; [done|by constructor].
Qed.

Lemma find_None_Forall {A} (f : A → bool) (l : list A) :
  List.find f l = None ↔ Forall (fun y => f y = false) l.
Proof.
  induction l as [|y l IH]; simpl; [split; [constructor|done]|].
  destruct (f y) eqn:Hy.
  - split; [done|]. intros H. inversion H; congruence.
  - rewrite IH. split; [by constructor|]. intros H. by inversion H.
Qed.

Lemma is_team_rating_eqb (req : SBCChallengeEligibility.t) :
  String.eqb (SBCChallengeEligibility.type req) "TEAM_RATING_1_TO_100" = true
  ↔ is_team_rating req.
Proof. apply String.eqb_eq. Qed.

(** X10.  [fetchSBCSetChallengeDetails] makes one request and passes a
    rejection on; otherwise it returns one detail per challenge, in order,
    with the challenge's id, name and formation.  The team rating is the
    value of the first requirement of type TEAM_RATING_1_TO_100 (a value of 0
    included) and is null exactly when the challenge has no requirement of
    that type or no requirement list; a response without a challenge list
    gives no detail. *)
Theorem challenge_details_team_rating (setId : Z)
    (reply : Outcome SBCChallengesResponse.t) :
  snd (fetchSBCSetChallengeDetails setId reply)
  = [Fetch (CORS_PROXY +:+ FUT_API_URL +:+ "/sbs/setId/" +:+ JS.toString setId
            +:+ "/challenges")]
  ∧ (∀ e, reply = Rejected e →
          fst (fetchSBCSetChallengeDetails setId reply) = Rejected e)
  ∧ (∀ response, reply = Resolved response →
       ∃ details,
         fst (fetchSBCSetChallengeDetails setId reply) = Resolved details
         ∧ Forall2
             (fun challenge d =>
                SBCChallengeDetail.challengeId d = SBCChallenge.challengeId challenge
                ∧ SBCChallengeDetail.name d = SBCChallenge.name challenge
                ∧ SBCChallengeDetail.formation d = SBCChallenge.formation challenge
                ∧ (SBCChallengeDetail.teamRating d = None
                   ↔ ∀ reqs, SBCChallenge.elgReq challenge = Some reqs →
                             Forall (fun req => ¬ is_team_rating req) reqs)
                ∧ (∀ v, SBCChallengeDetail.teamRating d = Some v →
                        ∃ before req after,
                          SBCChallenge.elgReq challenge = Some (before ++ req :: after)
                          ∧ Forall (fun r => ¬ is_team_rating r) before
                          ∧ is_team_rating req
                          ∧ SBCChallengeEligibility.eligibilityValue req = v))
             (default [] (SBCChallengesResponse.challenges response)) details).
Proof.
  unfold fetchSBCSetChallengeDetails, fetchSBCChallenges, corsRequest.
  split; [by destruct reply|]. split; [by intros e ->|].
  intros response ->. eexists. split; [reflexivity|].
  induction (default [] (SBCChallengesResponse.challenges response))
    as [|challenge challenges IH]; simpl; constructor; [|done].
  unfold challenge_detail. simpl. split; [done|]. split; [done|]. split; [done|].
  destruct (SBCChallenge.elgReq challenge) as [reqs|]; simpl.
  - destruct (List.find _ reqs) as [req|] eqn:Hfind; simpl.
    + apply find_first in Hfind as (before & after & -> & Hreq & Hbefore).
      apply is_team_rating_eqb in Hreq. split.
      * split; [done|]. intros Hnone. specialize (Hnone _ eq_refl).
        apply Forall_app in Hnone as [_ Hnone]. by inversion Hnone.
      * intros v [= <-]. exists before, req, after. repeat split; try done.
        eapply Forall_impl; [exact Hbefore|]. intros r Hr Hteam.
        apply is_team_rating_eqb in Hteam. congruence.
    + apply find_None_Forall in Hfind. split; [|done]. split; [|done].
      intros _ reqs' [= <-]. eapply Forall_impl; [exact Hfind|].
      intros r Hr Hteam. apply is_team_rating_eqb in Hteam. congruence.
  - split; [|done]. split; [|done]. by intros _ reqs.
Qed.

Example challenge_details_sample :
  fst (fetchSBCSetChallengeDetails 42
         (Resolved (SBCChallengesResponse.mk
            (Some [ SBCChallenge.mk 1 "Born Legend" "f4231" "" "NOT_STARTED"
                      (Some [ SBCChallengeEligibility.mk "PLAYER_COUNT" 1 0 11;
                              SBCChallengeEligibility.mk "TEAM_RATING_1_TO_100" 2 0 84;
                              SBCChallengeEligibility.mk "TEAM_RATING_1_TO_100" 3 0 90 ]);
                    SBCChallenge.mk 2 "Rising Star" "f442" "" "NOT_STARTED" None ]))))
  = Resolved [ SBCChallengeDetail.mk 1 "Born Legend" "f4231" (Some 84);
               SBCChallengeDetail.mk 2 "Rising Star" "f442" None ].
Proof. reflexivity. Qed.

(** ** The normalizer, in general *)

Lemma warning_of_length (w : ItemsWorld) (sid : string) (src : Source) :
  length (warning_of w sid src) = if source_failed w sid src then 1%nat else 0%nat.
Proof. unfold warning_of, source_failed. by destruct (fetched w sid src). Qed.

(** X11.  With the reference data loaded [processPlayers] always resolves,
    however many item sources fail: the warnings are those of the failed
    sources, one each, in the order in which the fetches settled; with all
    three sources down the result is no player and three warnings, with none
    down it has no warning. *)
Theorem processPlayers_one_warning_per_failure (sw : StaticWorld) (w : ItemsWorld)
    (sid : string) (st st0 : ModuleState) (ev0 : list Event)
    (staticData : CachedData.t) :
  fetchStaticData sw st = (Resolved staticData, st0, ev0) →
  Permutation (settle_order w) all_sources →
  ∃ result,
    processPlayers sw w sid st = (Resolved result, st0)
    ∧ FetchResult.warnings result = flat_map (warning_of w sid) (settle_order w)
    ∧ Permutation (FetchResult.warnings result)
        (flat_map (warning_of w sid) all_sources)
    ∧ length (FetchResult.warnings result)
      = length (List.filter (source_failed w sid) all_sources)
    ∧ (Forall (fun src => source_failed w sid src = true) all_sources →
       FetchResult.players result = [] ∧ length (FetchResult.warnings result) = 3%nat)
    ∧ (Forall (fun src => source_failed w sid src = false) all_sources →
       FetchResult.warnings result = []).
Proof.
  intros Hstatic Hperm. exists (processPlayers_with staticData w sid).
  split; [unfold processPlayers; by rewrite Hstatic|].
  pose proof (processPlayers_with_warnings staticData w sid) as Hw.
  assert (Permutation (FetchResult.warnings (processPlayers_with staticData w sid))
            (flat_map (warning_of w sid) all_sources)) as Hp
    by (by rewrite Hw, Hperm).
  assert (length (FetchResult.warnings (processPlayers_with staticData w sid))
          = length (List.filter (source_failed w sid) all_sources)) as Hlen.
  { rewrite (Permutation_length Hp). unfold all_sources. simpl.
    rewrite !length_app, !warning_of_length. simpl.
    by destruct (source_failed w sid TradePile), (source_failed w sid StoragePile),
         (source_failed w sid DuplicatedItems). }
  split; [done|]. split; [done|]. split; [done|]. split.
  - intros Hall. rewrite Hlen. rewrite filter_all by done. split; [|done].
    rewrite processPlayers_with_players.
    assert (∀ src, records_of staticData w sid src = []) as Hrec.
    { intros src. rewrite Forall_forall in Hall.
      assert (In src all_sources) as Hin by (destruct src; simpl; tauto).
      apply list_elem_of_In, Hall in Hin. unfold source_failed in Hin.
      unfold records_of. by destruct (fetched w sid src). }
    by rewrite !Hrec.
  - intros Hnone. apply length_zero_iff_nil. rewrite Hlen.
    apply Forall_cons_1 in Hnone as [H1 Hnone].
    apply Forall_cons_1 in Hnone as [H2 Hnone].
    apply Forall_cons_1 in Hnone as [H3 _].
    simpl. by rewrite H1, H2, H3.
Qed.

Lemma processPlayers_one_warning_per_failure_witness :
  let down := {| tradepile := fun _ _ => Rejected "offline";
                 storagepile := fun _ _ => Rejected "offline";
                 purchased := fun _ _ => Rejected "offline";
                 settle_order := [StoragePile; DuplicatedItems; TradePile] |} in
  ∃ result,
    fst (processPlayers sample_static_world down "sid" initial_state) = Resolved result
    ∧ FetchResult.players result = []
    ∧ FetchResult.warnings result
      = [ "Storage failed after 3 retries: offline";
          "Duplicated items failed: offline";
          "Trade pile failed: offline" ].
Proof.
  intros down.
  destruct (processPlayers_one_warning_per_failure sample_static_world down "sid"
              initial_state
              (snd (fst (fetchStaticData sample_static_world initial_state)))
              (snd (fetchStaticData sample_static_world initial_state))
              (CachedData.mk ∅ ∅ ∅ ∅) eq_refl)
    as (result & Hcall & Hwarn & _ & _ & Hall & _).
  - apply perm_trans with [StoragePile; TradePile; DuplicatedItems];
      [apply perm_skip, perm_swap|apply perm_swap].
  - exists result. split; [by rewrite Hcall|]. split.
    + apply Hall. repeat constructor.
    + rewrite Hwarn. reflexivity.
Defined.

(** X12.  The players of [processPlayers] are the items of the trade pile,
    then those of the storage, then the duplicates, each source in the order
    it was delivered; every record keeps its item's asset id, rating and
    nation, league and team ids, and is tagged Transfer, Storage or
    Duplicated after its source. *)
Theorem processPlayers_order_and_tags (staticData : CachedData.t) (w : ItemsWorld)
    (sid : string) :
  let key := fun p =>
    (ProcessedPlayer.assetId p, ProcessedPlayer.rating p, ProcessedPlayer.nationId p,
     ProcessedPlayer.leagueId p, ProcessedPlayer.teamId p, ProcessedPlayer.type p) in
  let tagged := fun src =>
    map (fun item =>
           (PlayerItem.assetId item, PlayerItem.rating item, PlayerItem.nation item,
            PlayerItem.leagueId item, PlayerItem.teamid item, category src))
      (items_of w sid src) in
  map key (FetchResult.players (processPlayers_with staticData w sid))
  = tagged TradePile ++ tagged StoragePile ++ tagged DuplicatedItems
  ∧ length (FetchResult.players (processPlayers_with staticData w sid))
    = (length (items_of w sid TradePile) + length (items_of w sid StoragePile)
       + length (items_of w sid DuplicatedItems))%nat.
Proof.
  intros key tagged.
  assert (∀ src, map key (records_of staticData w sid src) = tagged src) as Hsrc.
  { intros src. unfold records_of, tagged, items_of.
    destruct (fetched w sid src) as [items|e]; [|done].
    rewrite map_map. by apply map_ext. }
  rewrite processPlayers_with_players. split.
  - by rewrite !map_app, !Hsrc.
  - rewrite !length_app.
    rewrite <- !(length_map key), !Hsrc. unfold tagged.
    rewrite !length_map. lia.
Qed.

(** ** Positions, from the item to the filter *)

(** X13.  For an item with position codes (not the empty list, not a single
    empty code, no code with a blank), splitting the normalized position
    string gives the codes back, so the position test of the filter accepts
    the record exactly when one of its codes is selected; an item without
    position codes is recorded as "Unknown" and is accepted by no selection
    made from [ALL_POSITIONS]. *)
Theorem position_codes_reach_the_filter (staticData : CachedData.t)
    (type : PlayerType) (item : PlayerItem.t) (allowed : list string) :
  let position := ProcessedPlayer.position (processItem staticData type item) in
  let accepted :=
    existsb (fun pos => JS.includes (JS.split " / " position) pos) allowed in
  (∀ codes, PlayerItem.possiblePositions item = Some codes →
            codes ≠ [] → codes ≠ [""] → Forall no_blank codes →
            JS.split " / " position = codes
            ∧ (accepted = true ↔ ∃ pos, pos ∈ codes ∧ pos ∈ allowed))
  ∧ (PlayerItem.possiblePositions item = None
     ∨ PlayerItem.possiblePositions item = Some [] →
     JS.split " / " position = ["Unknown"]
     ∧ (allowed ⊆ ALL_POSITIONS → accepted = false)).
Proof.
  intros position accepted. split.
  - intros codes Hcodes Hne Hne' Hblank.
    assert (position = JS.join " / " codes) as Hpos.
    { unfold position. simpl. rewrite Hcodes. simpl. unfold JS.or_else.
      destruct (JS.join " / " codes) eqn:Hjoin; [|done].
      apply join_empty in Hjoin as [|]; done. }
    assert (JS.split " / " position = codes) as Hsplit
      by (rewrite Hpos; by apply split_join).
    split; [done|]. unfold accepted. by rewrite some_position, Hsplit.
  - intros Hnone.
    assert (position = "Unknown") as Hpos
      by (unfold position; simpl; by destruct Hnone as [-> | ->]).
    rewrite Hpos. split; [reflexivity|].
    intros Hsub. unfold accepted. rewrite Hpos.
    apply not_true_is_false. rewrite some_position.
    intros (pos & Hunk & Hin).
    change (JS.split " / " "Unknown") with ["Unknown"] in Hunk.
    apply list_elem_of_singleton in Hunk as ->.
    apply Hsub in Hin. unfold ALL_POSITIONS in Hin.
    repeat (apply elem_of_cons in Hin as [Hin|Hin]; [discriminate|]).
    by apply elem_of_nil in Hin.
Qed.

(** ** Counting cards *)

Lemma fold_left_Zsum {A} (f : A → Z) (l : list A) (a : Z) :
  fold_left (fun sum x => sum + f x) l a = a + Zsum (map f l).
Proof.
  revert a. induction l as [|x l IH]; intros a; simpl; [lia|]. rewrite IH. lia.
Qed.

Lemma Zsum_app (l1 l2 : list Z) : Zsum (l1 ++ l2) = Zsum l1 + Zsum l2.
Proof. induction l1 as [|x l1 IH]; simpl; [done|]. rewrite IH. lia. Qed.

Lemma copies_update (m : list (string * AggregatedPlayer.t)) (k : string)
    (type : PlayerType) :
  is_Some (StrMap.get m k) →
  Zsum (map (fun kv => AggregatedPlayer.copies (snd kv))
          (StrMap.update m k (add_copy type)))
  = Zsum (map (fun kv => AggregatedPlayer.copies (snd kv)) m) + 1.
Proof.
  induction m as [|[k' e] m IH]; simpl; [by intros [? ?]|].
  destruct (String.eqb k' k); simpl; [lia|].
  intros H. rewrite IH by done. lia.
Qed.

Lemma copies_set (m : list (string * AggregatedPlayer.t)) (k : string)
    (e : AggregatedPlayer.t) :
  StrMap.get m k = None →
  Zsum (map (fun kv => AggregatedPlayer.copies (snd kv)) (StrMap.set m k e))
  = Zsum (map (fun kv => AggregatedPlayer.copies (snd kv)) m)
    + AggregatedPlayer.copies e.
Proof.
  induction m as [|[k' e'] m IH]; simpl; [lia|].
  destruct (String.eqb k' k); simpl; [done|].
  intros H. rewrite IH by done. lia.
Qed.

Lemma aggregate_fold_copies (players : list ProcessedPlayer.t) :
  Zsum (map (fun kv => AggregatedPlayer.copies (snd kv))
          (fold_left aggregate_step players []))
  = Z.of_nat (length players).
Proof.
  induction players as [|p players IH] using rev_ind; [done|].
  rewrite fold_left_app, length_app. simpl.
  set (m := fold_left aggregate_step players []) in *. clearbody m.
  unfold aggregate_step.
  destruct (StrMap.get m (key_of p)) as [e|] eqn:Hget.
  - rewrite copies_update by (by rewrite Hget). lia.
  - rewrite copies_set by done. simpl. lia.
Qed.

Lemma aggregate_copies_positive (players : list ProcessedPlayer.t) :
  Forall (fun e => 1 ≤ AggregatedPlayer.copies e) (aggregatedPlayers players).
Proof.
  destruct (aggregate_fold_inv players) as (_ & _ & Hok).
  unfold aggregatedPlayers, StrMap.values. rewrite Forall_map.
  eapply Forall_impl; [exact Hok|]. intros [k e] (Hhd & Hcopies & _). simpl in *.
  rewrite Hcopies. destruct (List.filter _ players); [done|]. simpl. lia.
Qed.

Lemma duplicates_unique_total (l : list AggregatedPlayer.t) :
  Forall (fun e => 1 ≤ AggregatedPlayer.copies e) l →
  uniquePlayersCount l + duplicatesCount l = totalCardsCount l.
Proof.
  unfold uniquePlayersCount, duplicatesCount, totalCardsCount.
  rewrite !fold_left_Zsum.
  induction 1 as [|e l He Hl IH]; simpl; [done|].
  destruct (Z.ltb_spec 1 (AggregatedPlayer.copies e)); simpl; lia.
Qed.

Lemma aggregated_card_count (players : list ProcessedPlayer.t) :
  let out := aggregatedPlayers players in
  totalCardsCount out = Z.of_nat (length players)
  ∧ Forall (fun e => 1 ≤ AggregatedPlayer.copies e) out
  ∧ uniquePlayersCount out + duplicatesCount out = totalCardsCount out
  ∧ (length out ≤ length players)%nat
  ∧ (out = [] ↔ players = []).
Proof.
  intros out.
  assert (totalCardsCount out = Z.of_nat (length players)) as Htotal.
  { unfold totalCardsCount. rewrite fold_left_Zsum.
    unfold out, aggregatedPlayers, StrMap.values. rewrite map_map.
    rewrite aggregate_fold_copies. lia. }
  pose proof (aggregate_copies_positive players) as Hpos. fold out in Hpos.
  pose proof (duplicates_unique_total out Hpos) as Hsum.
  split; [done|]. split; [done|]. split; [done|].
  assert (Z.of_nat (length out) ≤ Z.of_nat (length players)) as Hle.
  { rewrite <- Htotal, <- Hsum. unfold duplicatesCount, uniquePlayersCount.
    rewrite fold_left_Zsum.
    assert (0 ≤ Zsum (map (fun p => AggregatedPlayer.copies p - 1)
                        (List.filter (fun p => 1 <? AggregatedPlayer.copies p) out)))
      as Hnonneg.
    { clear. induction out as [|e l IH]; simpl; [done|].
      destruct (Z.ltb_spec 1 (AggregatedPlayer.copies e)); simpl; lia. }
    lia. }
  split; [lia|]. split.
  - intros Hnil. rewrite Hnil in Htotal. destruct players; [done|]. simpl in Htotal.
    unfold totalCardsCount in Htotal. simpl in Htotal. lia.
  - by intros ->.
Qed.

(** X15.  The aggregation key tells cards apart exactly by asset id and
    rating: two records get the same key [`${assetId}-${rating}`] only if
    both numbers are the same, negative numbers included. *)
Theorem aggregation_key_separates_cards (p q : ProcessedPlayer.t) :
  key_of p = key_of q
  ↔ ProcessedPlayer.assetId p = ProcessedPlayer.assetId q
    ∧ ProcessedPlayer.rating p = ProcessedPlayer.rating q.
Proof.
  rewrite key_of_inj. unfold identity. split.
  - by intros [= -> ->].
  - by intros [-> ->].
Qed.

(** ** The charts *)

Lemma count_of_add_count (counts : TypeCounts.t) (t T : PlayerType) (n : Z) :
  count_of (add_count counts t n) T
  = count_of counts T + (if bool_decide (t = T) then n else 0).
Proof. destruct t, T; simpl; lia. Qed.

Lemma count_of_types (ts : list PlayerType) (counts : TypeCounts.t) (T : PlayerType)
    (n : Z) :
  NoDup ts →
  count_of (fold_left (fun counts type => add_count counts type n) ts counts) T
  = count_of counts T + (if includes_type ts T then n else 0).
Proof.
  unfold includes_type. intros Hnd. revert counts.
  induction Hnd as [|t ts Hnotin Hnd IH]; intros counts; simpl; [lia|].
  rewrite IH, count_of_add_count.
  destruct (decide (t = T)) as [->|Hne].
  - rewrite bool_decide_eq_true_2 by done.
    rewrite (bool_decide_eq_false_2 (T ∈ ts)) by done.
    rewrite (bool_decide_eq_true_2 (T ∈ T :: ts)) by (by left). lia.
  - rewrite (bool_decide_eq_false_2 (t = T)) by done.
    destruct (decide (T ∈ ts)) as [Hin|Hnin].
    + rewrite (bool_decide_eq_true_2 (T ∈ ts)) by done.
      rewrite (bool_decide_eq_true_2 (T ∈ t :: ts)) by (by right). lia.
    + rewrite (bool_decide_eq_false_2 (T ∈ ts)) by done.
      rewrite (bool_decide_eq_false_2 (T ∈ t :: ts)); [lia|].
      rewrite elem_of_cons. intros [?|?]; congruence.
Qed.

Lemma typeCounts_formula (l : list AggregatedPlayer.t) (T : PlayerType) :
  Forall (fun e => NoDup (AggregatedPlayer.types e)) l →
  count_of (typeCounts l) T
  = Zsum (map (fun e => if includes_type (AggregatedPlayer.types e) T
                        then AggregatedPlayer.copies e else 0) l).
Proof.
  unfold typeCounts. intros Hnd.
  enough (∀ counts,
    count_of
      (fold_left
         (fun counts p =>
            fold_left (fun counts type => add_count counts type (AggregatedPlayer.copies p))
              (AggregatedPlayer.types p) counts) l counts) T
    = count_of counts T
      + Zsum (map (fun e => if includes_type (AggregatedPlayer.types e) T
                            then AggregatedPlayer.copies e else 0) l)) as H.
  { rewrite H. simpl. destruct T; simpl; lia. }
  induction Hnd as [|e l He Hl IH]; intros counts; simpl; [lia|].
  rewrite IH, count_of_types by done. lia.
Qed.

Lemma Zsum_le {A} (f g : A → Z) (l : list A) :
  Forall (fun x => f x ≤ g x) l → Zsum (map f l) ≤ Zsum (map g l).
Proof. induction 1 as [|x l Hx Hl IH]; simpl; lia. Qed.

Lemma Zsum_indicator (keys : list (Z * Z)) (x : Z * Z) :
  NoDup keys →
  Zsum (map (fun i => if bool_decide (x = i) then 1 else 0) keys)
  = if bool_decide (x ∈ keys) then 1 else 0.
Proof.
  induction 1 as [|a l Hnotin Hnd IH]; simpl; [done|].
  rewrite IH. destruct (decide (x = a)) as [->|Hne].
  - rewrite bool_decide_eq_true_2 by done.
    rewrite (bool_decide_eq_false_2 (a ∈ l)) by done.
    rewrite (bool_decide_eq_true_2 (a ∈ a :: l)) by (by left). done.
  - rewrite (bool_decide_eq_false_2 (x = a)) by done.
    destruct (decide (x ∈ l)) as [Hin|Hnin].
    + rewrite (bool_decide_eq_true_2 (x ∈ l)) by done.
      rewrite (bool_decide_eq_true_2 (x ∈ a :: l)) by (by right). done.
    + rewrite (bool_decide_eq_false_2 (x ∈ l)) by done.
      rewrite (bool_decide_eq_false_2 (x ∈ a :: l)); [done|].
      rewrite elem_of_cons. intros [?|?]; congruence.
Qed.

Lemma Zsum_map_add {A} (f g : A → Z) (l : list A) :
  Zsum (map (fun x => f x + g x) l) = Zsum (map f l) + Zsum (map g l).
Proof. induction l as [|x l IH]; simpl; lia. Qed.

(** Every record falls under exactly one identity of a duplicate-free list
    that covers them all. *)
Lemma partition_by_identity (keys : list (Z * Z)) (P : ProcessedPlayer.t → bool)
    (players : list ProcessedPlayer.t) :
  NoDup keys → (∀ p, p ∈ players → identity p ∈ keys) →
  Zsum (map (fun i =>
               Z.of_nat (length (List.filter (fun p => same_identity i p && P p) players)))
          keys)
  = Z.of_nat (length (List.filter P players)).
Proof.
  intros Hnd. induction players as [|p players IH]; intros Hcover.
  - simpl. clear. induction keys as [|i keys IH]; simpl; lia.
  - rewrite (map_ext _
      (fun i =>
         (if bool_decide (identity p = i) then (if P p then 1 else 0) else 0)
         + Z.of_nat (length (List.filter (fun q => same_identity i q && P q) players)))).
    2:{ intros i. simpl. unfold same_identity at 1.
        destruct (bool_decide (identity p = i)), (P p); simpl; lia. }
    rewrite Zsum_map_add, IH by (intros q Hq; apply Hcover; by right).
    rewrite (map_ext _
      (fun i => (if P p then 1 else 0) * (if bool_decide (identity p = i) then 1 else 0)))
      by (intros i; destruct (bool_decide (identity p = i)), (P p); lia).
    assert (∀ c (f : Z * Z → Z) l, Zsum (map (fun i => c * f i) l) = c * Zsum (map f l))
      as Hscale by (intros c f l; induction l as [|? ? IHl]; simpl; lia).
    rewrite Hscale, (Zsum_indicator keys (identity p) Hnd).
    rewrite bool_decide_eq_true_2 by (apply Hcover; by left).
    simpl. destruct (P p); simpl; lia.
Qed.

Lemma filter_filter_andb {A} (f g : A → bool) (l : list A) :
  List.filter g (List.filter f l) = List.filter (fun x => f x && g x) l.
Proof.
  induction l as [|x l IH]; simpl; [done|].
  destruct (f x); simpl; [|done]. destruct (g x); by rewrite IH.
Qed.

Lemma aggregated_type_counts (players : list ProcessedPlayer.t) (T : PlayerType) :
  let out := aggregatedPlayers players in
  count_of (typeCounts out) T
  = Zsum (map AggregatedPlayer.copies
            (List.filter (fun e => includes_type (AggregatedPlayer.types e) T) out))
  ∧ Z.of_nat (length (List.filter (has_type T) players)) ≤ count_of (typeCounts out) T
  ∧ count_of (typeCounts out) T ≤ Z.of_nat (length players).
Proof.
  intros out.
  destruct (aggregate_fold_inv players) as (Hids & _ & Hok).
  set (m := fold_left aggregate_step players []) in *.
  assert (out = map snd m) as Hout by done.
  assert (Forall (entry_ok players) out) as Hentries
    by (rewrite Hout, Forall_map; exact Hok).
  assert (Forall (fun e => NoDup (AggregatedPlayer.types e)) out) as Hnd.
  { eapply Forall_impl; [exact Hentries|]. intros e (_ & _ & Htypes).
    rewrite Htypes. apply first_seen_NoDup. }
  rewrite (typeCounts_formula out T Hnd).
  split; [|split].
  - clear. induction out as [|e out IH]; simpl; [done|].
    destruct (includes_type _ T); simpl; lia.
  - rewrite <- (partition_by_identity (ids m) (has_type T) players).
    + unfold ids. rewrite Hout, !map_map. apply Zsum_le.
      rewrite Forall_forall in Hok |- *. intros [k e] Hin. simpl.
      destruct (Hok _ Hin) as (_ & Hcopies & Htypes). simpl in *.
      rewrite <- filter_filter_andb.
      set (same := List.filter (same_identity (identity (AggregatedPlayer.player e)))
                     players) in *.
      unfold includes_type.
      destruct (decide (T ∈ AggregatedPlayer.types e)) as [Hin'|Hnin].
      * rewrite bool_decide_eq_true_2 by done. rewrite Hcopies.
        apply inj_le, filter_length_le.
      * rewrite bool_decide_eq_false_2 by done.
        destruct (List.filter (has_type T) same) as [|q l'] eqn:Hf; [done|].
        exfalso. apply Hnin. rewrite Htypes, first_seen_elem_of.
        assert (q ∈ List.filter (has_type T) same) as Hq by (rewrite Hf; by left).
        apply elem_of_List_filter in Hq as [Hq Hty].
        apply bool_decide_eq_true in Hty. rewrite <- Hty.
        apply list_elem_of_In, in_map. by apply list_elem_of_In.
    + rewrite Hids. apply first_seen_NoDup.
    + intros p Hp. rewrite Hids, first_seen_elem_of.
      apply list_elem_of_In, in_map. by apply list_elem_of_In.
  - rewrite <- (aggregate_fold_copies players). fold m.
    rewrite Hout, map_map. apply Zsum_le.
    rewrite Forall_forall in Hok |- *. intros [k e] Hin. simpl.
    destruct (Hok _ Hin) as (_ & Hcopies & _). simpl in *.
    destruct (includes_type _ T); lia.
Qed.

Example type_chart_sample :
  let counts := typeCounts (aggregatedPlayers sample_players) in
  (count_of counts Transfer, count_of counts Storage, count_of counts Duplicated,
   length (List.filter (has_type Transfer) sample_players),
   length sample_players)
  = (3, 2, 4, 2%nat, 6%nat).
Proof. vm_compute. reflexivity. Qed.

(** X17.  The three counts of the rating chart add up to the number of
    entries rated from 0 to 99: each such entry falls in exactly one range,
    and an entry rated above 99 or below 0 is counted in none, so the total
    is the number of entries exactly when all ratings lie in 0..99. *)
Theorem rating_chart_total (players : list AggregatedPlayer.t) :
  counts_total (ratingCounts players)
  = Z.of_nat
      (length (List.filter
                 (fun p => (0 <=? AggregatedPlayer.rating p)
                           && (AggregatedPlayer.rating p <=? 99)) players))
  ∧ (counts_total (ratingCounts players) = Z.of_nat (length players)
     ↔ Forall (fun p => 0 ≤ AggregatedPlayer.rating p ≤ 99) players)
  ∧ Forall (fun count => 0 ≤ count) (ratingCounts players).
Proof.
  assert (counts_total (ratingCounts players)
          = Z.of_nat
              (length (List.filter
                         (fun p => (0 <=? AggregatedPlayer.rating p)
                                   && (AggregatedPlayer.rating p <=? 99)) players)))
    as Htotal.
  { unfold counts_total, ratingCounts, rating_ranges. simpl.
    induction players as [|p players IH]; simpl; [done|].
    repeat match goal with
           | |- context [Z.leb ?a ?b] => destruct (Z.leb_spec a b)
           end; simpl in *; lia. }
  split; [done|]. rewrite Htotal. clear Htotal. split; [split|].
  - induction players as [|p players IH]; simpl; [constructor|].
    pose proof (filter_length_le
                  (fun p => (0 <=? AggregatedPlayer.rating p)
                            && (AggregatedPlayer.rating p <=? 99)) players) as Hle.
    destruct (Z.leb_spec 0 (AggregatedPlayer.rating p)),
      (Z.leb_spec (AggregatedPlayer.rating p) 99); simpl; intros Hlen;
      try lia.
    constructor; [lia|]. apply IH. lia.
  - intros Hall. f_equal. f_equal. apply filter_all.
    eapply Forall_impl; [exact Hall|]. intros p [? ?].
    apply andb_true_iff. split; by apply Z.leb_le.
  - unfold ratingCounts. apply Forall_map. apply Forall_forall. intros; lia.
Qed.

(** ** What the page shows *)

Lemma displayed_stored (filters : FilterState.t) (players : list ProcessedPlayer.t)
    (σ : Store) (a : nat) :
  σ !! a = Some (aggregatedPlayers players) →
  snd (filteredPlayers filters a σ) !! fst (filteredPlayers filters a σ)
  = Some (displayed filters players).
Proof.
  intros Ha. rewrite filteredPlayers_eq, Ha. simpl.
  by rewrite lookup_app_r, Nat.sub_diag.
Qed.

Lemma Zsum_perm (l l' : list Z) : Permutation l l' → Zsum l = Zsum l'.
Proof. induction 1; simpl; lia. Qed.

Lemma Zsum_filter_le {A} (f : A → Z) (keep : A → bool) (l : list A) :
  Forall (fun x => 0 ≤ f x) l →
  Zsum (map f (List.filter keep l)) ≤ Zsum (map f l).
Proof.
  induction 1 as [|x l Hx Hl IH]; simpl; [done|].
  destruct (keep x); simpl; lia.
Qed.

Lemma displayed_Zsum (f : AggregatedPlayer.t → Z) (filters : FilterState.t)
    (players : list ProcessedPlayer.t) :
  Zsum (map f (displayed filters players))
  = Zsum (map f (List.filter (passes filters) (aggregatedPlayers players))).
Proof. apply Zsum_perm, Permutation_map, sort_perm. Qed.

Lemma displayed_Forall (P : AggregatedPlayer.t → Prop) (filters : FilterState.t)
    (players : list ProcessedPlayer.t) :
  Forall P (aggregatedPlayers players) → Forall P (displayed filters players).
Proof.
  intros H. unfold displayed.
  eapply Permutation_Forall; [symmetry; apply sort_perm|].
  rewrite Forall_forall in H |- *. intros e He.
  apply elem_of_List_filter in He as [He _]. by apply H.
Qed.

(** X14.  The counters of the page never show more cards than were loaded:
    over the displayed entries, unique players + duplicates = total cards,
    every entry stands for at least one copy, and the total is at most the
    number of records; when the filter lets every entry through, and in
    particular over the aggregated list itself, the total is exactly the
    number of records. *)
Theorem counters_account_for_every_card (filters : FilterState.t)
    (players : list ProcessedPlayer.t) :
  let shown := displayed filters players in
  uniquePlayersCount shown + duplicatesCount shown = totalCardsCount shown
  ∧ Forall (fun e => 1 ≤ AggregatedPlayer.copies e) shown
  ∧ totalCardsCount shown ≤ Z.of_nat (length players)
  ∧ (Forall (fun e => passes filters e = true) (aggregatedPlayers players) →
     totalCardsCount shown = Z.of_nat (length players))
  ∧ totalCardsCount (aggregatedPlayers players) = Z.of_nat (length players).
Proof.
  intros shown.
  destruct (aggregated_card_count players) as (Htotal & Hpos & _).
  assert (Forall (fun e => 1 ≤ AggregatedPlayer.copies e) shown) as Hshown
    by (by apply displayed_Forall).
  assert (totalCardsCount shown
          = Zsum (map AggregatedPlayer.copies
                    (List.filter (passes filters) (aggregatedPlayers players))))
    as Hsum.
  { unfold totalCardsCount. rewrite fold_left_Zsum. unfold shown.
    rewrite displayed_Zsum. lia. }
  assert (Zsum (map AggregatedPlayer.copies (aggregatedPlayers players))
          = Z.of_nat (length players)) as Hall.
  { rewrite <- Htotal. unfold totalCardsCount. rewrite fold_left_Zsum. lia. }
  split; [by apply duplicates_unique_total|]. split; [done|]. split; [|split; [|done]].
  - rewrite Hsum, <- Hall. apply Zsum_filter_le.
    eapply Forall_impl; [exact Hpos|]. simpl. intros; lia.
  - intros Hpass. rewrite Hsum, filter_all by done. done.
Qed.

(** X16.  In the chart of cards by location, the count of a category is the
    sum of the copies of the displayed entries that list the category, so an
    entry whose copies lie in several places counts all its copies for each
    of them.  The count never exceeds the number of records, and when the
    filter lets every entry through it is at least the number of records of
    that category. *)
Theorem type_chart_counts (filters : FilterState.t)
    (players : list ProcessedPlayer.t) (T : PlayerType) :
  let shown := displayed filters players in
  count_of (typeCounts shown) T
  = Zsum (map AggregatedPlayer.copies
            (List.filter (fun e => includes_type (AggregatedPlayer.types e) T) shown))
  ∧ count_of (typeCounts shown) T ≤ Z.of_nat (length players)
  ∧ (Forall (fun e => passes filters e = true) (aggregatedPlayers players) →
     Z.of_nat (length (List.filter (has_type T) players))
     ≤ count_of (typeCounts shown) T).
Proof.
  intros shown.
  set (f := fun e => if includes_type (AggregatedPlayer.types e) T
                     then AggregatedPlayer.copies e else 0).
  destruct (aggregate_fold_inv players) as (_ & _ & Hok).
  assert (Forall (fun e => NoDup (AggregatedPlayer.types e) ∧ 0 ≤ f e)
            (aggregatedPlayers players)) as Hagg.
  { unfold aggregatedPlayers, StrMap.values. rewrite Forall_map.
    eapply Forall_impl; [exact Hok|]. intros [k e] (Hhd & Hcopies & Htypes).
    simpl in *. split; [rewrite Htypes; apply first_seen_NoDup|].
    unfold f. destruct (includes_type _ T); lia. }
  assert (count_of (typeCounts shown) T
          = Zsum (map f (List.filter (passes filters) (aggregatedPlayers players))))
    as Hcount.
  { rewrite typeCounts_formula; [apply displayed_Zsum|].
    apply displayed_Forall. eapply Forall_impl; [exact Hagg|]. by intros e [? _]. }
  assert (count_of (typeCounts (aggregatedPlayers players)) T
          = Zsum (map f (aggregatedPlayers players))) as Hfull.
  { apply typeCounts_formula. eapply Forall_impl; [exact Hagg|]. by intros e [? _]. }
  destruct (aggregated_type_counts players T) as (_ & Hlow & Hhigh).
  simpl in Hlow, Hhigh. rewrite Hfull in Hlow, Hhigh.
  split; [|split].
  - rewrite typeCounts_formula
      by (apply displayed_Forall; eapply Forall_impl; [exact Hagg|]; by intros e [? _]).
    fold f. generalize shown. clear. intros l.
    induction l as [|e l IH]; simpl; [done|].
    unfold f at 1. destruct (includes_type _ T); simpl; lia.
  - rewrite Hcount. etrans; [|exact Hhigh]. apply Zsum_filter_le.
    eapply Forall_impl; [exact Hagg|]. by intros e [_ ?].
  - intros Hpass. rewrite Hcount, (filter_all (passes filters)) by done. exact Hlow.
Qed.

(** X18.  With the filters cleared the page shows exactly the aggregated
    entries rated from 47 to 99, best rating first, each card once: an entry
    rated below 47 or above 99 is not shown although no filter is chosen. *)
Theorem cleared_filters_show_47_to_99 (players : list ProcessedPlayer.t) :
  let shown := displayed initial_filters players in
  (∀ e, e ∈ shown
        ↔ e ∈ aggregatedPlayers players ∧ 47 ≤ AggregatedPlayer.rating e ≤ 99)
  ∧ descending shown
  ∧ NoDup (map (fun e => identity (AggregatedPlayer.player e)) shown)
  ∧ (Forall (fun p => 47 ≤ ProcessedPlayer.rating p ≤ 99) players →
     Permutation shown (aggregatedPlayers players)).
Proof.
  intros shown.
  assert (∀ e, passes initial_filters e = true ↔ 47 ≤ AggregatedPlayer.rating e ≤ 99)
    as Hpass.
  { intros e. rewrite passes_Passes. unfold Passes. simpl. split; [tauto|].
    intros H. repeat split; try lia; auto. }
  assert (Permutation shown
            (List.filter (passes initial_filters) (aggregatedPlayers players)))
    as Hperm by apply sort_perm.
  destruct (aggregate_fold_inv players) as (Hids & _ & Hok).
  split; [|split; [|split]].
  - intros e. by rewrite Hperm, elem_of_List_filter, Hpass.
  - apply (sort_desc _ _ by_rating_key).
  - apply NoDup_ListNoDup.
    eapply Permutation_NoDup; [symmetry; apply Permutation_map, Hperm|].
    apply NoDup_ListNoDup.
    assert (NoDup (map (fun e => identity (AggregatedPlayer.player e))
                     (aggregatedPlayers players))) as Hnd.
    { unfold aggregatedPlayers, StrMap.values. rewrite map_map.
      change (NoDup (ids (fold_left aggregate_step players []))).
      rewrite Hids. apply first_seen_NoDup. }
    revert Hnd. generalize (aggregatedPlayers players). intros l.
    induction l as [|e l IH]; simpl; [done|]. rewrite NoDup_cons. intros [Hnotin Hnd].
    destruct (passes initial_filters e); simpl; [|by apply IH].
    apply NoDup_cons. split; [|by apply IH]. intros Hin. apply Hnotin.
    apply list_elem_of_In, in_map_iff in Hin as (e' & Heq & Hin').
    apply list_elem_of_In, elem_of_List_filter in Hin' as [Hin' _].
    rewrite <- Heq. apply list_elem_of_In.
    apply (in_map (fun e => identity (AggregatedPlayer.player e))).
    by apply list_elem_of_In.
  - intros Hrange. rewrite Hperm, filter_all; [done|].
    unfold aggregatedPlayers, StrMap.values. rewrite Forall_map.
    rewrite Forall_forall in Hok. rewrite Forall_forall in Hrange.
    rewrite Forall_forall. intros [k e] Hin.
    destruct (Hok _ Hin) as (Hhd & _). simpl in *. apply Hpass.
    unfold AggregatedPlayer.rating. apply Hrange.
    apply head_Some_elem_of in Hhd. by apply elem_of_List_filter in Hhd as [? _].
Qed.

(** ** The top lists *)

Section TopStatsFacts.
Variable name_of : AggregatedPlayer.t → string.
Variable img_of : AggregatedPlayer.t → option string.

Lemma StrMap_set_present {V} (m : list (string * V)) (k : string) (d0 : V)
    (f : V → V) :
  is_Some (StrMap.get m k) →
  StrMap.set m k (f (default d0 (StrMap.get m k))) = StrMap.update m k f.
Proof.
  induction m as [|[k' v'] m IH]; simpl; [by intros [? ?]|].
  destruct (String.eqb k' k); [done|]. intros H. by rewrite IH.
Qed.

Lemma StrMap_get_None_inv {V} (m : list (string * V)) (k : string) :
  StrMap.get m k = None → k ∉ map fst m.
Proof.
  intros Hget Hin. apply StrMap_get_is_Some in Hin as [v Hv]. congruence.
Qed.

Lemma StrMap_get_Some_inv {V} (m : list (string * V)) (k : string) :
  is_Some (StrMap.get m k) → k ∈ map fst m.
Proof.
  intros [v Hv]. destruct (decide (k ∈ map fst m)) as [|Hnotin]; [done|].
  apply StrMap_get_None in Hnotin. congruence.
Qed.

(** One iteration, by cases on whether the name was counted before. *)
Lemma count_step_cases (m : list (string * CountData.t)) (p : AggregatedPlayer.t) :
  NoDup (map fst m) →
  count_step name_of img_of m p
  = if decide (name_of p ∈ map fst m)
    then map (fun kv =>
                if String.eqb (fst kv) (name_of p)
                then (fst kv, CountData.mk (CountData.count (snd kv) + 1)
                                (CountData.imgUrl (snd kv)))
                else kv) m
    else m ++ [(name_of p, CountData.mk 1 (img_of p))].
Proof.
  intros Hnd. unfold count_step.
  destruct (decide (name_of p ∈ map fst m)) as [Hin|Hnotin].
  - rewrite <- (StrMap_update_NoDup m (name_of p)
                  (fun d => CountData.mk (CountData.count d + 1) (CountData.imgUrl d)))
      by done.
    apply (StrMap_set_present m (name_of p) (CountData.mk 0 (img_of p))
             (fun d => CountData.mk (CountData.count d + 1) (CountData.imgUrl d))).
    by apply StrMap_get_is_Some.
  - rewrite (StrMap_get_None m (name_of p)) by done. simpl.
    by apply StrMap_set_fresh.
Qed.

Lemma named_snoc (name : string) (seen : list AggregatedPlayer.t)
    (p : AggregatedPlayer.t) :
  named name_of name (seen ++ [p])
  = named name_of name seen ++ (if String.eqb (name_of p) name then [p] else []).
Proof. unfold named. by rewrite List.filter_app. Qed.

Lemma named_nil (name : string) (seen : list AggregatedPlayer.t) :
  name ∉ map name_of seen → named name_of name seen = [].
Proof.
  induction seen as [|q seen IH]; simpl; [done|].
  rewrite not_elem_of_cons. intros [Hne Hnotin].
  destruct (String.eqb_spec (name_of q) name); [congruence|auto].
Qed.

Lemma count_fold_inv (l : list AggregatedPlayer.t) :
  let m := fold_left (count_step name_of img_of) l [] in
  map fst m = first_seen (map name_of l)
  ∧ Forall (fun kv =>
              count_ok name_of img_of l (fst kv) (CountData.count (snd kv))
                (CountData.imgUrl (snd kv))) m.
Proof.
  induction l as [|p l IH] using rev_ind; [by split; constructor|].
  simpl in *. rewrite fold_left_app. simpl.
  set (m := fold_left (count_step name_of img_of) l []) in *.
  destruct IH as [Hkeys Hok].
  assert (NoDup (map fst m)) as Hnd by (rewrite Hkeys; apply first_seen_NoDup).
  rewrite count_step_cases by done.
  rewrite map_app. simpl. rewrite first_seen_snoc.
  assert (name_of p ∈ map fst m ↔ name_of p ∈ map name_of l) as Hin
    by (by rewrite Hkeys, first_seen_elem_of).
  destruct (decide (name_of p ∈ map fst m)) as [Hyes|Hno].
  - rewrite decide_True by (by apply Hin). split.
    + rewrite <- Hkeys, map_map. apply map_ext. intros [k d]. simpl.
      by destruct (String.eqb k (name_of p)).
    + rewrite Forall_map. eapply Forall_impl; [exact Hok|].
      intros [k d] (Hcount & first & Hfirst & Himg). simpl in *.
      destruct (String.eqb_spec k (name_of p)) as [->|Hne]; simpl;
        unfold count_ok; rewrite named_snoc.
      * rewrite String.eqb_refl.
        split; [rewrite length_app, Hcount; simpl; lia|].
        exists first. split; [|done].
        by destruct (named name_of (name_of p) l).
      * rewrite (proj2 (String.eqb_neq (name_of p) k)) by congruence.
        rewrite app_nil_r. split; [done|]. by exists first.
  - rewrite decide_False by (by rewrite <- Hin). split.
    + by rewrite map_app, Hkeys.
    + apply Forall_app. split.
      * rewrite Forall_forall in Hok |- *. intros [k d] Hkd.
        destruct (Hok _ Hkd) as (Hcount & first & Hfirst & Himg). simpl in *.
        unfold count_ok. rewrite named_snoc.
        destruct (String.eqb_spec (name_of p) k) as [Heq|Hne].
        -- exfalso. apply Hno. rewrite Heq.
           apply list_elem_of_In, (in_map fst) in Hkd. by apply list_elem_of_In.
        -- rewrite app_nil_r. split; [done|]. by exists first.
      * constructor; [|done]. simpl. unfold count_ok.
        rewrite named_snoc, String.eqb_refl.
        rewrite named_nil by (by rewrite <- Hin). simpl. split; [done|]. by exists p.
Qed.

Lemma sortByCount_key (a b : TopItem.t) :
  sortByCount a b = (TopItem.count b <=? TopItem.count a).
Proof.
  unfold sortByCount.
  destruct (Z.leb_spec (TopItem.count b - TopItem.count a) 0),
    (Z.leb_spec (TopItem.count b) (TopItem.count a)); lia.
Qed.

Lemma count_fold_total (l : list AggregatedPlayer.t) :
  Zsum (map (fun kv => CountData.count (snd kv))
          (fold_left (count_step name_of img_of) l []))
  = Z.of_nat (length l).
Proof.
  induction l as [|p l IH] using rev_ind; [done|].
  rewrite fold_left_app, length_app. simpl.
  pose proof (count_fold_inv l) as [Hkeys _]. simpl in Hkeys.
  set (m := fold_left (count_step name_of img_of) l []) in *. clearbody m.
  assert (NoDup (map fst m)) as Hnd by (rewrite Hkeys; apply first_seen_NoDup).
  rewrite count_step_cases by done.
  destruct (decide (name_of p ∈ map fst m)) as [Hyes|Hno].
  - replace (Z.of_nat (length l + 1))
      with (Zsum (map (fun kv => CountData.count (snd kv)) m) + 1) by lia.
    clear IH Hkeys.
    induction m as [|[k d] m IHm]; simpl in *; [by apply elem_of_nil in Hyes|].
    apply NoDup_cons in Hnd as [Hnotin Hnd].
    destruct (String.eqb_spec k (name_of p)) as [->|Hne]; simpl.
    + assert (map (fun kv : string * CountData.t =>
                     if String.eqb (fst kv) (name_of p)
                     then (fst kv, CountData.mk (CountData.count (snd kv) + 1)
                                     (CountData.imgUrl (snd kv)))
                     else kv) m = m) as ->; [|lia].
      rewrite <- (map_id m) at 2. apply map_ext_in. intros [k' d'] Hin. simpl.
      destruct (String.eqb_spec k' (name_of p)) as [->|]; [|done].
      exfalso. apply Hnotin.
      apply list_elem_of_In. apply (in_map fst) in Hin. exact Hin.
    + apply elem_of_cons in Hyes as [Heq|Hyes]; [congruence|].
      rewrite IHm by done. lia.
  - rewrite map_app, Zsum_app. simpl. lia.
Qed.

(** X19.  Each top list (clubs, nations, leagues) has one item per distinct
    name among the displayed entries; the item's count is the number of
    entries with that name (each entry once, whatever its copies) and its
    image is that of the first such entry.  The items are in descending
    order of count, the counts add up to the number of entries, and no count
    exceeds [maxCount], which is at least 1. *)
Theorem top_list_counts (l : list AggregatedPlayer.t) :
  let top := top_items name_of img_of l in
  Permutation (map TopItem.name top) (first_seen (map name_of l))
  ∧ Forall (fun item =>
              count_ok name_of img_of l (TopItem.name item) (TopItem.count item)
                (TopItem.imgUrl item)) top
  ∧ StronglySorted (fun a b => TopItem.count b ≤ TopItem.count a) top
  ∧ Zsum (map TopItem.count top) = Z.of_nat (length l)
  ∧ 1 ≤ maxCount top
  ∧ Forall (fun item => 1 ≤ TopItem.count item ≤ maxCount top) top.
Proof.
  intros top. destruct (count_fold_inv l) as [Hkeys Hok]. simpl in Hkeys, Hok.
  set (m := fold_left (count_step name_of img_of) l []) in *.
  set (items := map (fun entry =>
                       TopItem.mk (fst entry) (CountData.count (snd entry))
                         (CountData.imgUrl (snd entry))) m).
  assert (Permutation top items) as Hperm by apply sort_perm.
  assert (Forall (fun item =>
                    count_ok name_of img_of l (TopItem.name item) (TopItem.count item)
                      (TopItem.imgUrl item)) top) as Hitems.
  { eapply Permutation_Forall; [symmetry; exact Hperm|].
    unfold items. by rewrite Forall_map. }
  assert (StronglySorted (fun a b => TopItem.count b ≤ TopItem.count a) top) as Hsorted
    by apply (sort_desc _ _ sortByCount_key).
  assert (Forall (fun item => 1 ≤ TopItem.count item) top) as Hpos.
  { eapply Forall_impl; [exact Hitems|].
    intros item (Hcount & first & Hfirst & _). rewrite Hcount.
    destruct (named name_of (TopItem.name item) l); [done|]. simpl. lia. }
  split; [|split; [done|split; [done|split; [|split]]]].
  - rewrite Hperm. unfold items. rewrite map_map. simpl. by rewrite <- Hkeys.
  - rewrite (Zsum_perm _ _ (Permutation_map TopItem.count Hperm)).
    unfold items. rewrite map_map. simpl. apply count_fold_total.
  - destruct Hpos as [|first rest Hfirst _]; simpl; [done|].
    destruct (Z.eqb_spec (TopItem.count first) 0); lia.
  - destruct Hsorted as [|first rest _ Hle]; [constructor|].
    inversion Hpos as [|? ? Hfirst Hrest]; subst. simpl.
    destruct (Z.eqb_spec (TopItem.count first) 0); [lia|].
    constructor; [lia|].
    rewrite Forall_forall in Hle, Hrest |- *. intros item Hin.
    specialize (Hle _ Hin). specialize (Hrest _ Hin). lia.
Qed.

End TopStatsFacts.

Example top_nations_sample :
  map (fun item => (TopItem.name item, TopItem.count item))
    (topNations (displayed initial_filters sample_players))
  = [("Italy", 4)].
Proof. vm_compute. reflexivity. Qed.

(** ** Pages *)

Lemma currentItems_eq {A} (items : list A) (page pageSize : nat) :
  currentItems items page pageSize = firstn pageSize (skipn (page * pageSize) items).
Proof.
  unfold currentItems, slice. f_equal. lia.
Qed.

Lemma pages_concat {A} (pageSize k : nat) (items : list A) :
  (length items ≤ k * pageSize)%nat →
  concat (map (fun page => firstn pageSize (skipn (page * pageSize) items)) (seq 0 k))
  = items.
Proof.
  revert items. induction k as [|k IH]; intros items Hlen; simpl.
  - destruct items; [done|]. simpl in Hlen. lia.
  - rewrite <- seq_shift, map_map.
    rewrite (map_ext _ (fun page => firstn pageSize
                                      (skipn (page * pageSize) (skipn pageSize items)))).
    2:{ intros page. rewrite skipn_skipn. do 2 f_equal. lia. }
    rewrite IH by (rewrite length_skipn; lia).
    apply firstn_skipn.
Qed.

Lemma totalPages_bounds (n pageSize page : nat) :
  (0 < pageSize)%nat →
  (n ≤ totalPages n pageSize * pageSize)%nat
  ∧ ((page < totalPages n pageSize)%nat ↔ (page * pageSize < n)%nat).
Proof.
  intros Hpos. unfold totalPages.
  pose proof (Nat.div_mod_eq n pageSize) as Hdm.
  pose proof (Nat.mod_upper_bound n pageSize ltac:(lia)) as Hr.
  set (q := (n / pageSize)%nat) in *. set (r := (n mod pageSize)%nat) in *.
  destruct (Nat.eqb_spec r 0) as [H0|Hne]; split; nia.
Qed.

(** X20.  The pages of a paginated list (five top items or ten SBCs to a
    page) cut the list into consecutive pieces: pages 0 to [totalPages - 1]
    put end to end give the list back, no page is longer than the page size,
    and a page holds an item exactly when its index is below [totalPages], so
    a page index left over from a longer list shows nothing. *)
Theorem pages_partition_the_list {A} (items : list A) (pageSize : nat) :
  (0 < pageSize)%nat →
  concat (map (fun page => currentItems items page pageSize)
            (seq 0 (totalPages (length items) pageSize)))
  = items
  ∧ (∀ page, (length (currentItems items page pageSize) ≤ pageSize)%nat)
  ∧ (∀ page, (page < totalPages (length items) pageSize)%nat
             ↔ currentItems items page pageSize ≠ [])
  ∧ (totalPages (length items) pageSize = 0%nat ↔ items = []).
Proof.
  intros Hpos. split; [|split; [|split]].
  - rewrite (map_ext _ (fun page => firstn pageSize (skipn (page * pageSize) items)))
      by (intros page; apply currentItems_eq).
    apply pages_concat.
    by destruct (totalPages_bounds (length items) pageSize 0 Hpos) as [? _].
  - intros page. rewrite currentItems_eq. apply firstn_le_length.
  - intros page.
    destruct (totalPages_bounds (length items) pageSize page Hpos) as [_ ->].
    rewrite currentItems_eq. split.
    + intros Hlt Hnil. apply (f_equal (@length A)) in Hnil.
      rewrite length_firstn, length_skipn in Hnil. simpl in Hnil. lia.
    + intros Hne. destruct (Nat.lt_ge_cases (page * pageSize) (length items)) as [|Hge];
        [done|].
      exfalso. apply Hne. by rewrite skipn_all2, firstn_nil.
  - destruct (totalPages_bounds (length items) pageSize 0 Hpos) as [Hle Hiff].
    split.
    + intros H0. rewrite H0 in Hle. destruct items; [done|]. simpl in Hle. lia.
    + intros ->. simpl in *. destruct (totalPages 0 pageSize); [done|].
      assert (0 < 0)%nat; [apply Hiff|]; lia.
Qed.

Lemma pages_partition_the_list_witness :
  map (fun page => currentItems [1; 2; 3; 4; 5; 6; 7; 8; 9; 10; 11; 12] page 5)
    (seq 0 (totalPages 12 5))
  = [[1; 2; 3; 4; 5]; [6; 7; 8; 9; 10]; [11; 12]]
  ∧ concat (map (fun page => currentItems [1; 2; 3; 4; 5; 6; 7; 8; 9; 10; 11; 12] page 5)
              (seq 0 (totalPages 12 5)))
    = [1; 2; 3; 4; 5; 6; 7; 8; 9; 10; 11; 12].
Proof.
  split; [reflexivity|].
  exact (proj1 (pages_partition_the_list [1; 2; 3; 4; 5; 6; 7; 8; 9; 10; 11; 12] 5
                  ltac:(lia))).
Defined.

(** ** The options of the three selectors *)

Section FilterOptionsFacts.
Variable localeCompare : string → string → Z.
Variable name_of : AggregatedPlayer.t → string.
Variable img_of : AggregatedPlayer.t → option string.

Lemma head_app_nonempty {A} (l1 l2 : list A) (x : A) :
  head l1 = Some x → head (l1 ++ l2) = Some x.
Proof. by destruct l1. Qed.

Lemma option_fold_inv (l : list AggregatedPlayer.t) :
  let m := fold_left (option_step name_of img_of) l [] in
  map fst m = first_seen (map name_of l)
  ∧ Forall (fun kv => EntityOption.value (snd kv) = fst kv
                      ∧ option_ok name_of img_of l (snd kv)) m.
Proof.
  induction l as [|p l IH] using rev_ind; [by split; constructor|].
  simpl in *. rewrite fold_left_app. simpl.
  set (m := fold_left (option_step name_of img_of) l []) in *. clearbody m.
  destruct IH as [Hkeys Hok].
  assert (Forall (fun kv => EntityOption.value (snd kv) = fst kv
                            ∧ option_ok name_of img_of (l ++ [p]) (snd kv)) m) as Hok'.
  { eapply Forall_impl; [exact Hok|].
    intros [k o] (Hvalue & Hlabel & first & Hfirst & Himg). simpl in *.
    split; [done|]. split; [done|]. exists first. split; [|done].
    rewrite named_snoc. by apply head_app_nonempty. }
  unfold option_step, Map_has. rewrite map_app. simpl. rewrite first_seen_snoc.
  destruct (StrMap.get m (name_of p)) as [o|] eqn:Hget.
  - assert (name_of p ∈ map fst m) as Hin by (apply StrMap_get_Some_inv; eauto).
    rewrite Hkeys, first_seen_elem_of in Hin.
    by rewrite decide_True.
  - apply StrMap_get_None_inv in Hget as Hnotin.
    rewrite StrMap_set_fresh by done.
    rewrite Hkeys, first_seen_elem_of in Hnotin.
    rewrite decide_False by done. split.
    + by rewrite map_app, Hkeys.
    + apply Forall_app. split; [done|].
      constructor; [|constructor]. simpl. split; [done|]. split; [done|].
      exists p. simpl. rewrite named_snoc, named_nil by done.
      by rewrite String.eqb_refl.
Qed.

(** X21.  Each selector (nations, leagues, teams) offers one option per
    distinct name among the aggregated entries, whatever order
    [localeCompare] gives them: no name is offered twice, the label shown is
    the value selected, the image is that of the first entry with the name,
    and every option offered is the name of at least one entry. *)
Theorem selector_options_distinct_names (l : list AggregatedPlayer.t) :
  let options := entity_options localeCompare name_of img_of l in
  Permutation (map EntityOption.value options) (first_seen (map name_of l))
  ∧ NoDup (map EntityOption.value options)
  ∧ Forall (option_ok name_of img_of l) options
  ∧ Forall (fun o => named name_of (EntityOption.value o) l ≠ []) options.
Proof.
  intros options. destruct (option_fold_inv l) as [Hkeys Hok]. simpl in Hkeys, Hok.
  set (m := fold_left (option_step name_of img_of) l []) in *.
  assert (Permutation options (StrMap.values m)) as Hperm by apply sort_perm.
  assert (map EntityOption.value (StrMap.values m) = first_seen (map name_of l)) as Hvalues.
  { rewrite <- Hkeys. unfold StrMap.values. rewrite map_map.
    apply map_ext_in. intros kv Hin.
    rewrite Forall_forall in Hok. by destruct (Hok kv (proj2 (list_elem_of_In _ _) Hin)). }
  assert (Forall (option_ok name_of img_of l) options) as Hoptions.
  { eapply Permutation_Forall; [symmetry; exact Hperm|].
    unfold StrMap.values. rewrite Forall_map.
    eapply Forall_impl; [exact Hok|]. by intros kv [_ ?]. }
  split; [|split; [|split]].
  - by rewrite Hperm, Hvalues.
  - apply NoDup_ListNoDup.
    eapply Permutation_NoDup; [symmetry; apply Permutation_map; exact Hperm|].
    rewrite Hvalues. apply NoDup_ListNoDup, first_seen_NoDup.
  - done.
  - eapply Forall_impl; [exact Hoptions|].
    intros o (_ & first & Hfirst & _) Hnil. by rewrite Hnil in Hfirst.
Qed.

End FilterOptionsFacts.

(** ** The cost of a retried request *)

Lemma spaced_attempts_cost (url : string) (first count : nat) :
  requests (spaced_attempts url first count) = count
  ∧ total_sleep (spaced_attempts url first count)
    = 500 * Z.of_nat (Nat.pred count) * (2 * Z.of_nat first + Z.of_nat count - 2)
  ∧ ∀ ms, last (spaced_attempts url first count) ≠ Some (Sleep ms).
Proof.
  revert first. induction count as [|count IH]; intros first; [by repeat split|].
  destruct count as [|count]; [repeat split; simpl; by try lia|].
  rewrite spaced_attempts_S by lia.
  destruct (IH (S first)) as (Hreq & Hsleep & Hlast).
  unfold requests, total_sleep in *. cbn [map List.filter length Zsum].
  split; [by rewrite Hreq|]. split.
  - change (Zsum (0 :: 1000 * Z.of_nat first :: ?l))
      with (0 + (1000 * Z.of_nat first + Zsum l)).
    rewrite Hsleep. cbn [Nat.pred]. nia.
  - intros ms. specialize (Hlast ms).
    destruct (spaced_attempts url (S first) (S count)) eqn:Hrest; [|done].
    by destruct count.
Qed.

(** X22.  What a retried request can cost: after [n] requests the call has
    paused [500 * n * (n - 1)] ms in all, so never more than
    [500 * maxRetries * (maxRetries - 1)] ms over at most [maxRetries]
    requests (3000 ms and three requests for each of the three collections);
    it never pauses after its last request; and with [maxRetries] 0 it makes
    no request at all and throws the fallback message. *)
Theorem fetchWithRetry_cost {T} (url name : string) (reply : nat → Outcome T)
    (maxRetries : nat) :
  let ev := snd (fetchWithRetry url name reply maxRetries) in
  (requests ev ≤ maxRetries)%nat
  ∧ total_sleep ev = 500 * Z.of_nat (requests ev) * (Z.of_nat (requests ev) - 1)
  ∧ total_sleep ev ≤ 500 * Z.of_nat maxRetries * (Z.of_nat maxRetries - 1)
  ∧ (∀ ms, last ev ≠ Some (Sleep ms))
  ∧ fetchWithRetry url name reply 0
    = (Rejected ("Failed to fetch " +:+ name +:+ " after 0 retries"), [])
  ∧ (∀ r, total_sleep (snd (fetchTradePile r)) ≤ 3000
          ∧ (requests (snd (fetchTradePile r)) ≤ 3)%nat)
  ∧ (∀ r, total_sleep (snd (fetchStorage r)) ≤ 3000
          ∧ (requests (snd (fetchStorage r)) ≤ 3)%nat)
  ∧ (∀ r, total_sleep (snd (fetchDuplicated r)) ≤ 3000
          ∧ (requests (snd (fetchDuplicated r)) ≤ 3)%nat).
Proof.
  assert (∀ U (u n : string) (r : nat → Outcome U) (m : nat),
            let ev := snd (fetchWithRetry u n r m) in
            (requests ev ≤ m)%nat
            ∧ total_sleep ev = 500 * Z.of_nat (requests ev) * (Z.of_nat (requests ev) - 1)
            ∧ total_sleep ev ≤ 500 * Z.of_nat m * (Z.of_nat m - 1)
            ∧ ∀ ms, last ev ≠ Some (Sleep ms)) as Hcost.
  { intros U u n r m. unfold fetchWithRetry.
    destruct (retry_loop_spec u n r m m 1 None) as (k & Hk & -> & _); [lia|].
    simpl. destruct (spaced_attempts_cost u 1 k) as (-> & -> & Hlast).
    split; [done|]. split; [destruct k; simpl; lia|]. split; [|done].
    destruct k; simpl; nia. }
  destruct (Hcost T url name reply maxRetries) as (H1 & H2 & H3 & H4).
  split; [done|]. split; [done|]. split; [done|]. split; [done|].
  split; [done|].
  split; [|split]; intros r.
  - destruct (Hcost _ (FUT_API_URL +:+ "/tradepile") "Trade pile" r 3%nat)
      as (? & _ & ? & _). by split.
  - destruct (Hcost _ (FUT_API_URL +:+ "/storagepile?skuMode=FUT") "Storage" r 3%nat)
      as (? & _ & ? & _). by split.
  - destruct (Hcost _ (FUT_API_URL +:+ "/purchased/items") "Duplicated items" r 3%nat)
      as (? & _ & ? & _). by split.
Qed.
